(** * Dependency Graph Engine: a shallow embedding of
      [dependency_analyzer/topo_sort.py] and
      [dependency_analyzer/filter_components_by_cis.py].

    Conventions of the embedding.
    - A component identifier is a [string]; Python compares [str] values by
      code point, which on UTF-8 encoded text is the byte-wise lexicographic
      order of [String.compare].
    - A Python [dict] is an association list in insertion order (the order in
      which [for k in d] iterates), with distinct keys.
    - A Python [set] of identifiers is a duplicate-free list; the order of the
      list is the order in which the set happens to be iterated.  Every
      statement below is proved for all such orders.  Where the program
      itself builds a set with [set(...)] and then iterates it, the order
      depends on the hashes of the strings: it is given by a parameter
      [set_order], of which only [set_iteration] is assumed.
    - Recursion depth is taken to be unbounded (the interpreter's recursion
      limit is not part of the model); recursive procedures carry fuel and
      are proved to return with the fuel they are given. *)

From Stdlib Require Import List String Ascii Bool Arith ZArith Lia.
From Stdlib Require Import Permutation Sorted.
From Stdlib Require Import Floats Uint63 QArith Qabs Qcanon DecimalString.
Import ListNotations.
Close Scope Q_scope.
Close Scope Qc_scope.
Close Scope float_scope.
Close Scope uint63_scope.
Local Open Scope string_scope.
Local Open Scope list_scope.

Set Implicit Arguments.

(** ** Python containers *)

Definition node := string.

Section Dict.
Variable V : Type.

Definition dict := list (string * V).

(** [d.get(k)] *)
Fixpoint dict_get (d : dict) (k : string) : option V :=
  match d with
  | [] => None
  | (k', v) :: r => if String.eqb k' k then Some v else dict_get r k
  end.

(** [k in d] *)
Definition dict_mem (d : dict) (k : string) : bool :=
  match dict_get d k with Some _ => true | None => false end.

(** [d[k] = v]: an existing key keeps its position, a new key goes last. *)
Fixpoint dict_set (d : dict) (k : string) (v : V) : dict :=
  match d with
  | [] => [(k, v)]
  | (k', v') :: r =>
      if String.eqb k' k then (k', v) :: r else (k', v') :: dict_set r k v
  end.

(** [list(d.keys())] *)
Definition dict_keys (d : dict) : list string := map fst d.
End Dict.

Arguments dict_get {V} d k.
Arguments dict_mem {V} d k.
Arguments dict_set {V} d k v.
Arguments dict_keys {V} d.

(** [x in s] *)
Definition set_mem (x : string) (s : list string) : bool :=
  existsb (String.eqb x) s.

(** [s.add(x)] *)
Definition set_add (x : string) (s : list string) : list string :=
  if set_mem x s then s else s ++ [x].

(** [s.remove(x)] for [x in s] *)
Definition set_remove (x : string) (s : list string) : list string :=
  filter (fun y => negb (String.eqb x y)) s.

(** [set(xs)] *)
Definition set_of (xs : list string) : list string :=
  fold_left (fun s x => set_add x s) xs [].

(** [sorted(xs)] on strings: the ascending arrangement of [xs]. *)
Fixpoint insert_sorted (x : string) (l : list string) : list string :=
  match l with
  | [] => [x]
  | y :: r => if String.leb x y then x :: l else y :: insert_sorted x r
  end.

Definition sorted (xs : list string) : list string :=
  fold_right insert_sorted [] xs.

(** ** The graph model *)

(** [Dict[str, Set[str]]]: node -> the set of nodes it depends on. *)
Definition graph := dict (list node).

(** [graph.get(node, set())] *)
Definition succs (g : graph) (n : node) : list node :=
  match dict_get g n with Some ds => ds | None => [] end.

(** [{node: set(deps) for node, deps in graph.items()}] *)
Definition copy_graph (g : graph) : graph :=
  fold_left (fun d (it : node * list node) => dict_set d (fst it) (set_of (snd it))) g [].

(** The inner loop of [_normalize_graph]:
    [for dep in deps: if dep not in normalized: normalized[dep] = set()]. *)
Definition add_missing (normalized : graph) (deps : list node) : graph :=
  fold_left (fun d dep => if dict_mem d dep then d else dict_set d dep [])
            deps normalized.

(** [_normalize_graph]: the loop runs over the snapshot
    [list(normalized.items())] taken before any key is added. *)
Definition _normalize_graph (g : graph) : graph :=
  let normalized := copy_graph g in
  fold_left (fun d (it : node * list node) => add_missing d (snd it))
            normalized normalized.

(** Every dependency target is a key. *)
Definition closed (g : graph) : Prop :=
  forall k ds d, In (k, ds) g -> In d ds -> In d (dict_keys g).

(** The list really is a dict of sets. *)
Definition wf_graph (g : graph) : Prop :=
  NoDup (dict_keys g) /\ forall k ds, In (k, ds) g -> NoDup ds.

(** The order that [sorted] and the heap use on strings. *)
Definition str_le (a b : string) : Prop := String.leb a b = true.

(** ** Failure: a Python exception, or fuel exhausted *)

Definition bind {A B : Type} (m : option A) (k : A -> option B) : option B :=
  match m with Some a => k a | None => None end.

Notation "x <- m ;; k" := (bind m (fun x => k))
  (at level 61, m at next level, right associativity).

(** ** Cycle detection: Tarjan's procedure *)

(** The closure variables of [detect_cycles].  [stack] is a Python list
    used with [append]/[pop]; here its top is the head of the list. *)
Record tarjan : Type := mkTarjan {
  index_counter : nat;
  index : dict nat;
  lowlink : dict nat;
  onstack : list node;
  stack : list node;
  result : list (list node)
}.

Definition tarjan_init : tarjan := mkTarjan 0 [] [] [] [] [].

(** The first five statements of [strongconnect]. *)
Definition enter (n : node) (st : tarjan) : tarjan :=
  mkTarjan (S (index_counter st))
           (dict_set (index st) n (index_counter st))
           (dict_set (lowlink st) n (index_counter st))
           (set_add n (onstack st))
           (n :: stack st)
           (result st).

Definition set_lowlink (st : tarjan) (n : node) (v : nat) : tarjan :=
  mkTarjan (index_counter st) (index st) (dict_set (lowlink st) n v)
           (onstack st) (stack st) (result st).

(** [for successor in graph.get(node, set()): ...], with the recursive call
    abstracted as [rec]. *)
Fixpoint for_successors (rec : node -> tarjan -> option tarjan)
    (n : node) (ws : list node) (st : tarjan) : option tarjan :=
  match ws with
  | [] => Some st
  | w :: rest =>
      if negb (dict_mem (index st) w) then
        st1 <- rec w st ;;
        a <- dict_get (lowlink st1) n ;;
        b <- dict_get (lowlink st1) w ;;
        for_successors rec n rest (set_lowlink st1 n (Nat.min a b))
      else if set_mem w (onstack st) then
        a <- dict_get (lowlink st) n ;;
        b <- dict_get (index st) w ;;
        for_successors rec n rest (set_lowlink st n (Nat.min a b))
      else for_successors rec n rest st
  end.

(** [while True: successor = stack.pop(); onstack.remove(successor);
    scc.append(successor); if successor == node: break].
    Returns the component, the remaining stack and the remaining on-stack
    set. *)
Fixpoint pop_scc (n : node) (stk ons scc : list node)
    : option (list node * list node * list node) :=
  match stk with
  | [] => None
  | s :: rest =>
      if set_mem s ons then
        if String.eqb s n then Some (scc ++ [s], rest, set_remove s ons)
        else pop_scc n rest (set_remove s ons) (scc ++ [s])
      else None
  end.

(** The report decision on a popped component. *)
Definition report (g : graph) (scc : list node) (res : list (list node))
    : list (list node) :=
  match scc with
  | [] => res
  | [only] => if set_mem only (succs g only) then res ++ [scc] else res
  | _ => res ++ [scc]
  end.

(** The tail of [strongconnect]: root test, pop and report. *)
Definition finish (g : graph) (n : node) (st : tarjan) : option tarjan :=
  l <- dict_get (lowlink st) n ;;
  i <- dict_get (index st) n ;;
  if Nat.eqb l i then
    p <- pop_scc n (stack st) (onstack st) [] ;;
    let '(scc, stk, ons) := p in
    Some (mkTarjan (index_counter st) (index st) (lowlink st) ons stk
                   (report g scc (result st)))
  else Some st.

Fixpoint strongconnect (fuel : nat) (g : graph) (n : node) (st : tarjan)
    : option tarjan :=
  match fuel with
  | 0 => None
  | S f =>
      st1 <- for_successors (strongconnect f g) n (succs g n) (enter n st) ;;
      finish g n st1
  end.

(** [for node in graph: if node not in index: strongconnect(node)] *)
Fixpoint visit_all (fuel : nat) (g : graph) (ns : list node) (st : tarjan)
    : option tarjan :=
  match ns with
  | [] => Some st
  | n :: rest =>
      if dict_mem (index st) n then visit_all fuel g rest st
      else st1 <- strongconnect fuel g n st ;; visit_all fuel g rest st1
  end.

Definition detect_cycles (g0 : graph) : option (list (list node)) :=
  let g := _normalize_graph g0 in
  st <- visit_all (S (List.length g)) g (dict_keys g) tarjan_init ;;
  Some (result st).

(** ** Cycle resolution *)

Definition edge := (node * node)%type.

(** [new_graph[u].remove(v)] *)
Definition remove_edge (g : graph) (u v : node) : graph :=
  dict_set g u (set_remove v (succs g u)).

(** The first [u] of [members] with [u in new_graph.get(u, set())]. *)
Definition find_self_loop (g : graph) (members : list node) : option node :=
  find (fun u => set_mem u (succs g u)) members.

(** The first [u] of [members], and for it the first [v] of
    [sorted(new_graph.get(u, set()))] with [v in scc_set]. *)
Fixpoint find_intra_edge (g : graph) (scc_set members : list node)
    : option edge :=
  match members with
  | [] => None
  | u :: rest =>
      match find (fun v => set_mem v scc_set) (sorted (succs g u)) with
      | Some v => Some (u, v)
      | None => find_intra_edge g scc_set rest
      end
  end.

(** The loop variables of one round: [new_graph], [removed_edges],
    [changed_this_round]. *)
Definition round_state := (graph * list edge * bool)%type.

(** The body of [for i, scc in enumerate(cycles)]. *)
Definition break_group (rs : round_state) (scc : list node) : round_state :=
  let '(g, removed, changed) := rs in
  let scc_set := set_of scc in
  let '(g1, removed1, changed1) :=
    match find_self_loop g (sorted scc_set) with
    | Some u => (remove_edge g u u, removed ++ [(u, u)], true)
    | None => (g, removed, changed)
    end in
  if changed1 then (g1, removed1, changed1)
  else
    match find_intra_edge g1 scc_set (sorted scc_set) with
    | Some (u, v) => (remove_edge g1 u v, removed1 ++ [(u, v)], true)
    | None => (g1, removed1, changed1)
    end.

(** Which [return] of [resolve_cycles] was taken: the one that logs at
    [info] level, and the two that log a warning. *)
Inductive resolution : Type :=
| Converged
| NoProgress
| MaxRounds.

(** [for round_idx in range(max_rounds): ...] followed by the final
    [return]. *)
Fixpoint resolve_rounds (rounds : nat) (g : graph) (removed : list edge)
    : option (graph * list edge * resolution) :=
  match rounds with
  | 0 => Some (g, removed, MaxRounds)
  | S r =>
      cycles <- detect_cycles g ;;
      match cycles with
      | [] => Some (g, removed, Converged)
      | _ =>
          let '(g', removed', changed) :=
            fold_left break_group cycles (g, removed, false) in
          if changed then resolve_rounds r g' removed'
          else Some (g', removed', NoProgress)
      end
  end.

Definition max_rounds (g : graph) : nat := Nat.max 10 (List.length g * 2).

(** [resolve_cycles] together with its log: the removed edges and the
    return that was taken. *)
Definition resolve_cycles_log (g : graph)
    : option (graph * list edge * resolution) :=
  let new_graph := _normalize_graph g in
  resolve_rounds (max_rounds new_graph) new_graph [].

Definition resolve_cycles (g : graph) : option graph :=
  r <- resolve_cycles_log g ;; Some (fst (fst r)).

(** One pass of the round body, as an observation for the per-round
    accounting: the groups detected on [g] and the edges removed before
    detection is run again. *)
Definition one_round (g : graph) : option (list (list node) * list edge) :=
  cycles <- detect_cycles g ;;
  Some (cycles, snd (fst (fold_left break_group cycles (g, [], false)))).

(** ** Order generators *)

(** [dependents[dep].add(node)] on a [defaultdict(set)] *)
Definition defaultdict_add (d : dict (list node)) (k x : node)
    : dict (list node) :=
  dict_set d k (set_add x (match dict_get d k with Some s => s | None => [] end)).

(** [for dep in deps: dependents[dep].add(node); in_degree[node] += 1] *)
Fixpoint count_deps (n : node) (deps : list node)
    (dependents : dict (list node)) (in_degree : dict Z)
    : option (dict (list node) * dict Z) :=
  match deps with
  | [] => Some (dependents, in_degree)
  | dep :: rest =>
      v <- dict_get in_degree n ;;
      count_deps n rest (defaultdict_add dependents dep n)
                 (dict_set in_degree n (v + 1)%Z)
  end.

(** [for node, deps in acyclic_graph.items(): ...] *)
Fixpoint count_all (items : graph)
    (dependents : dict (list node)) (in_degree : dict Z)
    : option (dict (list node) * dict Z) :=
  match items with
  | [] => Some (dependents, in_degree)
  | (n, deps) :: rest =>
      p <- count_deps n deps dependents in_degree ;;
      count_all rest (fst p) (snd p)
  end.

(** [heapq] on strings, observed through [heappop]: the queue is kept in
    ascending order, so that its head is the smallest element. *)
Definition heapify (l : list node) : list node := sorted l.
Definition heappush (h : list node) (x : node) : list node := insert_sorted x h.

(** [for dependent in sorted(dependents.get(node, set())): ...] *)
Fixpoint relax (ds : list node) (in_degree : dict Z) (heap : list node)
    : option (dict Z * list node) :=
  match ds with
  | [] => Some (in_degree, heap)
  | d :: rest =>
      v <- dict_get in_degree d ;;
      let in_degree' := dict_set in_degree d (v - 1)%Z in
      if Z.eqb (v - 1) 0 then relax rest in_degree' (heappush heap d)
      else relax rest in_degree' heap
  end.

(** [while heap: node = heapq.heappop(heap); result.append(node); ...] *)
Fixpoint drain (fuel : nat) (dependents : dict (list node))
    (in_degree : dict Z) (heap result : list node) : option (list node) :=
  match heap with
  | [] => Some result
  | n :: heap' =>
      match fuel with
      | 0 => None
      | S f =>
          p <- relax (sorted (succs dependents n)) in_degree heap' ;;
          drain f dependents (fst p) (snd p) (result ++ [n])
      end
  end.

(** The order on an already resolved and normalised graph. *)
Definition kahn (g : graph) : option (list node) :=
  let in_degree0 := fold_left (fun d n => dict_set d n 0%Z) (dict_keys g) [] in
  p <- count_all g [] in_degree0 ;;
  let '(dependents, in_degree) := p in
  let heap :=
    heapify (map fst (filter (fun it => Z.eqb (snd it) 0) in_degree)) in
  res <- drain (S (List.length g)) dependents in_degree heap [] ;;
  if negb (Nat.eqb (List.length res) (List.length g)) then
    let remaining :=
      filter (fun n => negb (set_mem n (set_of res))) (dict_keys g) in
    Some (res ++ sorted remaining)
  else Some res.

Definition topological_sort (g : graph) : option (list node) :=
  acyclic_graph <- resolve_cycles g ;;
  kahn (_normalize_graph acyclic_graph).

(** The closure variables of [dependency_first_dfs]. *)
Record dfs_state : Type := mkDfs {
  visited : list node;
  visiting : list node;
  order : list node
}.

(** [for dep in sorted(...): dfs(dep)], the recursive call abstracted. *)
Fixpoint for_deps (rec : node -> dfs_state -> option dfs_state)
    (deps : list node) (st : dfs_state) : option dfs_state :=
  match deps with
  | [] => Some st
  | d :: rest => st1 <- rec d st ;; for_deps rec rest st1
  end.

Fixpoint dfs (fuel : nat) (g : graph) (n : node) (st : dfs_state)
    : option dfs_state :=
  match fuel with
  | 0 => None
  | S f =>
      if set_mem n (visited st) then Some st
      else if set_mem n (visiting st) then Some st
      else
        st1 <- for_deps (dfs f g) (sorted (succs g n))
                 (mkDfs (visited st) (set_add n (visiting st)) (order st)) ;;
        if set_mem n (visiting st1) then
          Some (mkDfs (set_add n (visited st1))
                      (set_remove n (visiting st1))
                      (order st1 ++ [n]))
        else None
  end.

(** The postorder on an already resolved and normalised graph. *)
Definition postorder (g : graph) : option (list node) :=
  st <- for_deps (dfs (S (List.length g)) g) (sorted (dict_keys g))
          (mkDfs [] [] []) ;;
  Some (order st).

Definition dependency_first_dfs (g : graph) : option (list node) :=
  acyclic_graph <- resolve_cycles g ;;
  postorder (_normalize_graph acyclic_graph).

(** [B] occurs, and at a position strictly before every occurrence of [A]
    that follows: the sequence reads [... B ... A ...]. *)
Definition before (b a : node) (l : list node) : Prop :=
  exists l1 l2 l3, l = l1 ++ b :: l2 ++ a :: l3.


(** ** Auxiliary notions used in the statements and proofs *)

(** The entries that [_normalize_graph] adds: keys with an empty set. *)
Definition empty_items (ks : list node) : graph := map (fun k => (k, [])) ks.

(** The outer loop of [_normalize_graph] from an arbitrary start. *)
Definition fill_missing (items d : graph) : graph :=
  fold_left (fun d (it : node * list node) => add_missing d (snd it)) items d.

(** [x] has received an index. *)
Definition indexed (st : tarjan) (x : node) : Prop :=
  In x (dict_keys (index st)).

(** A reported group contains an edge between two of its members. *)
Definition good_scc (g : graph) (c : list node) : Prop :=
  exists u v, In u c /\ In v c /\ In v (succs g u).

(** The representation invariant of the closure variables. *)
Record tarjan_inv (st : tarjan) : Prop := mkTarjanInv {
  inv_onstack : forall x, In x (onstack st) <-> In x (stack st);
  inv_stack_indexed : forall x, In x (stack st) -> indexed st x;
  inv_lowlink : forall x, In x (dict_keys (lowlink st)) <-> indexed st x;
  inv_counter : forall x i, dict_get (index st) x = Some i -> i < index_counter st;
  inv_nodup : NoDup (stack st)
}.

(** What only ever grows while the procedure runs. *)
Record grows (g : graph) (st st' : tarjan) : Prop := mkGrows {
  grows_index : forall x i,
    dict_get (index st) x = Some i -> dict_get (index st') x = Some i;
  grows_new : forall x i,
    dict_get (index st') x = Some i ->
    dict_get (index st) x = Some i \/ index_counter st <= i;
  grows_counter : index_counter st <= index_counter st';
  grows_result : exists more,
    result st' = result st ++ more /\ Forall (good_scc g) more
}.

(** The number of keys of [g] that have no index yet: the recursion depth
    still available. *)
Definition unindexed (g : graph) (st : tarjan) : nat :=
  List.length (filter (fun k => negb (dict_mem (index st) k)) (dict_keys g)).

(** The effect of one call [strongconnect(n)]: it only pushes, what it
    leaves on the stack contains [n], and the low-links of the nodes that
    were indexed before the call are untouched. *)
Record call_post (g : graph) (n : node) (st st' : tarjan) : Prop := mkCallPost {
  cp_inv : tarjan_inv st';
  cp_grows : grows g st st';
  cp_indexed : indexed st' n;
  cp_index : dict_get (index st') n = Some (index_counter st);
  cp_stack : exists ext, stack st' = ext ++ stack st
                         /\ (ext = [] \/ In n ext)
                         /\ (forall x, In x ext -> ~ indexed st x);
  cp_lowlink : forall x, indexed st x ->
                         dict_get (lowlink st') x = dict_get (lowlink st) x
}.

(** The state inside the successor loop of [strongconnect(n)] entered from
    [st0]. *)
Record frame (g : graph) (st0 : tarjan) (n : node) (st : tarjan) : Prop := mkFrame {
  fr_fresh : ~ indexed st0 n;
  fr_inv : tarjan_inv st;
  fr_grows : grows g (enter n st0) st;
  fr_stack : exists ext, stack st = ext ++ n :: stack st0
                         /\ (forall x, In x ext -> ~ indexed (enter n st0) x)
                         /\ (ext = [] \/ exists w, In w ext /\ In w (succs g n));
  fr_lowlink : forall x, indexed st0 x ->
                         dict_get (lowlink st) x = dict_get (lowlink st0) x
}.

(** [g'] has the nodes of [g] and some of its edges. *)
Record subgraph (g' g : graph) : Prop := mkSubgraph {
  sub_keys : dict_keys g' = dict_keys g;
  sub_edges : forall u v, In v (succs g' u) -> In v (succs g u)
}.

(** The working copy of the resolver: a closed dict of sets. *)
Definition normal (g : graph) : Prop := wf_graph g /\ closed g.

(** What one group costs: the working copy stays a normal subgraph, the
    log only grows, and the flag is raised exactly when an edge went. *)
Record round_ok (g0 : graph) (rs0 rs : round_state) : Prop := mkRoundOk {
  ro_normal : normal (fst (fst rs));
  ro_sub : subgraph (fst (fst rs)) g0;
  ro_len : List.length (snd (fst rs0)) <= List.length (snd (fst rs));
  ro_flag : snd rs = true ->
            snd rs0 = true \/ List.length (snd (fst rs0)) < List.length (snd (fst rs));
  ro_keep : snd rs0 = true -> snd rs = true
}.

(** ** Acyclicity and dependency-first sequences *)

(** Every element of [l] is preceded by all the nodes it depends on. *)
Definition deps_first (g : graph) (l : list node) : Prop :=
  forall l1 n l2, l = l1 ++ n :: l2 -> forall d, In d (succs g n) -> In d l1.

(** The graph has no cycle: its nodes can be ranked so that every edge goes
    to a strictly smaller rank. *)
Definition acyclic (g : graph) : Prop :=
  exists rank : node -> nat, forall a b, In b (succs g a) -> rank b < rank a.

(** The position of the first occurrence of [x]. *)
Fixpoint index_of (x : node) (l : list node) : nat :=
  match l with
  | [] => 0
  | y :: r => if String.eqb y x then 0 else S (index_of x r)
  end.

(** [x] has been popped. *)
Definition finished (st : tarjan) (x : node) : Prop :=
  indexed st x /\ ~ In x (stack st).

(** The popped nodes can be listed dependencies first. *)
Definition finished_sorted (g : graph) (st : tarjan) : Prop :=
  exists l, deps_first g l /\ forall x, In x l <-> finished st x.

(** [a] is the index of a node that was on the stack before [n] was
    pushed. *)
Definition low_witness (st0 : tarjan) (a : nat) : Prop :=
  exists y, In y (stack st0) /\ dict_get (index st0) y = Some a.

(** The low-link of [n] inside its successor loop, while nothing has been
    reported: it is the index of [n] or of a node below it; as long as it
    is the index of [n] and nothing lies above [n], the successors seen so
    far ([done]) are popped. *)
Definition loop_inv (g : graph) (st0 : tarjan) (n : node)
    (done : list node) (st : tarjan) : Prop :=
  exists a, dict_get (lowlink st) n = Some a
    /\ (a = index_counter st0 \/ low_witness st0 a)
    /\ (a = index_counter st0 -> stack st = n :: stack st0 ->
        (finished_sorted g st0 -> finished_sorted g st)
        /\ forall w, In w done -> w = n \/ finished st w).

(** A call that reports nothing either pops [n] alone ... *)
Definition outcome_done (g : graph) (n : node) (st st' : tarjan) : Prop :=
  stack st' = stack st
  /\ dict_get (lowlink st') n = Some (index_counter st)
  /\ (finished_sorted g st -> finished_sorted g st').

(** ... or leaves it on the stack with the index of a node below it as
    its low-link. *)
Definition outcome_low (n : node) (st st' : tarjan) : Prop :=
  (exists ext, stack st' = ext ++ stack st /\ In n ext)
  /\ exists a, low_witness st a /\ dict_get (lowlink st') n = Some a.

(** The number of dependencies of [m] that are not yet in [res]. *)
Definition pending (g : graph) (res : list node) (m : node) : Z :=
  Z.of_nat (List.length (filter (fun d => negb (set_mem d res)) (succs g m))).

(** The loop invariant of the drain loop of [topological_sort]. *)
Record drain_inv (g : graph) (in_degree : dict Z) (heap res : list node)
    : Prop := mkDrainInv {
  di_deg : forall m, In m (dict_keys g) ->
                     dict_get in_degree m = Some (pending g res m);
  di_heap : forall m, In m heap ->
                      In m (dict_keys g) /\ pending g res m = 0%Z /\ ~ In m res;
  di_ready : forall m, In m (dict_keys g) -> pending g res m = 0%Z ->
                       In m heap \/ In m res;
  di_nodup_heap : NoDup heap;
  di_nodup_res : NoDup res;
  di_res : forall m, In m res -> In m (dict_keys g);
  di_first : deps_first g res
}.

(** The representation invariant of the closure variables of
    [dependency_first_dfs]. *)
Record dfs_inv (g : graph) (st : dfs_state) : Prop := mkDfsInv {
  dv_nodup : NoDup (order st);
  dv_order : forall x, In x (order st) <-> In x (visited st);
  dv_keys : forall x, In x (visited st) -> In x (dict_keys g);
  dv_visiting_nodup : NoDup (visiting st);
  dv_visiting_keys : forall x, In x (visiting st) -> In x (dict_keys g);
  dv_disjoint : forall x, In x (visiting st) -> ~ In x (visited st)
}.

(** The effect of the calls [dfs(d)] for [d] in [ds], in sequence.  The
    last field is the behaviour on a graph ranked by [rank]. *)
Record dfs_post (g : graph) (rank : node -> nat) (ds : list node)
    (st st' : dfs_state) : Prop := mkDfsPost {
  dp_inv : dfs_inv g st';
  dp_visiting : visiting st' = visiting st;
  dp_mono : forall x, In x (visited st) -> In x (visited st');
  dp_done : forall d, In d ds -> In d (visited st') \/ In d (visiting st);
  dp_first :
    (forall a b, In b (succs g a) -> rank b < rank a) ->
    deps_first g (order st) ->
    (forall d x, In d ds -> In x (visiting st) -> rank d < rank x) ->
    deps_first g (order st') /\ forall d, In d ds -> In d (visited st')
}.

(** ** Example graphs *)

(** The complete directed graph on [ns] (no self-loops). *)
Definition complete_graph (ns : list node) : graph :=
  map (fun n => (n, filter (fun m => negb (String.eqb n m)) ns)) ns.

Definition K6 : graph := complete_graph ["a"; "b"; "c"; "d"; "e"; "f"].

(** The path [A -> B -> C]: [A] depends on [B], [B] depends on [C]. *)
Definition path3 : graph := [("A", ["B"]); ("B", ["C"]); ("C", [])].

(** ** Python numbers *)

(** A Python [float] is an IEEE 754 binary64 number: Rocq's primitive
    [float], with the same rounding of every operation. *)

(** [float(n)] for a non-negative [int] *)
Definition float_of_nat (n : nat) : float :=
  PrimFloat.of_uint63 (Uint63.of_Z (Z.of_nat n)).

(** [math.ceil(x)]: an [int]; raises on NaN and on the infinities. *)
Definition py_ceil (x : float) : option Z :=
  match Prim2SF x with
  | S754_zero _ => Some 0%Z
  | S754_finite s m e =>
      if (0 <=? e)%Z then
        let v := (Z.pos m * 2 ^ e)%Z in Some (if s then (- v)%Z else v)
      else
        let d := (2 ^ (- e))%Z in
        let q := (Z.pos m / d)%Z in
        if s then Some (- q)%Z
        else if (Z.pos m mod d =? 0)%Z then Some q else Some (q + 1)%Z
  | S754_infinity _ => None
  | S754_nan => None
  end.

(** Sequencing a fallible function over a list. *)
Fixpoint mapM {A B : Type} (f : A -> option B) (l : list A) : option (list B) :=
  match l with
  | [] => Some []
  | x :: r => y <- f x ;; ys <- mapM f r ;; Some (y :: ys)
  end.

(** ** Selection: [select_top_percent] *)

Record Metrics : Type := mkMetrics {
  in_degree : Z;
  out_degree : Z;
  betweenness : float;
  pagerank : float;
  score : float
}.

(** The sort key [(-metrics[cid].score, cid)]. *)
Definition rank_key := (float * string)%type.

(** [a < b] on such tuples: the first components are compared with [==],
    and the first pair of components that differ decides. *)
Definition key_lt (a b : rank_key) : bool :=
  if PrimFloat.eqb (fst a) (fst b) then String.ltb (snd a) (snd b)
  else PrimFloat.ltb (fst a) (fst b).

Fixpoint insert_by_key (x : rank_key) (l : list rank_key) : list rank_key :=
  match l with
  | [] => [x]
  | y :: r => if key_lt x y then x :: l else y :: insert_by_key x r
  end.

(** [sorted(..., key=...)]: a stable sort that only uses [<] on the keys.
    Every stable sort gives this list when [<] orders the keys, that is,
    when no score is NaN; with a NaN among the scores the result of
    [sorted] depends on the order of its comparisons, and nothing below
    relies on the order of the list in that case. *)
Definition sorted_by_key (l : list rank_key) : list rank_key :=
  fold_left (fun acc x => insert_by_key x acc) l [].

(** [sorted(ids, key=lambda cid: (-metrics[cid].score, cid))] *)
Definition ranking (metrics : dict Metrics) (ids : list string)
    : option (list string) :=
  keys <- mapM (fun cid => m <- dict_get metrics cid ;;
                           Some (PrimFloat.opp (score m), cid)) ids ;;
  Some (map snd (sorted_by_key keys)).

Definition select_top_percent (metrics : dict Metrics) (top_percent : float)
    : option (list string) :=
  if PrimFloat.leb top_percent 0%float then Some []
  else
    let ids := dict_keys metrics in
    if PrimFloat.leb 100%float top_percent then Some (sorted ids)
    else
      k <- py_ceil (PrimFloat.mul (float_of_nat (List.length ids))
                                  (PrimFloat.div top_percent 100%float)) ;;
      let k := Z.max 1 (Z.min k (Z.of_nat (List.length ids))) in
      ranked <- ranking metrics ids ;;
      Some (firstn (Z.to_nat k) ranked).

(** [ceil(N * p / 100)] in exact arithmetic, for an integral percentage. *)
Definition exact_ceil_percent (n p : Z) : Z := (- ((- (n * p)) / 100))%Z.

(** One hundred components [c0 .. c99], all with score [0.0]. *)
Definition hundred_metrics : dict Metrics :=
  map (fun i => (String "c" (NilEmpty.string_of_uint (Nat.to_uint i)),
                 mkMetrics 0 0 0%float 0%float 0%float))
      (seq 0 100).

(** ** Centrality: [compute_betweenness] *)

(** [l[i] = x] on a list used as an array *)
Fixpoint upd {A : Type} (l : list A) (i : nat) (x : A) : list A :=
  match l, i with
  | [], _ => []
  | _ :: r, 0 => x :: r
  | y :: r, S i' => y :: upd r i' x
  end.

(** [_build_index_graph]: the keys in iteration order, and for each key
    the positions of its successors that are keys. *)
Definition _build_index_graph (out_edges : graph)
    : list string * list (list nat) :=
  let nodes := dict_keys out_edges in
  let idx : dict nat := combine nodes (seq 0 (List.length nodes)) in
  (nodes,
   map (fun it : node * list node =>
          flat_map (fun d => match dict_get idx d with
                             | Some i => [i]
                             | None => []
                             end) (snd it))
       out_edges).

(** The work buffers of [compute_betweenness], reused across sources.
    [bstack] has its top at the head. *)
Record brandes : Type := mkBrandes {
  bq : list nat;
  bstack : list nat;
  bpred : list (list nat);
  bsigma : list float;
  bdist : list Z;
  bdelta : list float;
  btouched : list nat
}.

(** [for w in adjacency[v]: ...] of the breadth-first phase *)
Fixpoint scan_neighbours (v : nat) (dv : Z) (ws : list nat) (b : brandes)
    : brandes :=
  match ws with
  | [] => b
  | w :: rest =>
      let b1 :=
        if (nth w (bdist b) (-1) <? 0)%Z then
          mkBrandes (bq b ++ [w]) (bstack b) (bpred b) (bsigma b)
                    (upd (bdist b) w (dv + 1)%Z) (bdelta b) (btouched b ++ [w])
        else b in
      let b2 :=
        if (nth w (bdist b1) (-1) =? dv + 1)%Z then
          mkBrandes (bq b1) (bstack b1)
                    (upd (bpred b1) w (nth w (bpred b1) [] ++ [v]))
                    (upd (bsigma b1) w
                         (PrimFloat.add (nth w (bsigma b1) 0%float)
                                        (nth v (bsigma b1) 0%float)))
                    (bdist b1) (bdelta b1) (btouched b1)
        else b1 in
      scan_neighbours v dv rest b2
  end.

(** [while q: v = q.popleft(); stack.append(v); ...] *)
Fixpoint bfs (fuel : nat) (adjacency : list (list nat)) (b : brandes)
    : option brandes :=
  match bq b with
  | [] => Some b
  | v :: q' =>
      match fuel with
      | 0 => None
      | S f =>
          let b1 := mkBrandes q' (v :: bstack b) (bpred b) (bsigma b)
                              (bdist b) (bdelta b) (btouched b) in
          bfs f adjacency
              (scan_neighbours v (nth v (bdist b1) (-1)%Z)
                               (nth v adjacency []) b1)
      end
  end.

(** [for v in pred[w]: if sigma[w] != 0: delta[v] += ...] *)
Definition push_back (w : nat) (b : brandes) (v : nat) : brandes :=
  if negb (PrimFloat.eqb (nth w (bsigma b) 0%float) 0%float) then
    mkBrandes (bq b) (bstack b) (bpred b) (bsigma b) (bdist b)
      (upd (bdelta b) v
           (PrimFloat.add (nth v (bdelta b) 0%float)
              (PrimFloat.mul
                 (PrimFloat.div (nth v (bsigma b) 0%float)
                                (nth w (bsigma b) 0%float))
                 (PrimFloat.add 1%float (nth w (bdelta b) 0%float)))))
      (btouched b)
  else b.

(** [while stack: w = stack.pop(); ...; if w != s: cb[w] += delta[w]] *)
Fixpoint accumulate (s : nat) (stk : list nat) (b : brandes) (cb : list float)
    : brandes * list float :=
  match stk with
  | [] => (b, cb)
  | w :: rest =>
      let b1 := fold_left (push_back w) (nth w (bpred b) []) b in
      let cb1 :=
        if negb (Nat.eqb w s) then
          upd cb w (PrimFloat.add (nth w cb 0%float) (nth w (bdelta b1) 0%float))
        else cb in
      accumulate s rest b1 cb1
  end.

(** [for v in touched: dist[v] = -1; sigma[v] = 0.0; delta[v] = 0.0;
    pred[v].clear()] *)
Definition reset_buffers (b : brandes) : brandes :=
  fold_left (fun b v =>
               mkBrandes (bq b) (bstack b) (upd (bpred b) v [])
                         (upd (bsigma b) v 0%float) (upd (bdist b) v (-1)%Z)
                         (upd (bdelta b) v 0%float) (btouched b))
            (btouched b) b.

(** The body of [for s in sources]. *)
Definition from_source (adjacency : list (list nat)) (s : nat)
    (bc : brandes * list float) : option (brandes * list float) :=
  let b := fst bc in
  let b0 := mkBrandes [s] [] (bpred b) (upd (bsigma b) s 1%float)
                      (upd (bdist b) s 0%Z) (bdelta b) [s] in
  b1 <- bfs (S (List.length adjacency)) adjacency b0 ;;
  let r := accumulate s (bstack b1) b1 (snd bc) in
  Some (reset_buffers (mkBrandes (bq (fst r)) [] (bpred (fst r)) (bsigma (fst r))
                                 (bdist (fst r)) (bdelta (fst r))
                                 (btouched (fst r))),
        snd r).

Fixpoint from_sources (adjacency : list (list nat)) (sources : list nat)
    (bc : brandes * list float) : option (brandes * list float) :=
  match sources with
  | [] => Some bc
  | s :: rest => bc1 <- from_source adjacency s bc ;; from_sources adjacency rest bc1
  end.

(** [compute_betweenness]; [sample seed n k] stands for
    [random.Random(seed).sample(range(n), k=k)]. *)
Definition compute_betweenness (sample : Z -> nat -> nat -> list nat)
    (out_edges : graph) (samples : Z) (seed : Z) : option (dict float) :=
  let '(nodes, adjacency) := _build_index_graph out_edges in
  let n := List.length nodes in
  if Nat.eqb n 0 then Some []
  else if (samples <? 0)%Z then Some (map (fun nd => (nd, 0%float)) nodes)
  else
    let '(sources, scale) :=
      if (samples =? 0)%Z || (Z.of_nat n <=? samples)%Z then (seq 0 n, 1%float)
      else
        let src := sample seed n (Z.to_nat samples) in
        (src, PrimFloat.div (float_of_nat n) (float_of_nat (List.length src))) in
    let b0 := mkBrandes [] [] (repeat [] n) (repeat 0%float n)
                        (repeat (-1)%Z n) (repeat 0%float n) [] in
    r <- from_sources adjacency sources (b0, repeat 0%float n) ;;
    Some (combine nodes (map (fun x => PrimFloat.mul x scale) (snd r))).

(** All the orders in which a dict with the given items can iterate. *)
Fixpoint insert_everywhere {A : Type} (x : A) (l : list A) : list (list A) :=
  match l with
  | [] => [[x]]
  | y :: r => (x :: l) :: map (cons y) (insert_everywhere x r)
  end.

Fixpoint orders {A : Type} (l : list A) : list (list A) :=
  match l with
  | [] => [[]]
  | x :: r => flat_map (insert_everywhere x) (orders r)
  end.

(** The claim about the path graph, on one of its representations. *)
Definition path_betweenness_ok (sample : Z -> nat -> nat -> list nat) (seed : Z)
    (g : graph) : Prop :=
  exists bc a b c,
    compute_betweenness sample g 0 seed = Some bc
    /\ dict_get bc "A" = Some a /\ dict_get bc "B" = Some b
    /\ dict_get bc "C" = Some c
    /\ PrimFloat.ltb 0%float b = true
    /\ PrimFloat.eqb a 0%float = true /\ PrimFloat.eqb c 0%float = true.

(** ** Centrality: [compute_pagerank] *)

(** The arithmetic that [compute_pagerank] uses.  The program computes with
    binary64 floats ([float_arith]).  The code is written once over the
    operations it uses, so that what it computes can be stated for binary64
    and what depends on exact arithmetic can be stated under that
    hypothesis; the rationals ([Qc_arith]) show that the hypothesis can be
    met. *)
Class Arith (R : Type) : Type := mkArith {
  a_zero : R;
  a_one : R;
  a_add : R -> R -> R;
  a_sub : R -> R -> R;
  a_mul : R -> R -> R;
  a_div : R -> R -> R;
  a_abs : R -> R;
  a_ltb : R -> R -> bool;
  a_eqb : R -> R -> bool;
  a_of_nat : nat -> R
}.

#[global] Instance float_arith : Arith float :=
  mkArith 0%float 1%float PrimFloat.add PrimFloat.sub PrimFloat.mul
          PrimFloat.div PrimFloat.abs PrimFloat.ltb PrimFloat.eqb float_of_nat.

Definition Qc_of_nat (n : nat) : Qc := Q2Qc (inject_Z (Z.of_nat n)).

Definition Qc_abs (x : Qc) : Qc := Q2Qc (Qabs x).

Definition Qc_ltb (x y : Qc) : bool :=
  match Qccompare x y with Lt => true | _ => false end.

#[global] Instance Qc_arith : Arith Qc :=
  mkArith (Q2Qc 0) (Q2Qc 1) Qcplus Qcminus Qcmult Qcdiv Qc_abs Qc_ltb Qc_eq_bool
          Qc_of_nat.

Section PageRank.
Context {R : Type} {AR : Arith R}.

(** [for dst in dsts: in_edges[dst].append(src)] *)
Fixpoint add_in_edges (src : node) (dsts : list node)
    (in_edges : dict (list node)) : option (dict (list node)) :=
  match dsts with
  | [] => Some in_edges
  | dst :: rest =>
      l <- dict_get in_edges dst ;;
      add_in_edges src rest (dict_set in_edges dst (l ++ [src]))
  end.

(** [for src, dsts in out_edges.items(): ...] *)
Fixpoint build_in_edges (items : graph) (in_edges : dict (list node))
    : option (dict (list node)) :=
  match items with
  | [] => Some in_edges
  | (src, dsts) :: rest =>
      ie <- add_in_edges src dsts in_edges ;; build_in_edges rest ie
  end.

(** [sum(prev[node] for node in nodes if out_degree[node] == 0)],
    accumulated from [acc]. *)
Fixpoint dangling_sum (out_degree : dict nat) (prev : dict R)
    (nodes : list node) (acc : R) : option R :=
  match nodes with
  | [] => Some acc
  | nd :: rest =>
      deg <- dict_get out_degree nd ;;
      if Nat.eqb deg 0 then
        p <- dict_get prev nd ;; dangling_sum out_degree prev rest (a_add acc p)
      else dangling_sum out_degree prev rest acc
  end.

(** [for src in in_edges[node]: deg = out_degree[src];
    if deg > 0: s += prev[src] / deg] *)
Fixpoint incoming_sum (out_degree : dict nat) (prev : dict R)
    (srcs : list node) (s : R) : option R :=
  match srcs with
  | [] => Some s
  | src :: rest =>
      deg <- dict_get out_degree src ;;
      if Nat.ltb 0 deg then
        p <- dict_get prev src ;;
        incoming_sum out_degree prev rest (a_add s (a_div p (a_of_nat deg)))
      else incoming_sum out_degree prev rest s
  end.

(** The new rank of one node: the three updates of [rank[node]]. *)
Definition new_rank (in_edges : dict (list node)) (out_degree : dict nat)
    (damping : R) (n : nat) (prev : dict R) (dangling_share : R) (nd : node)
    : option (node * R) :=
  let base := a_div (a_sub a_one damping) (a_of_nat n) in
  let r1 := if negb (a_eqb dangling_share a_zero) then a_add base dangling_share
            else base in
  srcs <- dict_get in_edges nd ;;
  s <- incoming_sum out_degree prev srcs a_zero ;;
  Some (nd, a_add r1 (a_mul damping s)).

(** One pass of the body of [for _ in range(max_iter)], up to the
    convergence test. *)
Definition pagerank_step (nodes : list node) (in_edges : dict (list node))
    (out_degree : dict nat) (damping : R) (prev : dict R) : option (dict R) :=
  let n := List.length nodes in
  dangling_mass <- dangling_sum out_degree prev nodes a_zero ;;
  let dangling_share := a_div (a_mul damping dangling_mass) (a_of_nat n) in
  mapM (new_rank in_edges out_degree damping n prev dangling_share) nodes.

(** [sum(abs(rank[node] - prev[node]) for node in nodes)] *)
Fixpoint l1_diff (rank prev : dict R) (nodes : list node) (acc : R) : option R :=
  match nodes with
  | [] => Some acc
  | nd :: rest =>
      x <- dict_get rank nd ;;
      y <- dict_get prev nd ;;
      l1_diff rank prev rest (a_add acc (a_abs (a_sub x y)))
  end.

Fixpoint pagerank_loop (iters : nat) (nodes : list node)
    (in_edges : dict (list node)) (out_degree : dict nat) (damping tol : R)
    (rank : dict R) : option (dict R) :=
  match iters with
  | 0 => Some rank
  | S k =>
      rank' <- pagerank_step nodes in_edges out_degree damping rank ;;
      diff <- l1_diff rank' rank nodes a_zero ;;
      if a_ltb diff tol then Some rank'
      else pagerank_loop k nodes in_edges out_degree damping tol rank'
  end.

Definition compute_pagerank (out_edges : graph) (damping : R) (max_iter : Z)
    (tol : R) : option (dict R) :=
  let nodes := dict_keys out_edges in
  let n := List.length nodes in
  if Nat.eqb n 0 then Some []
  else
    let in_edges0 : dict (list node) := map (fun nd => (nd, [])) nodes in
    let out_degree : dict nat :=
      map (fun it : node * list node => (fst it, List.length (snd it))) out_edges in
    in_edges <- build_in_edges out_edges in_edges0 ;;
    let rank0 := map (fun nd => (nd, a_div a_one (a_of_nat n))) nodes in
    pagerank_loop (Z.to_nat max_iter) nodes in_edges out_degree damping tol rank0.

(** [sum(rank.values())] *)
Definition rank_total (rank : dict R) : R :=
  fold_left a_add (map snd rank) a_zero.
End PageRank.

(** [len(out_edges[k])] *)
Definition degree (g : graph) (k : node) : nat := List.length (succs g k).

(** [{node: len(out_edges[node]) for node in nodes}] *)
Definition out_degree_of (g : graph) : dict nat :=
  map (fun it : node * list node => (fst it, List.length (snd it))) g.

(** The nodes without successors, in key order. *)
Definition dangling_nodes (g : graph) : list node :=
  filter (fun k => Nat.eqb (degree g k) 0) (dict_keys g).

(** The nodes that have [nd] among their successors, in key order. *)
Definition sources_of (g : graph) (nd : node) : list node :=
  map fst (filter (fun it : node * list node => set_mem nd (snd it)) g).

(** *** Power iteration, as the documentation describes it

    The description of [compute_pagerank] in words, in the arithmetic of
    the program (every sum is taken from left to right, starting from
    zero).  It is compared with the code above in the section on
    PageRank. *)
Section PowerIteration.
Context {R : Type} {AR : Arith R}.

(** [d[k]], zero where the key is missing. *)
Definition rank_of (d : dict R) (k : node) : R :=
  match dict_get d k with Some v => v | None => a_zero end.

(** Every rank is [1/N] at the start. *)
Definition uniform_ranks (g : graph) : dict R :=
  map (fun nd => (nd, a_div a_one (a_of_nat (List.length (dict_keys g)))))
      (dict_keys g).

(** The rank mass held by the nodes without successors. *)
Definition dangling_mass (g : graph) (prev : dict R) : R :=
  fold_left a_add (map (rank_of prev) (dangling_nodes g)) a_zero.

(** The share of the rank of [src] that each of its successors receives. *)
Definition flow (g : graph) (prev : dict R) (src : node) : R :=
  a_div (rank_of prev src) (a_of_nat (degree g src)).

(** The rank that flows into [nd] along its incoming edges. *)
Definition incoming (g : graph) (prev : dict R) (nd : node) : R :=
  fold_left a_add (map (flow g prev) (sources_of g nd)) a_zero.

(** The share of the dangling mass that every node receives:
    [damping * dangling_mass / n]. *)
Definition dangling_share (g : graph) (damping : R) (prev : dict R) : R :=
  a_div (a_mul damping (dangling_mass g prev))
        (a_of_nat (List.length (dict_keys g))).

(** The rank of [nd] after one iteration: [(1 - d)/N], plus the share of
    the dangling mass (added only when it is not zero), plus [d] times the
    incoming rank. *)
Definition next_rank (g : graph) (damping : R) (prev : dict R) (nd : node) : R :=
  let base := a_div (a_sub a_one damping) (a_of_nat (List.length (dict_keys g))) in
  let share := dangling_share g damping prev in
  a_add (if a_eqb share a_zero then base else a_add base share)
        (a_mul damping (incoming g prev nd)).

Definition next_ranks (g : graph) (damping : R) (prev : dict R) : dict R :=
  map (fun nd => (nd, next_rank g damping prev nd)) (dict_keys g).

(** The ranks after [k] iterations. *)
Fixpoint ranks_after (g : graph) (damping : R) (k : nat) : dict R :=
  match k with
  | 0 => uniform_ranks g
  | S j => next_ranks g damping (ranks_after g damping j)
  end.

(** The L1 distance of two rank dicts over the nodes of [g]. *)
Definition l1_distance (g : graph) (rank prev : dict R) : R :=
  fold_left a_add
            (map (fun nd => a_abs (a_sub (rank_of rank nd) (rank_of prev nd)))
                 (dict_keys g))
            a_zero.

(** Iteration [j + 1] moved the ranks by less than [tol]. *)
Definition within_tolerance (g : graph) (damping tol : R) (j : nat) : bool :=
  a_ltb (l1_distance g (ranks_after g damping (S j)) (ranks_after g damping j))
        tol.

(** [compute_pagerank] stops after [k] iterations: no earlier iteration was
    within the tolerance, and either the cap is reached or iteration [k]
    was within the tolerance. *)
Definition stops_after (g : graph) (damping tol : R) (max_iter : Z) (k : nat)
    : Prop :=
  k <= Z.to_nat max_iter
  /\ (forall j, S j < k -> within_tolerance g damping tol j = false)
  /\ (k = Z.to_nat max_iter
      \/ exists j, k = S j /\ within_tolerance g damping tol j = true).

(** The arithmetic is exact: the operations obey the laws of a field in
    which the natural numbers are embedded without collapsing.  The
    rationals are such an arithmetic; binary64 is not (its addition is not
    associative). *)
Record exact_arith : Prop := mkExact {
  ea_add_0_l : forall x : R, a_add a_zero x = x;
  ea_add_comm : forall x y : R, a_add x y = a_add y x;
  ea_add_assoc : forall x y z : R, a_add x (a_add y z) = a_add (a_add x y) z;
  ea_mul_1_l : forall x : R, a_mul a_one x = x;
  ea_mul_comm : forall x y : R, a_mul x y = a_mul y x;
  ea_mul_assoc : forall x y z : R, a_mul x (a_mul y z) = a_mul (a_mul x y) z;
  ea_distr_l : forall x y z : R,
      a_mul (a_add x y) z = a_add (a_mul x z) (a_mul y z);
  ea_sub_def : forall x y : R, a_sub x y = a_add x (a_sub a_zero y);
  ea_opp_def : forall x : R, a_add x (a_sub a_zero x) = a_zero;
  ea_div_mul : forall x y : R, y <> a_zero -> a_mul y (a_div x y) = x;
  ea_of_nat_0 : a_of_nat 0 = a_zero;
  ea_of_nat_S : forall n, a_of_nat (S n) = a_add (a_of_nat n) a_one;
  ea_of_nat_neq : forall n, a_of_nat (S n) <> a_zero;
  ea_eqb_eq : forall x y : R, a_eqb x y = true -> x = y
}.
End PowerIteration.
Arguments exact_arith {R} AR.

(** The triangle with a chord [A -> B, A -> C, B -> C, C -> A]. *)
Definition chord_triangle : graph :=
  [("A", ["B"; "C"]); ("B", ["C"]); ("C", ["A"])].

(** Decision procedures for the shape of a graph. *)
Fixpoint nodupb (l : list string) : bool :=
  match l with
  | [] => true
  | x :: r => negb (set_mem x r) && nodupb r
  end.

Definition wf_graphb (g : graph) : bool :=
  nodupb (dict_keys g) && forallb (fun it : node * list node => nodupb (snd it)) g.

Definition closedb (g : graph) : bool :=
  forallb (fun it : node * list node =>
             forallb (fun d => set_mem d (dict_keys g)) (snd it)) g.

(** The diamond [A -> B, A -> C, B -> D, C -> D]; [D] is dangling. *)
Definition diamond : graph :=
  [("A", ["B"; "C"]); ("B", ["D"]); ("C", ["D"]); ("D", [])].

(** ** Scoring: [_min_max_normalize] and [compute_metrics] *)

(** [min(values)] and [max(values)] of a non-empty sequence of floats *)
Definition float_min (x : float) (l : list float) : float :=
  fold_left (fun m v => if PrimFloat.ltb v m then v else m) l x.

Definition float_max (x : float) (l : list float) : float :=
  fold_left (fun m v => if PrimFloat.ltb m v then v else m) l x.

(** [math.isclose(a, b)] with the default tolerances
    [rel_tol = 1e-09], [abs_tol = 0.0]. *)
Definition isclose (a b : float) : bool :=
  if PrimFloat.eqb a b then true
  else if PrimFloat.is_infinity a || PrimFloat.is_infinity b then false
  else
    let diff := PrimFloat.abs (PrimFloat.sub b a) in
    PrimFloat.leb diff (PrimFloat.abs (PrimFloat.mul 1e-09%float b))
    || PrimFloat.leb diff (PrimFloat.abs (PrimFloat.mul 1e-09%float a))
    || PrimFloat.leb diff 0%float.

Definition _min_max_normalize (values : dict float) : dict float :=
  match map snd values with
  | [] => []
  | v0 :: vs =>
      let min_v := float_min v0 vs in
      let max_v := float_max v0 vs in
      if isclose min_v max_v then map (fun it => (fst it, 0%float)) values
      else
        let span := PrimFloat.sub max_v min_v in
        map (fun it => (fst it, PrimFloat.div (PrimFloat.sub (snd it) min_v) span))
            values
  end.

(** [d.get(k, 0.0)] *)
Definition get_or_zero (d : dict float) (k : string) : float :=
  match dict_get d k with Some v => v | None => 0%float end.

(** The keyword arguments of [compute_metrics]. *)
Record weights : Type := mkWeights {
  w_alpha : float;
  w_beta : float;
  w_gamma : float;
  w_betweenness_samples : Z;
  w_betweenness_seed : Z;
  w_pagerank_damping : float;
  w_pagerank_iters : Z
}.

Definition compute_metrics (sample : Z -> nat -> nat -> list nat)
    (out_edges in_edges : graph) (w : weights) : option (dict Metrics) :=
  let nodes := dict_keys out_edges in
  in_deg <- mapM (fun n => s <- dict_get in_edges n ;;
                           Some (n, float_of_nat (List.length s))) nodes ;;
  out_deg <- mapM (fun n => s <- dict_get out_edges n ;;
                            Some (n, float_of_nat (List.length s))) nodes ;;
  pr <- compute_pagerank out_edges (w_pagerank_damping w) (w_pagerank_iters w)
                         1e-08%float ;;
  bc <- compute_betweenness sample out_edges (w_betweenness_samples w)
                            (w_betweenness_seed w) ;;
  let in_n := _min_max_normalize in_deg in
  let out_n := _min_max_normalize out_deg in
  let bc_n := _min_max_normalize bc in
  let pr_n := _min_max_normalize pr in
  mapM (fun nd =>
          i <- dict_get in_edges nd ;;
          o <- dict_get out_edges nd ;;
          let sc :=
            PrimFloat.add
              (PrimFloat.add
                 (PrimFloat.add (PrimFloat.mul (w_alpha w) (get_or_zero in_n nd))
                                (PrimFloat.mul (w_beta w) (get_or_zero out_n nd)))
                 (PrimFloat.mul (w_gamma w) (get_or_zero bc_n nd)))
              (get_or_zero pr_n nd) in
          Some (nd, mkMetrics (Z.of_nat (List.length i)) (Z.of_nat (List.length o))
                              (get_or_zero bc nd) (get_or_zero pr nd) sc))
       nodes.

(** ** The filtering entry point: [main] *)

(** A component record, as far as this program reads it. *)
Record component : Type := mkComponent {
  depends_on : list string;
  component_type : string;
  file_path : string
}.

(** [build_graph_from_components]: the dependencies that are components
    themselves. *)
Definition build_graph_from_components (components : dict component) : graph :=
  fold_left
    (fun (gr : graph) (it : string * component) =>
       let gr1 := if dict_mem gr (fst it) then gr else dict_set gr (fst it) [] in
       fold_left (fun (gr2 : graph) dep_id =>
                    if dict_mem components dep_id
                    then dict_set gr2 (fst it) (set_add dep_id (succs gr2 (fst it)))
                    else gr2)
                 (depends_on (snd it)) gr1)
    components [].

(** [set_order l] is the order in which Python iterates the set built by
    [set(l)].  It depends on the hashes of the elements, which vary from
    one run of the interpreter to the next, so it is a parameter of the
    functions that iterate such a set; all that is known of it is that it
    lists the distinct elements of [l]. *)
Definition set_iteration (set_order : list string -> list string) : Prop :=
  forall l, Permutation (set_order l) (set_of l).

(** [build_in_out_edges_from_components]: both dicts are filled by
    iterating the set [nodes = set(components.keys())], and every
    [out_edges[node]] is the set [set(graph.get(node, set()))]. *)
Definition build_in_out_edges_from_components
    (set_order : list string -> list string) (components : dict component)
    : graph * graph :=
  let gr := build_graph_from_components components in
  let nodes := set_order (dict_keys components) in
  let out_edges : graph := map (fun nd => (nd, set_order (succs gr nd))) nodes in
  let in_edges0 : graph := map (fun nd => (nd, [])) nodes in
  (out_edges,
   fold_left
     (fun (ie : graph) (it : node * list node) =>
        fold_left (fun (ie2 : graph) dst =>
                     if dict_mem ie2 dst
                     then dict_set ie2 dst (set_add (fst it) (succs ie2 dst))
                     else ie2)
                  (snd it) ie)
     out_edges in_edges0).

(** The parsed command line. *)
Record arguments : Type := mkArguments {
  arg_input : string;
  arg_output : string;
  arg_top_percent : float;
  arg_weights : weights;
  arg_print_top_percent : float;
  arg_print_top : option Z
}.

(** The result of [parser.parse_args(argv)]: the parsed command line, or
    the status with which argparse leaves the program after printing its
    own message ([2] after a usage error, [0] after the help text). *)
Inductive parsed : Type :=
| Namespace (args : arguments)
| ArgparseExit (status : Z).

(** What [main] does to the outside world: the write of the output file,
    the summary lines up to the PageRank line, the line with the number of
    rows to print, and the heading with the rows. *)
Inductive effect : Type :=
| WriteFile (path : string) (content : dict component)
| PrintSummary (total kept : nat)
| PrintCount (shown : nat)
| PrintRows (ids : list string).

(** How [main] ends: a return value, [SystemExit] with a message (the
    message goes to stderr and the exit status is 1), the [SystemExit] of
    argparse with its status, or another exception. *)
Inductive outcome : Type :=
| Returned (code : Z)
| SystemExit (message : string)
| ParserExit (status : Z)
| Raised.

(** [write_filtered_components]: the selected components that exist, in
    the order of selection. *)
Definition write_filtered_components (components : dict component)
    (selected_ids : list string) (out_path : string) : effect :=
  WriteFile out_path
    (fold_left (fun (out : dict component) cid =>
                  match dict_get components cid with
                  | Some c => dict_set out cid c
                  | None => out
                  end) selected_ids []).

(** Truth value of a float and of an optional int. *)
Definition float_true (x : float) : bool := negb (PrimFloat.eqb x 0%float).

Definition positive_percent (x : float) : bool :=
  float_true x && PrimFloat.ltb 0%float x.

Definition positive_count (k : option Z) : bool :=
  match k with Some z => negb (z =? 0)%Z && (0 <? z)%Z | None => false end.

Definition usage_error : string :=
  "Use only one of --print-top or --print-top-percent".

(** The part of [main] after the mutual-exclusion check. *)
Definition print_report (args : arguments) (metrics : dict Metrics)
    (selected : list string) : list effect * outcome :=
  match ranking metrics (dict_keys metrics) with
  | None => ([], Raised)
  | Some ranked =>
      if positive_percent (arg_print_top_percent args)
         || positive_count (arg_print_top args) then
        let total := List.length ranked in
        if positive_percent (arg_print_top_percent args) then
          let requested := arg_print_top_percent args in
          let effective :=
            if PrimFloat.ltb (arg_top_percent args) requested
            then arg_top_percent args else requested in
          match py_ceil (PrimFloat.mul (float_of_nat total)
                                       (PrimFloat.div effective 100%float)) with
          | None => ([PrintSummary total (List.length selected)], Raised)
          | Some k0 =>
              let cap := match selected with
                         | [] => total
                         | _ => List.length selected
                         end in
              let k := Z.to_nat (Z.max 1 (Z.min k0 (Z.of_nat cap))) in
              let printable := filter (fun cid => set_mem cid selected) ranked in
              ([PrintSummary total (List.length selected); PrintCount k;
                PrintRows (firstn k printable)], Returned 0)
          end
        else
          let k := Z.to_nat (Z.min (match arg_print_top args with
                                    | Some z => z
                                    | None => 0
                                    end) (Z.of_nat total)) in
          ([PrintSummary total (List.length selected); PrintCount k;
            PrintRows (firstn k ranked)], Returned 0)
      else ([], Returned 0)
  end.

(** The sampling of betweenness adapts to the size of the graph. *)
Definition adapt_samples (w : weights) (n : nat) : weights :=
  let bet_samples :=
    if (0 <? w_betweenness_samples w)%Z
    then Z.min (w_betweenness_samples w) (Z.of_nat n)
    else w_betweenness_samples w in
  mkWeights (w_alpha w) (w_beta w) (w_gamma w) bet_samples
            (w_betweenness_seed w) (w_pagerank_damping w) (w_pagerank_iters w).

(** [main].  What it depends on from outside is a parameter: [parse_args]
    stands for the argparse parser that [main] builds and runs on [argv]
    (the arguments of the process when [main] is called without one);
    [load] for [load_dependency_graph], whose module is not part of the
    sources at hand; [sample] for the seeded sampler; and [set_order] is
    the iteration order of the sets built on the way. *)
Definition main (parse_args : list string -> parsed)
    (load : string -> option (dict component))
    (sample : Z -> nat -> nat -> list nat)
    (set_order : list string -> list string) (argv : list string)
    : list effect * outcome :=
  match parse_args argv with
  | ArgparseExit status => ([], ParserExit status)
  | Namespace args =>
  match load (arg_input args) with
  | None => ([], Raised)
  | Some components =>
      let '(out_edges, in_edges) :=
        build_in_out_edges_from_components set_order components in
      let n := List.length out_edges in
      if Nat.eqb n 0 then
        ([write_filtered_components components [] (arg_output args)], Returned 0)
      else
        match compute_metrics sample out_edges in_edges
                              (adapt_samples (arg_weights args) n) with
        | None => ([], Raised)
        | Some metrics =>
            match select_top_percent metrics (arg_top_percent args) with
            | None => ([], Raised)
            | Some selected =>
                let written :=
                  write_filtered_components components selected (arg_output args) in
                if match arg_print_top args with Some _ => true | None => false end
                   && positive_percent (arg_print_top_percent args)
                then ([written], SystemExit usage_error)
                else
                  let r := print_report args metrics selected in
                  (written :: fst r, snd r)
            end
        end
  end
  end.

(** Three components [A -> B -> C], and command lines over them. *)
Definition three_components : dict component :=
  [("A", mkComponent ["B"] "function" "a.py");
   ("B", mkComponent ["C"] "function" "b.py");
   ("C", mkComponent [] "function" "c.py")].

Definition default_weights : weights :=
  mkWeights 1%float 1%float 1%float 200 0 0.85%float 50.

Definition command_line (print_top_percent : float) (print_top : option Z)
    : arguments :=
  mkArguments "graph.json" "out.json" 100%float default_weights
              print_top_percent print_top.

Definition load_of (components : dict component) : string -> option (dict component) :=
  fun _ => Some components.

(** A parser that has returned [args]. *)
Definition parsed_as (args : arguments) : list string -> parsed :=
  fun _ => Namespace args.

(** A command line with both print options. *)
Definition both_flags : list string :=
  ["--input"; "graph.json"; "--output"; "out.json";
   "--print-top"; "2"; "--print-top-percent"; "50"].

(** Two iteration orders: the order of insertion, and its reverse. *)
Definition insertion_order : list string -> list string :=
  fun l => set_of l.

Definition reverse_order : list string -> list string :=
  fun l => rev (set_of l).

(** A sampler that returns every index. *)
Definition all_sources : Z -> nat -> nat -> list nat :=
  fun _ n _ => seq 0 n.

(** ** Objects and references: [_normalize_graph] on the heap *)

(** The two kinds of object [_normalize_graph] touches: a set of strings,
    and a dict whose values are references to sets. *)
Inductive pyobj : Type :=
| PySet (elems : list string)
| PyDict (items : dict nat).

(** The heap is a list of objects; a reference is a position in it. *)
Definition heap := list pyobj.

Definition alloc (h : heap) (o : pyobj) : heap * nat :=
  (h ++ [o], List.length h).

Fixpoint heap_write (h : heap) (a : nat) (o : pyobj) : heap :=
  match h, a with
  | [], _ => []
  | _ :: r, O => o :: r
  | x :: r, S a' => x :: heap_write r a' o
  end.

Definition read_set (h : heap) (a : nat) : option (list string) :=
  match nth_error h a with Some (PySet s) => Some s | _ => None end.

Definition read_dict (h : heap) (a : nat) : option (dict nat) :=
  match nth_error h a with Some (PyDict d) => Some d | _ => None end.

(** The graph that the dict at [a] stands for. *)
Definition view (h : heap) (a : nat) : option graph :=
  items <- read_dict h a ;;
  mapM (fun it : string * nat => s <- read_set h (snd it) ;; Some (fst it, s)) items.

(** [d[k] = <the object at ref>], for the dict at address [d] *)
Definition setitem (h : heap) (d : nat) (k : string) (ref : nat) : option heap :=
  items <- read_dict h d ;;
  Some (heap_write h d (PyDict (dict_set items k ref))).

(** The comprehension: every value is copied into a new set. *)
Fixpoint copy_items (items : dict nat) (h : heap) (d : nat) : option heap :=
  match items with
  | [] => Some h
  | (k, ref) :: r =>
      deps <- read_set h ref ;;
      let (h1, a) := alloc h (PySet (set_of deps)) in
      h2 <- setitem h1 d k a ;;
      copy_items r h2 d
  end.

Fixpoint add_missing_in (deps : list string) (h : heap) (d : nat) : option heap :=
  match deps with
  | [] => Some h
  | dep :: r =>
      items <- read_dict h d ;;
      if dict_mem items dep then add_missing_in r h d
      else
        let (h1, a) := alloc h (PySet []) in
        h2 <- setitem h1 d dep a ;;
        add_missing_in r h2 d
  end.

Fixpoint normalize_loop_in (snapshot : dict nat) (h : heap) (d : nat) : option heap :=
  match snapshot with
  | [] => Some h
  | (_, ref) :: r =>
      deps <- read_set h ref ;;
      h1 <- add_missing_in deps h d ;;
      normalize_loop_in r h1 d
  end.

(** [_normalize_graph] called on the reference [g]: the new heap and the
    reference it returns. *)
Definition normalize_in (h : heap) (g : nat) : option (heap * nat) :=
  items <- read_dict h g ;;
  let (h0, d) := alloc h (PyDict []) in
  h1 <- copy_items items h0 d ;;
  snapshot <- read_dict h1 d ;;
  h2 <- normalize_loop_in snapshot h1 d ;;
  Some (h2, d).

(** The dict [d] stands for the graph [g]: same keys in the same order,
    and each reference leads to a set among the objects [f] allocated from
    address [base] on. *)
Definition stands_for (base : nat) (f : heap) (d : dict nat) (g : graph) : Prop :=
  Forall2 (fun (it : string * nat) (gi : node * list node) =>
             fst it = fst gi
             /\ exists j, snd it = base + j /\ nth_error f j = Some (PySet (snd gi)))
          d g.

(** What [view] reads of the input: keys, and references to sets. *)
Definition input_items (h : heap) (items : dict nat) (g : graph) : Prop :=
  Forall2 (fun (it : string * nat) (gi : node * list node) =>
             fst it = fst gi /\ read_set h (snd it) = Some (snd gi))
          items g.

(** A heap where two keys share one set object. *)
Definition shared_heap : heap :=
  [PySet ["b"; "c"]; PySet []; PyDict [("a", 0); ("b", 1); ("d", 0)]].

(** ** Further notions used in the statements *)

(** What a call [strongconnect(n)] does when no cycle is around: it pops
    [n] again, reports nothing, and leaves [n] with its own index as
    low-link. *)
Definition quiet_call (g : graph) (n : node) (st st' : tarjan) : Prop :=
  call_post g n st st'
  /\ stack st' = stack st
  /\ result st' = result st
  /\ dict_get (lowlink st') n = Some (index_counter st).

(** The dependencies of a component that are components themselves. *)
Definition internal_deps (components : dict component) (c : component)
    : list string :=
  set_of (filter (dict_mem components) (depends_on c)).

(** Two components that also depend on modules outside the repository. *)
Definition external_components : dict component :=
  [("A", mkComponent ["B"; "os.path"; "B"] "function" "a.py");
   ("B", mkComponent ["A"; "json"] "class" "b.py")].

(** An effect that is a line on standard output. *)
Definition is_print (e : effect) : Prop :=
  match e with
  | WriteFile _ _ => False
  | _ => True
  end.

(** ** Bounds kept by the buffers of [compute_betweenness] *)

(** The number of nodes without a distance yet. *)
Definition unvisited (dist : list Z) : nat :=
  List.length (filter (fun z => (z <? 0)%Z) dist).

(** The buffers have one cell per node, no distance is below [-1], and the
    adjacency lists hold positions of nodes. *)
Record buffers_ok (n : nat) (b : brandes) : Prop := mkBuffersOk {
  bo_dist : List.length (bdist b) = n;
  bo_low : Forall (fun z => (-1 <= z)%Z) (bdist b)
}.

Definition adjacency_ok (n : nat) (adjacency : list (list nat)) : Prop :=
  List.length adjacency = n
  /\ Forall (Forall (fun i => i < n)) adjacency.

(** ** What the reported groups look like *)

(** The groups reported so far: no node occurs twice in them, their
    members are popped nodes of the graph, and every popped node with a
    self-loop is among them. *)
Record groups_ok (g : graph) (st : tarjan) : Prop := mkGroupsOk {
  go_nodup : NoDup (List.concat (result st));
  go_finished : forall x, In x (List.concat (result st)) -> finished st x;
  go_keys : forall x, In x (List.concat (result st)) -> In x (dict_keys g);
  go_stack : forall x, In x (stack st) -> In x (dict_keys g);
  go_selfloop : forall x, finished st x -> In x (succs g x) ->
                          In x (List.concat (result st))
}.

(** The low-link of [n] inside its successor loop: its own index, or the
    index of a node that was on the stack before [n]. *)
Definition low_ok (st0 : tarjan) (n : node) (st : tarjan) : Prop :=
  exists a, dict_get (lowlink st) n = Some a
            /\ (a = index_counter st0 \/ low_witness st0 a).

(** A call either pops what it pushed, or leaves [n] on the stack with the
    index of a node below it as low-link. *)
Definition call_outcome (n : node) (st st' : tarjan) : Prop :=
  (stack st' = stack st /\ dict_get (lowlink st') n = Some (index_counter st))
  \/ outcome_low n st st'.

(** The log of the resolver is exact: the working copy has the edges of
    [g0] that are not logged, and every logged edge is an edge of [g0],
    logged once. *)
Record log_ok (g0 g : graph) (removed : list edge) : Prop := mkLogOk {
  lo_edges : forall u v, In v (succs g u) <->
                         In v (succs g0 u) /\ ~ In (u, v) removed;
  lo_removed : forall u v, In (u, v) removed -> In v (succs g0 u);
  lo_nodup : NoDup removed
}.

(** The two graphs have the same nodes and the same edges. *)
Definition same_graph (g1 g2 : graph) : Prop :=
  (forall x, In x (dict_keys g1) <-> In x (dict_keys g2))
  /\ (forall n x, In x (succs g1 n) <-> In x (succs g2 n)).

(** A dict of sets with the items of [diamond] in another order. *)
Definition diamond_shuffled : graph :=
  [("D", []); ("C", ["D"]); ("A", ["C"; "B"]); ("B", ["D"])].

(** ** Paths *)

(** [z] can be reached from [x] along edges of [g]. *)
Inductive reach (g : graph) : node -> node -> Prop :=
| reach_refl : forall x, reach g x x
| reach_step : forall x y z, In y (succs g x) -> reach g y z -> reach g x z.

(** [x] lies on a cycle of [g]. *)
Definition on_cycle (g : graph) (x : node) : Prop :=
  exists y, In y (succs g x) /\ reach g y x.

(** Any two members of [c] reach each other. *)
Definition mutual (g : graph) (c : list node) : Prop :=
  forall x y, In x c -> In y c -> reach g x y.

(** What holds of paths inside the successor loop of [strongconnect(n)]:
    every node on the stack reaches [n]; [n] reaches the nodes pushed
    since it was entered; its low-link is the index of a stack node that it
    reaches; and the groups reported so far are mutually reachable. *)
Record reach_frame (g : graph) (st0 : tarjan) (n : node) (st : tarjan)
    : Prop := mkReachFrame {
  rf_down : forall x, In x (stack st) -> reach g x n;
  rf_up : forall x, In x (stack st) -> ~ In x (stack st0) -> reach g n x;
  rf_low : exists a z,
      dict_get (lowlink st) n = Some a /\ a <= index_counter st0
      /\ In z (stack st) /\ dict_get (index st) z = Some a /\ reach g n z;
  rf_result : Forall (mutual g) (result st)
}.

(** The same for a finished call. *)
Record reach_post (g : graph) (n : node) (st st' : tarjan) : Prop := mkReachPost {
  rp_up : forall x, In x (stack st') -> ~ In x (stack st) -> reach g n x;
  rp_down : forall x, In x (stack st') -> ~ In x (stack st) ->
                      exists z, In z (stack st) /\ reach g x z;
  rp_low : (stack st' = stack st
            /\ dict_get (lowlink st') n = Some (index_counter st))
           \/ (exists b z, dict_get (lowlink st') n = Some b
                           /\ In z (stack st)
                           /\ dict_get (index st') z = Some b
                           /\ reach g n z);
  rp_result : Forall (mutual g) (result st')
}.

(** * Properties *)

Unset Implicit Arguments.

(** ** Containers *)

Lemma set_mem_In x s : set_mem x s = true <-> In x s.
Proof.
  unfold set_mem. rewrite existsb_exists. split.
  - intros [y [Hy He]]. apply String.eqb_eq in He. now subst.
  - intros H. exists x. split; [assumption | apply String.eqb_refl].
Qed.

Lemma set_mem_false x s : set_mem x s = false <-> ~ In x s.
Proof.
  rewrite <- set_mem_In. destruct (set_mem x s); split; congruence.
Qed.

Lemma set_add_In x y s : In y (set_add x s) <-> y = x \/ In y s.
Proof.
  unfold set_add. destruct (set_mem x s) eqn:E.
  - apply set_mem_In in E. split; [now right | intros [->|H]; assumption].
  - rewrite in_app_iff. simpl. intuition.
Qed.

Lemma set_add_NoDup x s : NoDup s -> NoDup (set_add x s).
Proof.
  unfold set_add. intros H. destruct (set_mem x s) eqn:E; [assumption|].
  apply set_mem_false in E. apply NoDup_app; try assumption.
  - constructor; [intros [] | constructor].
  - intros a Ha [<- | []]. contradiction.
Qed.

Lemma set_add_fresh x s : ~ In x s -> set_add x s = s ++ [x].
Proof.
  intros H. unfold set_add. apply set_mem_false in H. now rewrite H.
Qed.

Lemma set_remove_In x y s : In y (set_remove x s) <-> In y s /\ y <> x.
Proof.
  unfold set_remove. rewrite filter_In. rewrite negb_true_iff, String.eqb_neq.
  intuition.
Qed.

Lemma set_remove_NoDup x s : NoDup s -> NoDup (set_remove x s).
Proof. apply NoDup_filter. Qed.

Lemma set_remove_absent x s : ~ In x s -> set_remove x s = s.
Proof.
  intros H. unfold set_remove. induction s as [|y s IH]; [reflexivity|].
  simpl. destruct (String.eqb_spec x y) as [->|Hn].
  - exfalso. apply H. now left.
  - simpl. f_equal. apply IH. intros Hi. apply H. now right.
Qed.

Lemma set_remove_add x s : ~ In x s -> set_remove x (set_add x s) = s.
Proof.
  intros H. rewrite set_add_fresh by assumption. unfold set_remove.
  rewrite filter_app. simpl. rewrite String.eqb_refl. simpl.
  rewrite app_nil_r. now apply set_remove_absent.
Qed.

Lemma set_of_acc xs : forall acc,
  (forall x, In x (fold_left (fun s x => set_add x s) xs acc) <-> In x acc \/ In x xs)
  /\ (NoDup acc -> NoDup (fold_left (fun s x => set_add x s) xs acc)).
Proof.
  induction xs as [|a xs IH]; intros acc; simpl.
  - split; [intuition | auto].
  - destruct (IH (set_add a acc)) as [H1 H2]. split.
    + intros x. rewrite H1, set_add_In. intuition.
    + intros H. apply H2. now apply set_add_NoDup.
Qed.

Lemma set_of_In x xs : In x (set_of xs) <-> In x xs.
Proof. unfold set_of. rewrite (proj1 (set_of_acc xs [])). simpl. intuition. Qed.

Lemma set_of_NoDup xs : NoDup (set_of xs).
Proof. apply (proj2 (set_of_acc xs [])). constructor. Qed.

Lemma set_of_id_acc xs : forall acc,
  NoDup (acc ++ xs) -> fold_left (fun s x => set_add x s) xs acc = acc ++ xs.
Proof.
  induction xs as [|a xs IH]; intros acc H; simpl.
  - now rewrite app_nil_r.
  - assert (Ha : ~ In a acc).
    { apply NoDup_remove_2 in H. intros Hi. apply H. apply in_or_app. now left. }
    rewrite set_add_fresh by assumption.
    rewrite IH; rewrite <- app_assoc; simpl; [reflexivity | assumption].
Qed.

Lemma set_of_id xs : NoDup xs -> set_of xs = xs.
Proof. intros H. unfold set_of. now rewrite set_of_id_acc. Qed.

Lemma set_mem_set_of x xs : set_mem x (set_of xs) = set_mem x xs.
Proof.
  destruct (set_mem x xs) eqn:E.
  - apply set_mem_In. apply set_of_In. now apply set_mem_In.
  - apply set_mem_false. rewrite set_of_In. now apply set_mem_false.
Qed.

(** [sorted] returns the ascending arrangement of its argument. *)

Lemma insert_sorted_perm x l : Permutation (insert_sorted x l) (x :: l).
Proof.
  induction l as [|y l IH]; simpl; [reflexivity|].
  destruct (String.leb x y); [reflexivity|].
  rewrite IH. apply perm_swap.
Qed.

Lemma sorted_perm l : Permutation (sorted l) l.
Proof.
  induction l as [|x l IH]; simpl; [constructor|].
  rewrite insert_sorted_perm. now constructor.
Qed.

Lemma sorted_In x l : In x (sorted l) <-> In x l.
Proof.
  split; apply Permutation_in; [apply sorted_perm | symmetry; apply sorted_perm].
Qed.

Lemma insert_sorted_In x y l : In y (insert_sorted x l) <-> y = x \/ In y l.
Proof.
  split.
  - intros H. apply (Permutation_in _ (insert_sorted_perm x l)) in H.
    destruct H; auto.
  - intros H. apply (Permutation_in _ (Permutation_sym (insert_sorted_perm x l))).
    destruct H; [left; auto | now right].
Qed.

Lemma sorted_NoDup l : NoDup l -> NoDup (sorted l).
Proof.
  intros H. eapply Permutation_NoDup; [symmetry; apply sorted_perm | assumption].
Qed.


Lemma leb_false_le a b : String.leb a b = false -> str_le b a.
Proof.
  intros H. destruct (String.leb_total a b) as [H1|H1]; [congruence | exact H1].
Qed.

Lemma insert_sorted_Sorted x l :
  Sorted str_le l -> Sorted str_le (insert_sorted x l).
Proof.
  induction l as [|y l IH]; intros H; simpl.
  - repeat constructor.
  - destruct (String.leb x y) eqn:E.
    + constructor; [assumption | constructor; exact E].
    + inversion H; subst. constructor; [now apply IH|].
      destruct l as [|z l]; simpl.
      * constructor. now apply leb_false_le.
      * destruct (String.leb x z); constructor.
        -- now apply leb_false_le.
        -- now inversion H3.
Qed.

Lemma sorted_Sorted l : Sorted str_le (sorted l).
Proof.
  induction l; simpl; [constructor | now apply insert_sorted_Sorted].
Qed.

(** Dictionaries *)

Section DictFacts.
Variable V : Type.
Implicit Types (d : dict V) (k : string) (v : V).

Lemma dict_get_In d k v : dict_get d k = Some v -> In (k, v) d.
Proof.
  induction d as [|[k' v'] d IH]; simpl; [discriminate|].
  destruct (String.eqb_spec k' k) as [->|Hn].
  - intros [= ->]. now left.
  - intros H. right. now apply IH.
Qed.

Lemma dict_mem_keys d k : dict_mem d k = true <-> In k (dict_keys d).
Proof.
  unfold dict_mem. induction d as [|[k' v'] d IH]; simpl.
  - split; [discriminate | intros []].
  - destruct (String.eqb_spec k' k) as [->|Hn].
    + split; auto.
    + rewrite IH. split; [now right | intros [H|H]; [contradiction | assumption]].
Qed.

Lemma dict_mem_false d k : dict_mem d k = false <-> ~ In k (dict_keys d).
Proof.
  rewrite <- dict_mem_keys. destruct (dict_mem d k); split; congruence.
Qed.

Lemma dict_get_None d k : dict_get d k = None <-> ~ In k (dict_keys d).
Proof.
  rewrite <- dict_mem_false. unfold dict_mem.
  destruct (dict_get d k); split; congruence.
Qed.

Lemma In_dict_get d k v :
  NoDup (dict_keys d) -> In (k, v) d -> dict_get d k = Some v.
Proof.
  induction d as [|[k' v'] d IH]; simpl; [intros _ []|].
  intros Hnd [H|H].
  - inversion H; subst. now rewrite String.eqb_refl.
  - inversion Hnd; subst. destruct (String.eqb_spec k' k) as [->|Hn].
    + exfalso. apply H2. change k with (fst (k, v)). now apply in_map.
    + now apply IH.
Qed.

Lemma dict_get_set d k k' v :
  dict_get (dict_set d k v) k' =
  if String.eqb k k' then Some v else dict_get d k'.
Proof.
  induction d as [|[k0 v0] d IH]; simpl.
  - reflexivity.
  - destruct (String.eqb_spec k0 k) as [->|Hn]; simpl.
    + destruct (String.eqb_spec k k'); reflexivity.
    + destruct (String.eqb_spec k0 k') as [->|Hn'].
      * destruct (String.eqb_spec k k'); [congruence | reflexivity].
      * apply IH.
Qed.

Lemma dict_get_set_same d k v : dict_get (dict_set d k v) k = Some v.
Proof. now rewrite dict_get_set, String.eqb_refl. Qed.

Lemma dict_get_set_other d k k' v :
  k <> k' -> dict_get (dict_set d k v) k' = dict_get d k'.
Proof.
  intros H. rewrite dict_get_set. now destruct (String.eqb_spec k k').
Qed.

Lemma dict_mem_set d k k' v :
  dict_mem (dict_set d k v) k' = String.eqb k k' || dict_mem d k'.
Proof.
  unfold dict_mem. rewrite dict_get_set. now destruct (String.eqb k k').
Qed.

Lemma dict_keys_set_old d k v :
  In k (dict_keys d) -> dict_keys (dict_set d k v) = dict_keys d.
Proof.
  induction d as [|[k0 v0] d IH]; simpl; [intros []|].
  destruct (String.eqb_spec k0 k) as [->|Hn]; simpl; [reflexivity|].
  intros [H|H]; [contradiction|]. f_equal. now apply IH.
Qed.

Lemma dict_set_new d k v :
  ~ In k (dict_keys d) -> dict_set d k v = d ++ [(k, v)].
Proof.
  induction d as [|[k0 v0] d IH]; simpl; [reflexivity|].
  intros H. destruct (String.eqb_spec k0 k) as [->|Hn].
  - exfalso. apply H. now left.
  - f_equal. apply IH. intros Hi. apply H. now right.
Qed.

Lemma dict_keys_set_In d k k' v :
  In k' (dict_keys (dict_set d k v)) <-> k' = k \/ In k' (dict_keys d).
Proof.
  rewrite <- !dict_mem_keys, dict_mem_set, orb_true_iff, String.eqb_eq.
  intuition.
Qed.

Lemma dict_set_NoDup d k v :
  NoDup (dict_keys d) -> NoDup (dict_keys (dict_set d k v)).
Proof.
  intros H. destruct (in_dec string_dec k (dict_keys d)) as [Hi|Hi].
  - now rewrite dict_keys_set_old.
  - rewrite dict_set_new by assumption. unfold dict_keys.
    rewrite map_app. simpl. apply NoDup_app; auto.
    + constructor; [intros [] | constructor].
    + intros a Ha [<-|[]]. contradiction.
Qed.

Lemma dict_set_In d k v k' v' :
  In (k', v') (dict_set d k v) -> (k' = k /\ v' = v) \/ In (k', v') d.
Proof.
  induction d as [|[k0 v0] d IH]; simpl.
  - intros [[= <- <-]|[]]. auto.
  - destruct (String.eqb_spec k0 k) as [->|Hn]; simpl.
    + intros [[= <- <-]|H]; auto.
    + intros [H|H]; [auto|]. destruct (IH H); auto.
Qed.

Lemma dict_set_In_other d k v k' v' :
  k' <> k -> In (k', v') d -> In (k', v') (dict_set d k v).
Proof.
  intros Hn. induction d as [|[k0 v0] d IH]; simpl; [intros []|].
  destruct (String.eqb_spec k0 k) as [->|Hn0]; simpl.
  - intros [[= -> ->]|H]; [contradiction | now right].
  - intros [H|H]; [now left | right; now apply IH].
Qed.
End DictFacts.

(** ** The graph model: [_normalize_graph] *)


Lemma succs_In_key (g : graph) n d : In d (succs g n) -> In n (dict_keys g).
Proof.
  unfold succs. destruct (dict_get g n) eqn:E; [|intros []].
  intros _. apply dict_mem_keys. unfold dict_mem. now rewrite E.
Qed.

Lemma copy_graph_acc (g : graph) : forall acc : graph,
  NoDup (dict_keys acc) -> (forall k ds, In (k, ds) acc -> NoDup ds) ->
  wf_graph (fold_left (fun d (it : node * list node) =>
                         dict_set d (fst it) (set_of (snd it))) g acc).
Proof.
  induction g as [|[k ds] g IH]; intros acc H1 H2; simpl.
  - split; assumption.
  - apply IH.
    + now apply dict_set_NoDup.
    + intros k' ds' Hi. apply dict_set_In in Hi. destruct Hi as [[_ ->]|Hi].
      * apply set_of_NoDup.
      * eapply H2; eassumption.
Qed.

Lemma copy_graph_wf g : wf_graph (copy_graph g).
Proof. apply copy_graph_acc; [constructor | intros ? ? []]. Qed.

Lemma copy_graph_id_acc (g : graph) : forall acc : graph,
  NoDup (dict_keys (acc ++ g)) -> (forall k ds, In (k, ds) g -> NoDup ds) ->
  fold_left (fun d (it : node * list node) =>
               dict_set d (fst it) (set_of (snd it))) g acc = acc ++ g.
Proof.
  induction g as [|[k ds] g IH]; intros acc H1 H2; simpl.
  - now rewrite app_nil_r.
  - assert (Hk : ~ In k (dict_keys acc)).
    { unfold dict_keys in *. rewrite map_app in H1. simpl in H1.
      apply NoDup_remove_2 in H1. intros Hi. apply H1. apply in_or_app. now left. }
    rewrite dict_set_new by assumption.
    rewrite set_of_id by (apply (H2 k); now left).
    rewrite IH.
    + now rewrite <- app_assoc.
    + rewrite <- app_assoc. simpl. assumption.
    + intros k' ds' Hi. apply (H2 k'). now right.
Qed.

Lemma copy_graph_id g : wf_graph g -> copy_graph g = g.
Proof. intros [H1 H2]. unfold copy_graph. now rewrite copy_graph_id_acc. Qed.

Lemma dict_keys_app (V : Type) (a b : dict V) :
  dict_keys (a ++ b) = dict_keys a ++ dict_keys b.
Proof. apply map_app. Qed.

Lemma dict_keys_empty_items ks : dict_keys (empty_items ks) = ks.
Proof.
  unfold dict_keys, empty_items. rewrite map_map. simpl. apply map_id.
Qed.

Lemma add_missing_spec deps : forall d : graph,
  exists news,
    add_missing d deps = d ++ empty_items news
    /\ (forall x, In x deps -> In x (dict_keys (add_missing d deps)))
    /\ (forall x, In x news -> In x deps)
    /\ (NoDup (dict_keys d) -> NoDup (dict_keys (add_missing d deps))).
Proof.
  unfold add_missing.
  induction deps as [|a deps IH]; intros d; simpl.
  - exists []. simpl. rewrite app_nil_r. repeat split; auto. intros x [].
  - destruct (dict_mem d a) eqn:E.
    + destruct (IH d) as [news [H1 [H2 [H3 H4]]]]. exists news.
      repeat split; auto.
      intros x [<-|Hx]; [|now apply H2].
      rewrite H1, dict_keys_app. apply in_or_app. left.
      now apply dict_mem_keys.
    + apply dict_mem_false in E.
      destruct (IH (dict_set d a [])) as [news [H1 [H2 [H3 H4]]]].
      exists (a :: news). rewrite H1.
      rewrite dict_set_new by assumption. rewrite <- app_assoc. simpl.
      repeat split.
      * intros x [<-|Hx].
        -- rewrite dict_keys_app. apply in_or_app. right. now left.
        -- rewrite H1 in H2. rewrite dict_set_new in H2 by assumption.
           rewrite <- app_assoc in H2. now apply H2.
      * intros x [<-|Hx]; [now left | right; now apply H3].
      * intros Hnd. rewrite H1 in H4. rewrite dict_set_new in H4 by assumption.
        rewrite <- app_assoc in H4. apply H4.
        rewrite dict_keys_app. simpl. apply NoDup_app; auto.
        -- constructor; [intros [] | constructor].
        -- intros y Hy [<-|[]]. contradiction.
Qed.


Lemma normalize_loop_spec (items : graph) : forall d : graph,
  exists news,
    fill_missing items d = d ++ empty_items news
    /\ (forall k ds x, In (k, ds) items -> In x ds ->
        In x (dict_keys (fill_missing items d)))
    /\ (NoDup (dict_keys d) -> NoDup (dict_keys (fill_missing items d))).
Proof.
  unfold fill_missing.
  induction items as [|[k ds] items IH]; intros d; simpl.
  - exists []. simpl. rewrite app_nil_r. split; [reflexivity|]. split.
    + intros ? ? ? [].
    + auto.
  - destruct (add_missing_spec ds d) as [n1 [A1 [A2 [A3 A4]]]].
    destruct (IH (add_missing d ds)) as [n2 [B1 [B2 B4]]].
    exists (n1 ++ n2). split; [|split].
    + rewrite B1, A1, <- app_assoc. unfold empty_items. now rewrite map_app.
    + intros k' ds' x [Hi|Hi] Hx.
      * inversion Hi; subst. rewrite B1, dict_keys_app. apply in_or_app. left.
        now apply A2.
      * eapply B2; eassumption.
    + intros Hnd. apply B4. now apply A4.
Qed.

Lemma normalize_spec g :
  exists news,
    _normalize_graph g = copy_graph g ++ empty_items news
    /\ wf_graph (_normalize_graph g) /\ closed (_normalize_graph g).
Proof.
  change (_normalize_graph g) with (fill_missing (copy_graph g) (copy_graph g)).
  destruct (normalize_loop_spec (copy_graph g) (copy_graph g))
    as [news [H1 [H2 H4]]].
  exists news. split; [exact H1|].
  destruct (copy_graph_wf g) as [W1 W2]. split; [split|].
  - now apply H4.
  - intros k ds Hi. rewrite H1 in Hi. apply in_app_or in Hi.
    destruct Hi as [Hi|Hi]; [eapply W2; eassumption|].
    unfold empty_items in Hi. apply in_map_iff in Hi.
    destruct Hi as [x [[= <- <-] _]]. constructor.
  - intros k ds d Hi Hd.
    assert (Hi' := Hi). rewrite H1 in Hi'. apply in_app_or in Hi'.
    destruct Hi' as [Hi'|Hi'].
    + eapply H2; eassumption.
    + unfold empty_items in Hi'. apply in_map_iff in Hi'.
      destruct Hi' as [x [[= <- <-] _]]. destruct Hd.
Qed.

Lemma normalize_wf g : wf_graph (_normalize_graph g).
Proof. destruct (normalize_spec g) as [? [? [? ?]]]. assumption. Qed.

Lemma normalize_closed g : closed (_normalize_graph g).
Proof. destruct (normalize_spec g) as [? [? [? ?]]]. assumption. Qed.

Lemma add_missing_id (d : graph) deps :
  (forall x, In x deps -> In x (dict_keys d)) -> add_missing d deps = d.
Proof.
  unfold add_missing. induction deps as [|a deps IH]; intros H; simpl; [reflexivity|].
  assert (E : dict_mem d a = true) by (apply dict_mem_keys, H; now left).
  rewrite E. apply IH. intros x Hx. apply H. now right.
Qed.

Lemma normalize_loop_id (items d : graph) :
  (forall k ds x, In (k, ds) items -> In x ds -> In x (dict_keys d)) ->
  fold_left (fun d (it : node * list node) => add_missing d (snd it)) items d = d.
Proof.
  induction items as [|[k ds] items IH]; intros H; simpl; [reflexivity|].
  rewrite add_missing_id.
  - apply IH. intros k' ds' x Hi. apply (H k'). now right.
  - intros x Hx. apply (H k ds); [now left | assumption].
Qed.

(** A closed dict of sets is a fixed point of [_normalize_graph]. *)
Lemma normalize_id g : wf_graph g -> closed g -> _normalize_graph g = g.
Proof.
  intros Hw Hc. unfold _normalize_graph. rewrite copy_graph_id by assumption.
  apply normalize_loop_id. exact Hc.
Qed.

(** [normalize(normalize(G)) == normalize(G)] for every input mapping, the
    empty one included. *)
Lemma normalize_idempotent_pure g :
  _normalize_graph (_normalize_graph g) = _normalize_graph g.
Proof. apply normalize_id; [apply normalize_wf | apply normalize_closed]. Qed.

(** ** [_normalize_graph] on the heap *)

Lemma heap_write_at (h f : heap) (x o : pyobj) :
  heap_write (h ++ x :: f) (List.length h) o = h ++ o :: f.
Proof. induction h as [|y h IH]; simpl; [reflexivity|]. now rewrite IH. Qed.

Lemma nth_error_at (h f : heap) (x : pyobj) :
  nth_error (h ++ x :: f) (List.length h) = Some x.
Proof. induction h as [|y h IH]; simpl; auto. Qed.

Lemma nth_error_fresh (h f : heap) (x : pyobj) j :
  nth_error (h ++ x :: f) (S (List.length h) + j) = nth_error f j.
Proof. induction h as [|y h IH]; simpl; auto. Qed.

Lemma read_dict_at (h f : heap) d :
  read_dict (h ++ PyDict d :: f) (List.length h) = Some d.
Proof. unfold read_dict. now rewrite nth_error_at. Qed.

Lemma read_set_old (h f : heap) a s :
  read_set h a = Some s -> read_set (h ++ f) a = Some s.
Proof.
  unfold read_set. intros H.
  assert (L : a < List.length h).
  { apply nth_error_Some. destruct (nth_error h a); [discriminate|discriminate H]. }
  now rewrite nth_error_app1.
Qed.

Lemma setitem_at (h f : heap) d k r :
  setitem (h ++ PyDict d :: f) (List.length h) k r
  = Some (h ++ PyDict (dict_set d k r) :: f).
Proof. unfold setitem. rewrite read_dict_at. simpl. now rewrite heap_write_at. Qed.

Lemma alloc_at (h f : heap) (x o : pyobj) :
  alloc (h ++ x :: f) o
  = (h ++ x :: (f ++ [o]), S (List.length h) + List.length f).
Proof.
  unfold alloc. rewrite <- app_assoc. simpl. f_equal.
  rewrite length_app. simpl. lia.
Qed.

Lemma stands_for_mono base f x d g :
  stands_for base f d g -> stands_for base (f ++ x) d g.
Proof.
  unfold stands_for. intros H. induction H as [|it gi d g [H1 [j [H2 H3]]] H IH];
    constructor; auto.
  split; [assumption|]. exists j. split; [assumption|].
  rewrite nth_error_app1; [assumption|]. apply nth_error_Some. congruence.
Qed.

Lemma stands_for_set base f d g k j s :
  stands_for base f d g -> nth_error f j = Some (PySet s) ->
  stands_for base f (dict_set d k (base + j)) (dict_set g k s).
Proof.
  unfold stands_for. intros H Hj.
  induction H as [|[k1 r1] [k2 s2] d g [H1 H2] H IH]; simpl.
  - constructor; [|constructor]. split; [reflexivity|]. now exists j.
  - simpl in H1. subst k2. destruct (String.eqb k1 k).
    + constructor; [|assumption]. split; [reflexivity|]. now exists j.
    + constructor; [|assumption]. split; [reflexivity|assumption].
Qed.

Lemma stands_for_mem base f d g k :
  stands_for base f d g -> dict_mem d k = dict_mem g k.
Proof.
  unfold stands_for, dict_mem. intros H.
  induction H as [|[k1 r1] [k2 s2] d g [H1 H2] H IH]; simpl; [reflexivity|].
  simpl in H1. subst k2. destruct (String.eqb k1 k); [reflexivity|assumption].
Qed.

Lemma stands_for_mapM (hp : heap) base f d g :
  (forall j, nth_error hp (base + j) = nth_error f j) ->
  stands_for base f d g ->
  mapM (fun it : string * nat => s <- read_set hp (snd it) ;; Some (fst it, s)) d
  = Some g.
Proof.
  intros Hf H.
  induction H as [|[k1 r1] [k2 s2] d g [H1 [j [H2 H3]]] H IH]; [reflexivity|].
  simpl in H1, H2, H3. subst k2 r1. cbn [mapM snd fst].
  unfold read_set at 1. rewrite Hf, H3. cbn [bind]. rewrite IH. reflexivity.
Qed.

Lemma stands_for_view (h f : heap) d g :
  stands_for (S (List.length h)) f d g ->
  view (h ++ PyDict d :: f) (List.length h) = Some g.
Proof.
  intros H. unfold view. rewrite read_dict_at. cbn [bind].
  apply stands_for_mapM with (base := S (List.length h)) (f := f); [|assumption].
  intros j. apply nth_error_fresh.
Qed.

Lemma view_input_items h a g :
  view h a = Some g ->
  exists items, read_dict h a = Some items /\ input_items h items g.
Proof.
  unfold view. destruct (read_dict h a) as [items|]; [|discriminate].
  cbn [bind]. intros H. exists items. split; [reflexivity|].
  revert g H. induction items as [|[k r] items IH]; intros g H.
  - injection H as <-. constructor.
  - cbn [mapM snd fst] in H. destruct (read_set h r) as [s|] eqn:E; [|discriminate].
    cbn [bind] in H.
    destruct (mapM _ items) as [g1|] eqn:E1; [|discriminate].
    cbn [bind] in H. injection H as <-. constructor; [now split|]. now apply IH.
Qed.

Lemma copy_items_spec (h : heap) items gitems :
  input_items h items gitems ->
  forall d f acc,
    stands_for (S (List.length h)) f d acc ->
    exists d' f',
      copy_items items (h ++ PyDict d :: f) (List.length h)
      = Some (h ++ PyDict d' :: f')
      /\ stands_for (S (List.length h)) f' d'
           (fold_left (fun (a : graph) (it : node * list node) =>
                         dict_set a (fst it) (set_of (snd it))) gitems acc).
Proof.
  intros H. induction H as [|[k r] [k2 s] items gitems [H1 H2] H IH]; intros d f acc R.
  - exists d, f. split; [reflexivity|assumption].
  - simpl in H1, H2. subst k2. cbn [copy_items fold_left fst snd].
    rewrite (read_set_old h (PyDict d :: f) r s H2). cbn [bind].
    rewrite alloc_at, setitem_at. cbn [bind].
    apply IH. apply stands_for_set.
    + now apply stands_for_mono.
    + rewrite nth_error_app2 by lia. now rewrite Nat.sub_diag.
Qed.

Lemma add_missing_in_spec (h : heap) deps :
  forall d f acc,
    stands_for (S (List.length h)) f d acc ->
    exists d' x,
      add_missing_in deps (h ++ PyDict d :: f) (List.length h)
      = Some (h ++ PyDict d' :: f ++ x)
      /\ stands_for (S (List.length h)) (f ++ x) d' (add_missing acc deps).
Proof.
  induction deps as [|dep deps IH]; intros d f acc R.
  - exists d, []. rewrite app_nil_r. split; [reflexivity|assumption].
  - cbn [add_missing_in]. rewrite read_dict_at. cbn [bind].
    unfold add_missing. cbn [fold_left].
    rewrite (stands_for_mem _ _ _ _ dep R).
    destruct (dict_mem acc dep).
    + apply IH. assumption.
    + rewrite alloc_at, setitem_at. cbn [bind].
      destruct (IH (dict_set d dep (S (List.length h) + List.length f))
                   (f ++ [PySet []]) (dict_set acc dep [])) as [d' [x [E1 E2]]].
      * apply stands_for_set; [now apply stands_for_mono|].
        rewrite nth_error_app2 by lia. now rewrite Nat.sub_diag.
      * exists d', (PySet [] :: x). rewrite <- app_assoc in E1, E2. split; assumption.
Qed.

Lemma normalize_loop_in_spec (h : heap) snapshot :
  forall gsnap d f acc,
    stands_for (S (List.length h)) f snapshot gsnap ->
    stands_for (S (List.length h)) f d acc ->
    exists d' f',
      normalize_loop_in snapshot (h ++ PyDict d :: f) (List.length h)
      = Some (h ++ PyDict d' :: f')
      /\ stands_for (S (List.length h)) f' d'
           (fold_left (fun (a : graph) (it : node * list node) =>
                         add_missing a (snd it)) gsnap acc).
Proof.
  induction snapshot as [|[k r] snapshot IH]; intros gsnap d f acc S R.
  - inversion S; subst. exists d, f. split; [reflexivity|assumption].
  - inversion S as [|it gi snap' g' [H1 [j [H2 H3]]] S']; subst.
    destruct gi as [k2 s]. cbn [fst snd] in H1, H2, H3. subst k2 r.
    cbn [normalize_loop_in fold_left snd].
    unfold read_set. rewrite nth_error_fresh, H3. cbn [bind].
    destruct (add_missing_in_spec h s d f acc R) as [d1 [x [E1 E2]]].
    rewrite E1. cbn [bind]. apply IH; [|assumption].
    now apply stands_for_mono.
Qed.

(** [_normalize_graph] on the heap: it returns; the objects that existed
    before the call are unchanged, the returned reference is a new one, and
    the dict behind it stands for [_normalize_graph] of the graph behind the
    argument. *)
Lemma normalize_in_spec (h : heap) (a : nat) (g : graph) :
  view h a = Some g ->
  exists fresh,
    normalize_in h a = Some (h ++ fresh, List.length h)
    /\ view (h ++ fresh) (List.length h) = Some (_normalize_graph g).
Proof.
  intros V. destruct (view_input_items h a g V) as [items [E I]].
  unfold normalize_in. rewrite E. cbn [bind]. unfold alloc.
  destruct (copy_items_spec h items g I [] [] []) as [d1 [f1 [C1 C2]]];
    [constructor|].
  rewrite C1. cbn [bind]. rewrite read_dict_at. cbn [bind].
  destruct (normalize_loop_in_spec h d1 (copy_graph g) d1 f1 (copy_graph g) C2 C2)
    as [d2 [f2 [L1 L2]]].
  rewrite L1. cbn [bind]. exists (PyDict d2 :: f2). split; [reflexivity|].
  now apply stands_for_view.
Qed.

Lemma view_old (h fresh : heap) a g :
  view h a = Some g -> view (h ++ fresh) a = Some g.
Proof.
  intros V. destruct (view_input_items h a g V) as [items [E I]].
  unfold view. unfold read_dict in *.
  assert (L : a < List.length h).
  { apply nth_error_Some. destruct (nth_error h a); discriminate. }
  rewrite nth_error_app1 by assumption.
  destruct (nth_error h a) as [[s|d]|]; try discriminate.
  injection E as ->. cbn [bind]. clear V L.
  induction I as [|[k r] [k2 s] items g [H1 H2] I IH]; [reflexivity|].
  simpl in H1, H2. subst k2. cbn [mapM snd fst].
  rewrite (read_set_old h fresh r s H2). cbn [bind].
  rewrite IH. reflexivity.
Qed.

(** C4: for every mapping [G], held behind any reference [a] of any heap,
    [_normalize_graph] returns a new dict that stands for
    [_normalize_graph G]; no object that existed before the call changes,
    so the argument still stands for [G]; and normalising the result again
    gives a dict with the same contents. The empty mapping is no
    exception. *)
Theorem normalize_idempotent_leaves_input (h : heap) (a : nat) (G : graph) :
  view h a = Some G ->
  exists fresh1 fresh2,
    normalize_in h a = Some (h ++ fresh1, List.length h)
    /\ normalize_in (h ++ fresh1) (List.length h)
       = Some ((h ++ fresh1) ++ fresh2, List.length (h ++ fresh1))
    /\ view (h ++ fresh1) a = Some G
    /\ view (h ++ fresh1) (List.length h) = Some (_normalize_graph G)
    /\ view ((h ++ fresh1) ++ fresh2) (List.length (h ++ fresh1))
       = Some (_normalize_graph G)
    /\ view ((h ++ fresh1) ++ fresh2) (List.length h) = Some (_normalize_graph G)
    /\ _normalize_graph (_normalize_graph G) = _normalize_graph G.
Proof.
  intros V.
  destruct (normalize_in_spec h a G V) as [f1 [N1 V1]].
  destruct (normalize_in_spec (h ++ f1) (List.length h) _ V1) as [f2 [N2 V2]].
  rewrite normalize_idempotent_pure in V2.
  exists f1, f2. split; [exact N1|]. split; [exact N2|].
  split; [now apply view_old|]. split; [exact V1|]. split; [exact V2|].
  split; [now apply view_old|]. apply normalize_idempotent_pure.
Qed.

Lemma normalize_idempotent_leaves_input_witness :
  view shared_heap 2 = Some [("a", ["b"; "c"]); ("b", []); ("d", ["b"; "c"])]
  /\ exists fresh1 fresh2,
       normalize_in shared_heap 2 = Some (shared_heap ++ fresh1, 3)
       /\ normalize_in (shared_heap ++ fresh1) 3
          = Some ((shared_heap ++ fresh1) ++ fresh2,
                  List.length (shared_heap ++ fresh1))
       /\ view (shared_heap ++ fresh1) 2
          = Some [("a", ["b"; "c"]); ("b", []); ("d", ["b"; "c"])].
Proof.
  split; [reflexivity|].
  destruct (normalize_idempotent_leaves_input shared_heap 2
              [("a", ["b"; "c"]); ("b", []); ("d", ["b"; "c"])] eq_refl)
    as [f1 [f2 [N1 [N2 [V0 _]]]]].
  exists f1, f2. split; [exact N1|]. split; [exact N2|exact V0].
Defined.

(** The empty mapping: the call returns a new empty dict. *)
Lemma normalize_in_empty :
  normalize_in [PyDict []] 0 = Some ([PyDict []; PyDict []], 1).
Proof. reflexivity. Qed.

(** ** Cycle detection: representation invariant and termination *)

Lemma indexed_get st x : indexed st x <-> exists i, dict_get (index st) x = Some i.
Proof.
  unfold indexed. rewrite <- dict_mem_keys. unfold dict_mem.
  destruct (dict_get (index st) x); split; intros H; eauto; try discriminate.
  destruct H; discriminate.
Qed.

Lemma indexed_mem st x : dict_mem (index st) x = true <-> indexed st x.
Proof. apply dict_mem_keys. Qed.

Lemma grows_refl g st : grows g st st.
Proof.
  constructor; auto.
  exists []. rewrite app_nil_r. split; [reflexivity | constructor].
Qed.

Lemma grows_trans g a b c : grows g a b -> grows g b c -> grows g a c.
Proof.
  intros [A1 A2 A3 [ma [A4 A5]]] [B1 B2 B3 [mb [B4 B5]]]. constructor.
  - auto.
  - intros x i H. destruct (B2 x i H) as [H1|H1].
    + apply A2 in H1. assumption.
    + right. lia.
  - lia.
  - exists (ma ++ mb). rewrite B4, A4, app_assoc. split; [reflexivity|].
    apply Forall_app. split; assumption.
Qed.

Lemma grows_indexed g st st' x : grows g st st' -> indexed st x -> indexed st' x.
Proof.
  intros G H. apply indexed_get in H. destruct H as [i H].
  apply indexed_get. exists i. now apply (grows_index G).
Qed.

Lemma unindexed_le g st st' : grows g st st' -> unindexed g st' <= unindexed g st.
Proof.
  intros G. unfold unindexed. induction (dict_keys g) as [|k ks IH]; simpl; [lia|].
  destruct (dict_mem (index st) k) eqn:E; simpl.
  - apply indexed_mem in E. apply (grows_indexed _ _ _ _ G) in E. apply indexed_mem in E.
    rewrite E. simpl. assumption.
  - destruct (dict_mem (index st') k); simpl; lia.
Qed.

Lemma unindexed_lt g st st' n :
  grows g st st' -> ~ indexed st n -> indexed st' n -> In n (dict_keys g) ->
  unindexed g st' < unindexed g st.
Proof.
  intros G H1 H2 Hk. unfold unindexed.
  induction (dict_keys g) as [|k ks IH]; simpl; [destruct Hk|].
  assert (Hle : List.length (filter (fun k => negb (dict_mem (index st') k)) ks)
                <= List.length (filter (fun k => negb (dict_mem (index st) k)) ks)).
  { clear IH Hk. induction ks as [|a ks IH]; simpl; [lia|].
    destruct (dict_mem (index st) a) eqn:E; simpl.
    - apply indexed_mem in E. apply (grows_indexed _ _ _ _ G) in E. apply indexed_mem in E.
      rewrite E. simpl. assumption.
    - destruct (dict_mem (index st') a); simpl; lia. }
  destruct Hk as [->|Hk].
  - apply indexed_mem in H2. rewrite H2. simpl.
    destruct (dict_mem (index st) n) eqn:E.
    + apply indexed_mem in E. contradiction.
    + simpl. lia.
  - specialize (IH Hk).
    destruct (dict_mem (index st) k) eqn:E; simpl.
    + apply indexed_mem in E. apply (grows_indexed _ _ _ _ G) in E. apply indexed_mem in E.
      rewrite E. simpl. assumption.
    + destruct (dict_mem (index st') k); simpl; lia.
Qed.

Lemma enter_inv st n :
  tarjan_inv st -> ~ indexed st n -> tarjan_inv (enter n st).
Proof.
  intros I Hn. assert (Hs : ~ In n (stack st)).
  { intros H. apply Hn. now apply (inv_stack_indexed I). }
  constructor; simpl.
  - intros x. rewrite set_add_In, (inv_onstack I). intuition.
  - intros x [<-|H]; unfold indexed; simpl; apply dict_keys_set_In; [now left|].
    right. now apply (inv_stack_indexed I).
  - intros x. unfold indexed. simpl. rewrite !dict_keys_set_In.
    rewrite (inv_lowlink I). reflexivity.
  - intros x i. rewrite dict_get_set.
    destruct (String.eqb_spec n x) as [->|Hd].
    + intros [= <-]. lia.
    + intros H. apply (inv_counter I) in H. lia.
  - constructor; [assumption | apply (inv_nodup I)].
Qed.

Lemma enter_grows g st n : ~ indexed st n -> grows g st (enter n st).
Proof.
  intros Hn. constructor; simpl.
  - intros x i H. rewrite dict_get_set.
    destruct (String.eqb_spec n x) as [->|Hd]; [|assumption].
    exfalso. apply Hn. apply indexed_get. eauto.
  - intros x i. rewrite dict_get_set.
    destruct (String.eqb_spec n x) as [->|Hd].
    + intros [= <-]. now right.
    + now left.
  - lia.
  - exists []. rewrite app_nil_r. split; [reflexivity | constructor].
Qed.

Lemma enter_index st n : dict_get (index (enter n st)) n = Some (index_counter st).
Proof. simpl. apply dict_get_set_same. Qed.

Lemma set_lowlink_inv st n v :
  tarjan_inv st -> indexed st n -> tarjan_inv (set_lowlink st n v).
Proof.
  intros I Hn. constructor; simpl; try apply I.
  intros x. rewrite dict_keys_set_In, (inv_lowlink I).
  unfold indexed in *. simpl. split; [intros [->|H]; assumption | now right].
Qed.

Lemma set_lowlink_grows g st st' n v :
  grows g st st' -> grows g st (set_lowlink st' n v).
Proof. intros [A B C D]. constructor; simpl; assumption. Qed.

Lemma pop_scc_spec n rest : forall ext ons scc,
  ~ In n ext -> NoDup (ext ++ n :: rest) ->
  (forall x, In x (ext ++ n :: rest) -> In x ons) ->
  exists ons',
    pop_scc n (ext ++ n :: rest) ons scc = Some (scc ++ ext ++ [n], rest, ons')
    /\ forall x, In x ons' <-> (In x ons /\ ~ In x ext /\ x <> n).
Proof.
  induction ext as [|e ext IH]; intros ons scc Hn Hnd Hin; simpl.
  - assert (E : set_mem n ons = true) by (apply set_mem_In, Hin; now left).
    rewrite E, String.eqb_refl. eexists. split; [reflexivity|].
    intros x. rewrite set_remove_In. intuition.
  - assert (E : set_mem e ons = true) by (apply set_mem_In, Hin; now left).
    rewrite E. destruct (String.eqb_spec e n) as [->|Hd].
    + exfalso. apply Hn. now left.
    + inversion Hnd; subst.
      destruct (IH (set_remove e ons) (scc ++ [e])) as [ons' [P1 P2]].
      * intros H. apply Hn. now right.
      * assumption.
      * intros x Hx. apply set_remove_In. split.
        -- apply Hin. now right.
        -- intros ->. contradiction.
      * exists ons'. rewrite P1. rewrite <- app_assoc. simpl. split; [reflexivity|].
        intros x. rewrite P2, set_remove_In. intuition.
Qed.

Section StrongConnect.
Variable g : graph.
Hypothesis g_closed : closed g.

Lemma succs_keys n w : In w (succs g n) -> In w (dict_keys g).
Proof.
  unfold succs. destruct (dict_get g n) eqn:E; [|intros []].
  intros H. apply dict_get_In in E. eapply g_closed; eassumption.
Qed.

Lemma lowlink_present st x :
  tarjan_inv st -> indexed st x -> exists a, dict_get (lowlink st) x = Some a.
Proof.
  intros I H. apply (inv_lowlink I) in H. apply dict_mem_keys in H.
  unfold dict_mem in H. destruct (dict_get (lowlink st) x); eauto; discriminate.
Qed.

Lemma frame_indexed_n st0 n st : frame g st0 n st -> indexed st n.
Proof.
  intros F. apply (grows_indexed g (enter n st0) st n (fr_grows F)).
  apply indexed_get. eexists. apply enter_index.
Qed.

Lemma frame_grows0 st0 n st : frame g st0 n st -> grows g st0 st.
Proof.
  intros F. apply grows_trans with (b := enter n st0).
  - apply enter_grows. exact (fr_fresh F).
  - exact (fr_grows F).
Qed.

Lemma frame_enter st0 n :
  tarjan_inv st0 -> ~ indexed st0 n -> frame g st0 n (enter n st0).
Proof.
  intros I Hn. constructor.
  - assumption.
  - now apply enter_inv.
  - apply grows_refl.
  - exists []. simpl. split; [reflexivity|]. split; [intros x [] | now left].
  - intros x Hx. simpl. apply dict_get_set_other. intros ->. contradiction.
Qed.

Lemma frame_set_lowlink st0 n st v :
  frame g st0 n st -> frame g st0 n (set_lowlink st n v).
Proof.
  intros F. assert (Hn := frame_indexed_n _ _ _ F).
  destruct F as [Hn0 I G E L]. constructor.
  - assumption.
  - now apply set_lowlink_inv.
  - now apply set_lowlink_grows.
  - exact E.
  - intros x Hx. simpl. rewrite dict_get_set_other; [now apply L|].
    intros ->. contradiction.
Qed.

(** A nested call on a successor keeps the caller's frame. *)
Lemma frame_call st0 n st w st1 :
  frame g st0 n st -> In w (succs g n) -> call_post g w st st1 ->
  frame g st0 n st1.
Proof.
  intros F Hw [I1 G1 Hiw Hidx [extw [S1 [S2 S3]]] L1].
  pose proof (frame_grows0 _ _ _ F) as G0.
  destruct F as [Hn0 I G [ext [E1 [E2 E3]]] L].
  constructor.
  - assumption.
  - assumption.
  - eapply grows_trans; eassumption.
  - exists (extw ++ ext). split; [|split].
    + rewrite S1, E1. now rewrite app_assoc.
    + intros x Hx. apply in_app_or in Hx. destruct Hx as [Hx|Hx].
      * intros Hi. apply (S3 x Hx). exact (grows_indexed g _ _ x G Hi).
      * now apply E2.
    + destruct S2 as [->|S2].
      * simpl. assumption.
      * right. exists w. split; [apply in_or_app; now left | assumption].
  - intros x Hx. rewrite L1; [now apply L|].
    exact (grows_indexed g _ _ x G0 Hx).
Qed.

Section Loop.
Variable f : nat.
Hypothesis IH : forall w st,
  tarjan_inv st -> ~ indexed st w -> In w (dict_keys g) ->
  unindexed g st < f ->
  exists st', strongconnect f g w st = Some st' /\ call_post g w st st'.

Variables (st0 : tarjan) (n : node).
Hypothesis Hfuel : unindexed g (enter n st0) < f.

Lemma loop_total : forall ws st,
  (forall w, In w ws -> In w (succs g n)) ->
  frame g st0 n st ->
  exists st', for_successors (strongconnect f g) n ws st = Some st'
              /\ frame g st0 n st' /\ grows g st st'.
Proof.
  induction ws as [|w ws IHws]; intros st Hws F; simpl.
  - exists st. split; [reflexivity|]. split; [assumption | apply grows_refl].
  - assert (Hw : In w (succs g n)) by (apply Hws; now left).
    assert (Hws' : forall w', In w' ws -> In w' (succs g n))
      by (intros w' H'; apply Hws; now right).
    assert (Hn := frame_indexed_n _ _ _ F).
    destruct (dict_mem (index st) w) eqn:Ew; simpl.
    + destruct (set_mem w (onstack st)) eqn:Eo; [|now apply IHws].
      destruct (lowlink_present st n (fr_inv F) Hn) as [a Ha].
      rewrite Ha. simpl.
      apply indexed_mem, indexed_get in Ew. destruct Ew as [b Hb].
      rewrite Hb. simpl.
      destruct (IHws (set_lowlink st n (Nat.min a b)) Hws')
        as [st' [R [F' G']]]; [now apply frame_set_lowlink|].
      exists st'. split; [assumption|]. split; [assumption|].
      destruct G' as [A B C D]. constructor; assumption.
    + apply dict_mem_false in Ew.
      destruct (IH w st (fr_inv F) Ew (succs_keys _ _ Hw)) as [st1 [R P]].
      { pose proof (unindexed_le _ _ _ (fr_grows F)). lia. }
      rewrite R. simpl.
      assert (F1 : frame g st0 n st1) by (eapply frame_call; eassumption).
      assert (Hn1 := frame_indexed_n _ _ _ F1).
      destruct (lowlink_present st1 n (fr_inv F1) Hn1) as [a Ha].
      destruct (lowlink_present st1 w (cp_inv P) (cp_indexed P)) as [b Hb].
      rewrite Ha, Hb. simpl.
      destruct (IHws (set_lowlink st1 n (Nat.min a b)) Hws')
        as [st' [R' [F' G']]]; [now apply frame_set_lowlink|].
      exists st'. split; [assumption|]. split; [assumption|].
      apply grows_trans with (b := st1); [exact (cp_grows P)|].
      destruct G' as [A B C D]. constructor; assumption.
Qed.
End Loop.

Lemma report_spec n ext res :
  (ext = [] \/ exists w, In w ext /\ In w (succs g n)) ->
  exists more, report g (ext ++ [n]) res = res ++ more
               /\ Forall (good_scc g) more.
Proof.
  intros H. destruct ext as [|e ext]; simpl.
  - destruct (set_mem n (succs g n)) eqn:E.
    + exists [[n]]. split; [reflexivity|]. constructor; [|constructor].
      apply set_mem_In in E. exists n, n. simpl. auto.
    + exists []. rewrite app_nil_r. split; [reflexivity | constructor].
  - destruct H as [H|[w [Hw1 Hw2]]]; [discriminate|].
    exists [e :: ext ++ [n]]. split.
    + destruct ext; reflexivity.
    + constructor; [|constructor]. exists n, w. split; [|split].
      * right. apply in_or_app. right. now left.
      * change (In w ((e :: ext) ++ [n])). apply in_or_app. now left.
      * assumption.
Qed.

Lemma NoDup_app_disjoint (A : Type) (l1 l2 : list A) x :
  NoDup (l1 ++ l2) -> In x l1 -> ~ In x l2.
Proof.
  induction l1 as [|a l1 IH]; simpl; intros Hnd Hx; [destruct Hx|].
  inversion Hnd; subst. destruct Hx as [->|Hx].
  - intros H. apply H1. apply in_or_app. now right.
  - now apply IH.
Qed.

(** The pop of a root: the whole segment above and including [n] goes. *)
Lemma finish_pop st0 n st ext :
  tarjan_inv st -> stack st = ext ++ n :: stack st0 ->
  exists ons',
    pop_scc n (stack st) (onstack st) [] = Some (ext ++ [n], stack st0, ons')
    /\ tarjan_inv (mkTarjan (index_counter st) (index st) (lowlink st) ons'
                            (stack st0) (report g (ext ++ [n]) (result st))).
Proof.
  intros I E1. pose proof (inv_nodup I) as Hnd. rewrite E1 in Hnd.
  destruct (pop_scc_spec n (stack st0) ext (onstack st) []) as [ons' [P1 P2]].
  - apply NoDup_remove_2 in Hnd. intros H. apply Hnd. apply in_or_app. now left.
  - assumption.
  - intros x Hx. apply (inv_onstack I). now rewrite E1.
  - exists ons'. rewrite E1. split; [exact P1|].
    assert (Hsub : forall x, In x (stack st0) -> In x (stack st)).
    { intros x Hx. rewrite E1. apply in_or_app. right. now right. }
    constructor; simpl.
    + intros x. rewrite P2, (inv_onstack I), E1. split.
      * intros [H1 [H2 H3]]. apply in_app_or in H1.
        destruct H1 as [H1|[H1|H1]]; [contradiction | congruence | assumption].
      * intros H. split; [apply in_or_app; right; now right|]. split.
        -- intros Hx. apply (NoDup_app_disjoint _ _ _ x Hnd Hx). now right.
        -- intros ->. apply NoDup_remove_2 in Hnd. apply Hnd.
           apply in_or_app. now right.
    + intros x Hx. apply (inv_stack_indexed I). now apply Hsub.
    + apply (inv_lowlink I).
    + apply (inv_counter I).
    + apply NoDup_app_remove_l in Hnd. now inversion Hnd.
Qed.

Lemma finish_spec st0 n st :
  frame g st0 n st ->
  exists st', finish g n st = Some st' /\ call_post g n st0 st'.
Proof.
  intros F. assert (Hn := frame_indexed_n _ _ _ F).
  pose proof (frame_grows0 _ _ _ F) as G0.
  destruct F as [Hn0 I G [ext [E1 [E2 E3]]] L].
  assert (Hi : dict_get (index st) n = Some (index_counter st0)).
  { apply (grows_index G). apply enter_index. }
  destruct (lowlink_present st n I Hn) as [a Ha].
  unfold finish. rewrite Ha, Hi. simpl.
  destruct (Nat.eqb a (index_counter st0)).
  - destruct (finish_pop st0 n st ext I E1) as [ons' [P1 P2]].
    rewrite P1. simpl.
    destruct (report_spec n ext (result st) E3) as [more [R1 R2]].
    exists (mkTarjan (index_counter st) (index st) (lowlink st) ons'
              (stack st0) (report g (ext ++ [n]) (result st))).
    split; [reflexivity|]. constructor; simpl.
    + exact P2.
    + destruct G0 as [A1 A2 A3 [m0 [A4 A5]]]. constructor; simpl; auto.
      exists (m0 ++ more). rewrite R1, A4, app_assoc. split; [reflexivity|].
      apply Forall_app. now split.
    + exact Hn.
    + exact Hi.
    + exists []. simpl. split; [reflexivity|]. split; [now left | intros x []].
    + exact L.
  - exists st. split; [reflexivity|]. constructor; try assumption.
    exists (ext ++ [n]). split; [|split].
    + rewrite E1, <- app_assoc. reflexivity.
    + right. apply in_or_app. right. now left.
    + intros x Hx. apply in_app_or in Hx. destruct Hx as [Hx|[<-|[]]].
      * intros H. apply (E2 x Hx).
        apply (grows_indexed g st0 (enter n st0) x); [now apply enter_grows | exact H].
      * assumption.
Qed.

Lemma strongconnect_total : forall fuel n st,
  tarjan_inv st -> ~ indexed st n -> In n (dict_keys g) ->
  unindexed g st < fuel ->
  exists st', strongconnect fuel g n st = Some st' /\ call_post g n st st'.
Proof.
  induction fuel as [|f IHf]; intros n st I Hn Hk Hf; [lia|].
  simpl.
  assert (Hlt : unindexed g (enter n st) < f).
  { assert (unindexed g (enter n st) < unindexed g st); [|lia].
    apply unindexed_lt with (n := n); auto.
    - now apply enter_grows.
    - apply indexed_get. eexists. apply enter_index. }
  destruct (loop_total f IHf st n Hlt (succs g n) (enter n st))
    as [st1 [R [F _]]].
  - auto.
  - now apply frame_enter.
  - rewrite R. simpl. now apply finish_spec.
Qed.

Lemma unindexed_bound st : unindexed g st <= List.length g.
Proof.
  unfold unindexed. etransitivity; [apply filter_length_le|].
  unfold dict_keys. now rewrite length_map.
Qed.

Lemma visit_all_total fuel : List.length g < fuel -> forall ns st,
  tarjan_inv st -> (forall n, In n ns -> In n (dict_keys g)) ->
  exists st', visit_all fuel g ns st = Some st'
              /\ tarjan_inv st' /\ grows g st st'
              /\ forall n, In n ns -> indexed st' n.
Proof.
  intros Hf. induction ns as [|n ns IH]; intros st I Hk; simpl.
  - exists st. split; [reflexivity|]. split; [assumption|].
    split; [apply grows_refl | intros n []].
  - destruct (dict_mem (index st) n) eqn:E.
    + destruct (IH st I) as [st' [R [I' [G' H']]]].
      { intros x Hx. apply Hk. now right. }
      exists st'. split; [assumption|]. split; [assumption|].
      split; [assumption|].
      intros x [<-|Hx]; [|now apply H'].
      eapply grows_indexed; [exact G'|]. now apply indexed_mem.
    + apply dict_mem_false in E.
      destruct (strongconnect_total fuel n st I E) as [st1 [R1 P1]].
      { apply Hk. now left. }
      { pose proof (unindexed_bound st). lia. }
      rewrite R1. simpl.
      destruct (IH st1 (cp_inv P1)) as [st' [R [I' [G' H']]]].
      { intros x Hx. apply Hk. now right. }
      exists st'. split; [assumption|]. split; [assumption|]. split.
      * eapply grows_trans; [exact (cp_grows P1) | eassumption].
      * intros x [<-|Hx]; [|now apply H'].
        eapply grows_indexed; [eassumption | exact (cp_indexed P1)].
Qed.
End StrongConnect.

Lemma tarjan_init_inv : tarjan_inv tarjan_init.
Proof.
  constructor; simpl; try tauto.
  - intros x i [=].
  - constructor.
Qed.

(** [detect_cycles] returns on every input, and every group it reports
    contains an edge of the normalised graph between two of its members. *)
Lemma detect_cycles_total g0 :
  exists cycles, detect_cycles g0 = Some cycles
                 /\ Forall (good_scc (_normalize_graph g0)) cycles.
Proof.
  unfold detect_cycles.
  destruct (visit_all_total (_normalize_graph g0) (normalize_closed g0)
              (S (List.length (_normalize_graph g0))) (Nat.lt_succ_diag_r _)
              (dict_keys (_normalize_graph g0)) tarjan_init tarjan_init_inv)
    as [st [R [I [G H]]]]; [auto|].
  rewrite R. simpl. exists (result st). split; [reflexivity|].
  destruct (grows_result G) as [more [M1 M2]]. rewrite M1. exact M2.
Qed.

(** ** Cycle detection: an empty report certifies acyclicity *)

Lemma deps_first_nil g : deps_first g [].
Proof. intros l1 n l2 H. destruct l1; discriminate. Qed.

Lemma deps_first_snoc g l n :
  deps_first g l -> (forall d, In d (succs g n) -> In d l) ->
  deps_first g (l ++ [n]).
Proof.
  intros H Hn l1 m l2 E d Hd.
  destruct l2 as [|x l2 _] using rev_ind.
  - change (l1 ++ [m]) with (l1 ++ [m]) in E.
    apply app_inj_tail in E. destruct E as [-> ->]. now apply Hn.
  - change (l1 ++ m :: l2 ++ [x]) with (l1 ++ (m :: l2) ++ [x]) in E.
    rewrite app_assoc in E. apply app_inj_tail in E. destruct E as [-> _].
    eapply H; [reflexivity | eassumption].
Qed.

Lemma in_split_first x (l : list node) :
  In x l -> exists l1 l2, l = l1 ++ x :: l2 /\ ~ In x l1.
Proof.
  induction l as [|y l IH]; [intros []|].
  destruct (string_dec y x) as [->|Hd].
  - intros _. exists [], l. split; [reflexivity | intros []].
  - intros [H|H]; [contradiction|].
    destruct (IH H) as [l1 [l2 [-> Hn]]]. exists (y :: l1), l2.
    split; [reflexivity|]. intros [H'|H']; [contradiction | now apply Hn].
Qed.

Lemma index_of_first x l1 l2 :
  ~ In x l1 -> index_of x (l1 ++ x :: l2) = List.length l1.
Proof.
  induction l1 as [|y l1 IH]; simpl; intros H.
  - now rewrite String.eqb_refl.
  - destruct (String.eqb_spec y x) as [->|Hd].
    + exfalso. apply H. now left.
    + f_equal. apply IH. intros Hi. apply H. now right.
Qed.

Lemma index_of_In x l1 l2 :
  In x l1 -> index_of x (l1 ++ l2) < List.length l1.
Proof.
  induction l1 as [|y l1 IH]; simpl; [intros []|].
  intros H. destruct (String.eqb_spec y x) as [->|Hd]; [lia|].
  destruct H as [H|H]; [contradiction|]. specialize (IH H). lia.
Qed.

(** A dependency-first listing of all nodes ranks the graph. *)
Lemma deps_first_acyclic g l :
  deps_first g l -> (forall k, In k (dict_keys g) -> In k l) -> acyclic g.
Proof.
  intros H Hk. exists (fun x => index_of x l). intros a b Hab.
  assert (Ha : In a l) by (apply Hk; eapply succs_In_key; eassumption).
  destruct (in_split_first a l Ha) as [l1 [l2 [E Hn]]].
  pose proof (H l1 a l2 E b Hab) as Hb. rewrite E.
  rewrite index_of_first by assumption. now apply index_of_In.
Qed.

Lemma report_nil g scc res : report g scc res = [] -> res = [].
Proof.
  unfold report. destruct scc as [|x [|y scc]]; auto.
  - destruct (set_mem x (succs g x)); auto.
    intros H. apply app_eq_nil in H. destruct H as [_ H]. discriminate.
  - intros H. apply app_eq_nil in H. destruct H as [_ H]. discriminate.
Qed.

Lemma finish_result_nil g n st st' :
  finish g n st = Some st' -> result st' = [] -> result st = [].
Proof.
  unfold finish.
  destruct (dict_get (lowlink st) n) as [l|]; [|discriminate]. simpl.
  destruct (dict_get (index st) n) as [i|]; [|discriminate]. simpl.
  destruct (Nat.eqb l i).
  - destruct (pop_scc n (stack st) (onstack st) []) as [[[scc stk] ons]|];
      [|discriminate].
    simpl. intros [= <-]. simpl. apply report_nil.
  - intros [= <-]. auto.
Qed.

Lemma grows_result_nil g st st' : grows g st st' -> result st' = [] -> result st = [].
Proof.
  intros G H. destruct (grows_result G) as [more [M _]]. rewrite H in M.
  symmetry in M. apply app_eq_nil in M. tauto.
Qed.

Section Acyclic.
Variable g : graph.
Hypothesis g_closed : closed g.

Lemma strongconnect_post fuel n st st' :
  tarjan_inv st -> ~ indexed st n -> In n (dict_keys g) ->
  unindexed g st < fuel ->
  strongconnect fuel g n st = Some st' -> call_post g n st st'.
Proof.
  intros I Hn Hk Hf R.
  destruct (strongconnect_total g g_closed fuel n st I Hn Hk Hf) as [st'' [R' P]].
  congruence.
Qed.

Lemma loop_post f st0 n ws st st' :
  unindexed g (enter n st0) < f ->
  (forall w, In w ws -> In w (succs g n)) ->
  frame g st0 n st ->
  for_successors (strongconnect f g) n ws st = Some st' ->
  frame g st0 n st' /\ grows g st st'.
Proof.
  intros Hf Hws F R.
  destruct (loop_total g g_closed f (strongconnect_total g g_closed f)
              st0 n Hf ws st Hws F) as [st'' [R' P]].
  congruence.
Qed.

Lemma low_witness_lt st0 a :
  tarjan_inv st0 -> low_witness st0 a -> a < index_counter st0.
Proof. intros I [y [_ H]]. eapply (inv_counter I); eassumption. Qed.

Lemma frame_index_n st0 n st :
  frame g st0 n st -> dict_get (index st) n = Some (index_counter st0).
Proof. intros F. apply (grows_index (fr_grows F)). apply enter_index. Qed.

Lemma stack_index_cases st0 n st z b :
  tarjan_inv st0 -> frame g st0 n st ->
  In z (stack st) -> dict_get (index st) z = Some b ->
  index_counter st0 <= b \/ low_witness st0 b.
Proof.
  intros I0 F Hz Hb. pose proof (frame_index_n _ _ _ F) as Hi.
  pose proof (frame_grows0 g _ _ _ F) as G0.
  destruct F as [Hn0 I G [ext [E1 [E2 E3]]] L].
  rewrite E1 in Hz. apply in_app_or in Hz. destruct Hz as [Hz|[<-|Hz]].
  - destruct (grows_new G _ Hb) as [H|H].
    + exfalso. apply (E2 z Hz). apply indexed_get. eauto.
    + simpl in H. left. lia.
  - left. rewrite Hi in Hb. injection Hb as <-. lia.
  - right. exists z. split; [assumption|].
    pose proof (inv_stack_indexed I0 _ Hz) as Hx. apply indexed_get in Hx.
    destruct Hx as [l Hl]. pose proof (grows_index G0 _ Hl) as Hl'.
    congruence.
Qed.

Lemma min_low st0 a b :
  tarjan_inv st0 ->
  (a = index_counter st0 \/ low_witness st0 a) ->
  (index_counter st0 <= b \/ low_witness st0 b) ->
  (Nat.min a b = index_counter st0 \/ low_witness st0 (Nat.min a b))
  /\ (Nat.min a b = index_counter st0 ->
      a = index_counter st0 /\ index_counter st0 <= b).
Proof.
  intros I Ha Hb.
  assert (Ha' : a = index_counter st0 \/ a < index_counter st0).
  { destruct Ha as [Ha|Ha]; [now left | right; now apply low_witness_lt]. }
  assert (Hb' : index_counter st0 <= b \/ b < index_counter st0).
  { destruct Hb as [Hb|Hb]; [now left | right; now apply low_witness_lt]. }
  split.
  - destruct (Nat.min_dec a b) as [E|E]; rewrite E.
    + assumption.
    + destruct Hb as [Hb|Hb]; [|now right].
      destruct Ha as [Ha|Ha]; [left; lia|].
      apply low_witness_lt in Ha; [|assumption]. lia.
  - intros H. lia.
Qed.

Lemma finished_enter st0 n x :
  ~ indexed st0 n -> (finished (enter n st0) x <-> finished st0 x).
Proof.
  intros Hn. unfold finished, indexed. simpl. rewrite dict_keys_set_In.
  split.
  - intros [[->|H] H']; [exfalso; apply H'; now left|].
    split; [assumption | intros Hs; apply H'; now right].
  - intros [H H']. split; [now right|].
    intros [<-|Hs]; [now apply Hn | contradiction].
Qed.

Section LoopInv.
Variable f : nat.
Hypothesis IHB : forall w st st',
  tarjan_inv st -> ~ indexed st w -> In w (dict_keys g) ->
  unindexed g st < f ->
  strongconnect f g w st = Some st' -> result st' = [] ->
  outcome_done g w st st' \/ outcome_low w st st'.

Variables (st0 : tarjan) (n : node).
Hypothesis I0 : tarjan_inv st0.
Hypothesis Hfuel : unindexed g (enter n st0) < f.

Lemma loop_modes : forall ws done st st',
  (forall w, In w ws -> In w (succs g n)) ->
  frame g st0 n st -> loop_inv g st0 n done st ->
  for_successors (strongconnect f g) n ws st = Some st' ->
  result st' = [] ->
  loop_inv g st0 n (done ++ ws) st'.
Proof.
  induction ws as [|w ws IHws]; intros done st st' Hws F LI R Hnil.
  - simpl in R. injection R as <-. now rewrite app_nil_r.
  - assert (Hw : In w (succs g n)) by (apply Hws; now left).
    assert (Hws' : forall w', In w' ws -> In w' (succs g n))
      by (intros w' H'; apply Hws; now right).
    replace (done ++ w :: ws) with ((done ++ [w]) ++ ws)
      by (rewrite <- app_assoc; reflexivity).
    pose proof (frame_indexed_n g _ _ _ F) as Hn.
    pose proof (frame_index_n _ _ _ F) as Hin.
    simpl in R. destruct LI as [a [La [Lb Lc]]].
    destruct (dict_mem (index st) w) eqn:Ew; simpl in R.
    + destruct (set_mem w (onstack st)) eqn:Eo.
      * (* the successor is on the stack *)
        rewrite La in R. simpl in R.
        apply indexed_mem, indexed_get in Ew. destruct Ew as [b Hb].
        rewrite Hb in R. simpl in R.
        assert (Hs : In w (stack st)).
        { apply (inv_onstack (fr_inv F)). now apply set_mem_In. }
        pose proof (stack_index_cases _ _ _ w b I0 F Hs Hb) as Hc.
        destruct (min_low st0 a b I0 Lb Hc) as [M1 M2].
        apply (IHws (done ++ [w]) (set_lowlink st n (Nat.min a b)));
          try assumption.
        -- now apply frame_set_lowlink.
        -- exists (Nat.min a b). split; [apply dict_get_set_same|].
           split; [assumption|]. simpl. intros E1 E2.
           destruct (M2 E1) as [Ea Eb]. destruct (Lc Ea E2) as [C1 C2].
           split; [exact C1|]. intros w' Hw'. apply in_app_or in Hw'.
           destruct Hw' as [Hw'|[<-|[]]]; [now apply C2|].
           rewrite E2 in Hs. destruct Hs as [Hs|Hs]; [now left|].
           exfalso.
           pose proof (inv_stack_indexed I0 _ Hs) as Hx.
           apply indexed_get in Hx. destruct Hx as [l Hl].
           pose proof (inv_counter I0 _ Hl).
           pose proof (grows_index (frame_grows0 g _ _ _ F) _ Hl).
           assert (b = l) by congruence. lia.
      * (* the successor was popped earlier *)
        apply (IHws (done ++ [w]) st); try assumption.
        exists a. split; [assumption|]. split; [assumption|].
        intros E1 E2. destruct (Lc E1 E2) as [C1 C2]. split; [exact C1|].
        intros w' Hw'. apply in_app_or in Hw'.
        destruct Hw' as [Hw'|[<-|[]]]; [now apply C2|].
        right. split; [now apply indexed_mem|].
        intros Hs. apply (inv_onstack (fr_inv F)) in Hs.
        apply set_mem_In in Hs. congruence.
    + (* the successor is new: recursive call *)
      apply dict_mem_false in Ew.
      destruct (strongconnect f g w st) as [st1|] eqn:R1; [|discriminate].
      simpl in R.
      assert (Hf1 : unindexed g st < f).
      { pose proof (unindexed_le _ _ _ (fr_grows F)). lia. }
      pose proof (strongconnect_post f w st st1 (fr_inv F) Ew
                    (succs_keys g g_closed _ _ Hw) Hf1 R1) as P.
      assert (F1 : frame g st0 n st1) by (eapply frame_call; eassumption).
      assert (La1 : dict_get (lowlink st1) n = Some a).
      { rewrite (cp_lowlink P); assumption. }
      rewrite La1 in R. simpl in R.
      destruct (dict_get (lowlink st1) w) as [b|] eqn:Hb; [|discriminate].
      simpl in R.
      assert (F2 : frame g st0 n (set_lowlink st1 n (Nat.min a b)))
        by now apply frame_set_lowlink.
      destruct (loop_post f st0 n ws _ st' Hfuel Hws' F2 R) as [_ G2].
      assert (Hnil1 : result st1 = []).
      { apply (grows_result_nil g _ _ G2) in Hnil. exact Hnil. }
      destruct (IHB w st st1 (fr_inv F) Ew (succs_keys g g_closed _ _ Hw)
                  Hf1 R1 Hnil1) as [[O1 [O2 O3]]|[[extw [O1 O2]] [aw [O3 O4]]]].
      * (* the call popped [w] alone *)
        assert (Hbv : b = index_counter st) by congruence.
        assert (Hc : index_counter st0 <= b \/ low_witness st0 b).
        { left. pose proof (grows_counter (fr_grows F)). simpl in *. lia. }
        destruct (min_low st0 a b I0 Lb Hc) as [M1 M2].
        apply (IHws (done ++ [w]) (set_lowlink st1 n (Nat.min a b)));
          try assumption.
        exists (Nat.min a b). split; [apply dict_get_set_same|].
        split; [assumption|]. simpl. intros E1 E2.
        destruct (M2 E1) as [Ea Eb]. rewrite O1 in E2.
        destruct (Lc Ea E2) as [C1 C2]. split; [auto|].
        intros w' Hw'. apply in_app_or in Hw'.
        destruct Hw' as [Hw'|[<-|[]]].
        -- destruct (C2 w' Hw') as [C|[C3 C4]]; [now left|]. right. split.
           ++ exact (grows_indexed g _ _ w' (cp_grows P) C3).
           ++ simpl. now rewrite O1.
        -- right. split; [exact (cp_indexed P)|]. simpl. rewrite O1.
           intros Hs. apply Ew. now apply (inv_stack_indexed (fr_inv F)).
      * (* the call left [w] on the stack *)
        assert (Hbv : b = aw) by congruence. subst aw.
        destruct O3 as [y [Y1 Y2]].
        pose proof (stack_index_cases _ _ _ y b I0 F Y1 Y2) as Hc.
        destruct (min_low st0 a b I0 Lb Hc) as [M1 M2].
        apply (IHws (done ++ [w]) (set_lowlink st1 n (Nat.min a b)));
          try assumption.
        exists (Nat.min a b). split; [apply dict_get_set_same|].
        split; [assumption|]. simpl. intros E1 E2. exfalso.
        destruct (fr_stack F) as [ext [S1 _]].
        rewrite O1, S1 in E2.
        apply (f_equal (@List.length node)) in E2.
        rewrite !length_app in E2. simpl in E2.
        destruct extw; [destruct O2 | simpl in E2; lia].
Qed.
End LoopInv.

Lemma finish_modes st0 n st st' :
  tarjan_inv st0 -> frame g st0 n st ->
  loop_inv g st0 n (succs g n) st ->
  finish g n st = Some st' -> result st' = [] ->
  outcome_done g n st0 st' \/ outcome_low n st0 st'.
Proof.
  intros I0 F [a [La [Lb Lc]]] R Hnil.
  pose proof (frame_indexed_n g _ _ _ F) as Hn.
  pose proof (frame_index_n _ _ _ F) as Hi.
  destruct (fr_stack F) as [ext [E1 _]].
  unfold finish in R. rewrite La, Hi in R. simpl in R.
  destruct (Nat.eqb_spec a (index_counter st0)) as [Ea|Ea].
  - left.
    destruct (finish_pop g st0 n st ext (fr_inv F) E1) as [ons' [P1 P2]].
    rewrite P1 in R. simpl in R. injection R as <-. simpl in Hnil.
    destruct ext as [|e ext].
    + simpl in *. destruct (set_mem n (succs g n)) eqn:Es.
      { apply app_eq_nil in Hnil. destruct Hnil as [_ Hnil]. discriminate. }
      destruct (Lc Ea E1) as [C1 C2].
      split; [reflexivity|]. split; [simpl; congruence|].
      intros H0. destruct (C1 H0) as [l [D1 D2]].
      assert (Hns : ~ In n (stack st0)).
      { pose proof (inv_nodup (fr_inv F)) as Hnd. rewrite E1 in Hnd.
        now inversion Hnd. }
      exists (l ++ [n]). split.
      * apply deps_first_snoc; [assumption|].
        intros d Hd. destruct (C2 d Hd) as [->|Hf].
        -- apply set_mem_false in Es. contradiction.
        -- now apply D2.
      * intros x. rewrite in_app_iff, D2. unfold finished, indexed. simpl.
        rewrite E1. simpl. split.
        -- intros [[H1 H2]|[<-|[]]].
           ++ split; [assumption | intros Hs; apply H2; now right].
           ++ split; assumption.
        -- intros [H1 H2]. destruct (string_dec n x) as [->|Hd].
           ++ right. now left.
           ++ left. split; [assumption|]. intros [H|H]; contradiction.
    + exfalso. simpl in Hnil.
      assert (E : exists y ys, ext ++ [n] = y :: ys).
      { destruct ext; simpl; eauto. }
      destruct E as [y [ys E]]. rewrite E in Hnil.
      apply app_eq_nil in Hnil. destruct Hnil as [_ Hnil]. discriminate.
  - right. injection R as <-.
    destruct Lb as [Lb|Lb]; [contradiction|].
    split.
    + exists (ext ++ [n]). split.
      * rewrite E1, <- app_assoc. reflexivity.
      * apply in_or_app. right. now left.
    + exists a. split; assumption.
Qed.

Lemma strongconnect_modes : forall fuel n st st',
  tarjan_inv st -> ~ indexed st n -> In n (dict_keys g) ->
  unindexed g st < fuel ->
  strongconnect fuel g n st = Some st' -> result st' = [] ->
  outcome_done g n st st' \/ outcome_low n st st'.
Proof.
  induction fuel as [|f IHf]; intros n st st' I Hn Hk Hf R Hnil; [lia|].
  simpl in R.
  assert (Hlt : unindexed g (enter n st) < f).
  { assert (unindexed g (enter n st) < unindexed g st); [|lia].
    apply unindexed_lt with (n := n); auto.
    - now apply enter_grows.
    - apply indexed_get. eexists. apply enter_index. }
  destruct (for_successors (strongconnect f g) n (succs g n) (enter n st))
    as [stL|] eqn:RL; [|discriminate].
  simpl in R.
  pose proof (frame_enter g st n I Hn) as F0.
  destruct (loop_post f st n (succs g n) _ stL Hlt (fun w H => H) F0 RL)
    as [FL GL].
  pose proof (finish_result_nil g n stL st' R Hnil) as HnilL.
  apply (finish_modes st n stL st' I FL); try assumption.
  change (succs g n) with ([] ++ succs g n).
  apply (loop_modes f IHf st n I Hlt (succs g n) [] (enter n st) stL);
    auto.
  exists (index_counter st). split; [simpl; apply dict_get_set_same|].
  split; [now left|]. intros _ _. split; [|intros w []].
  intros [l [D1 D2]]. exists l. split; [assumption|].
  intros x. rewrite D2. symmetry. now apply finished_enter.
Qed.

Lemma visit_all_modes fuel : List.length g < fuel -> forall ns st st',
  tarjan_inv st -> stack st = [] -> finished_sorted g st ->
  (forall n, In n ns -> In n (dict_keys g)) ->
  visit_all fuel g ns st = Some st' -> result st' = [] ->
  stack st' = [] /\ finished_sorted g st' /\ forall n, In n ns -> indexed st' n.
Proof.
  intros Hf. induction ns as [|n ns IH]; intros st st' I Hs HF Hk R Hnil.
  - simpl in R. injection R as <-. split; [assumption|].
    split; [assumption | intros n []].
  - assert (Hk' : forall x, In x ns -> In x (dict_keys g))
      by (intros x Hx; apply Hk; now right).
    simpl in R. destruct (dict_mem (index st) n) eqn:E.
    + destruct (visit_all_total g g_closed fuel Hf ns st I Hk')
        as [st'' [R' [_ [G' _]]]].
      destruct (IH st st' I Hs HF Hk' R Hnil) as [A [B C]].
      split; [assumption|]. split; [assumption|].
      intros x [<-|Hx]; [|now apply C].
      assert (st'' = st') by congruence. subst st''.
      apply (grows_indexed g st st' n G'). now apply indexed_mem.
    + apply dict_mem_false in E.
      destruct (strongconnect fuel g n st) as [st1|] eqn:R1; [|discriminate].
      simpl in R.
      assert (Hf1 : unindexed g st < fuel).
      { pose proof (unindexed_bound g st). lia. }
      pose proof (strongconnect_post fuel n st st1 I E (Hk n (or_introl eq_refl))
                    Hf1 R1) as P.
      destruct (visit_all_total g g_closed fuel Hf ns st1 (cp_inv P) Hk')
        as [st'' [R' [_ [G' _]]]].
      assert (st'' = st') by congruence. subst st''.
      pose proof (grows_result_nil g _ _ G' Hnil) as Hnil1.
      destruct (strongconnect_modes fuel n st st1 I E (Hk n (or_introl eq_refl))
                  Hf1 R1 Hnil1) as [[O1 [O2 O3]]|[_ [a [[y [Y1 _]] _]]]].
      * destruct (IH st1 st' (cp_inv P)) as [A [B C]]; auto; [congruence|].
        split; [assumption|]. split; [assumption|].
        intros x [<-|Hx]; [|now apply C].
        exact (grows_indexed g st1 st' n G' (cp_indexed P)).
      * rewrite Hs in Y1. destruct Y1.
Qed.
End Acyclic.

(** If the detector reports nothing, the normalised graph has no cycle. *)
Lemma detect_cycles_nil_acyclic g0 :
  detect_cycles g0 = Some [] -> acyclic (_normalize_graph g0).
Proof.
  unfold detect_cycles. set (g := _normalize_graph g0).
  destruct (visit_all (S (List.length g)) g (dict_keys g) tarjan_init)
    as [st|] eqn:R; [|discriminate].
  simpl. intros [= Hnil].
  destruct (visit_all_modes g (normalize_closed g0) (S (List.length g))
              (Nat.lt_succ_diag_r _) (dict_keys g) tarjan_init st
              tarjan_init_inv eq_refl) as [A [[l [D1 D2]] C]]; auto.
  - exists []. split; [apply deps_first_nil|].
    intros x. split; [intros [] | intros [[] _]].
  - apply deps_first_acyclic with (l := l); [assumption|].
    intros k Hk. apply D2. split; [now apply C|]. rewrite A. intros [].
Qed.

(** ** Cycle resolution *)

Lemma subgraph_refl g : subgraph g g.
Proof. constructor; auto. Qed.

Lemma subgraph_trans a b c : subgraph a b -> subgraph b c -> subgraph a c.
Proof.
  intros [A1 A2] [B1 B2]. constructor; [congruence | auto].
Qed.

Lemma succs_In (g : graph) u v :
  In v (succs g u) -> exists ds, dict_get g u = Some ds /\ In v ds.
Proof.
  unfold succs. destruct (dict_get g u); [eauto | intros []].
Qed.

Lemma succs_remove_edge g u v x :
  succs (remove_edge g u v) x =
  if String.eqb u x then set_remove v (succs g u) else succs g x.
Proof.
  unfold remove_edge, succs at 1. rewrite dict_get_set.
  destruct (String.eqb u x); reflexivity.
Qed.

Lemma remove_edge_subgraph g u v :
  In v (succs g u) -> subgraph (remove_edge g u v) g.
Proof.
  intros H. constructor.
  - apply dict_keys_set_old. eapply succs_In_key; eassumption.
  - intros a b. rewrite succs_remove_edge.
    destruct (String.eqb_spec u a) as [->|Hd]; [|auto].
    rewrite set_remove_In. tauto.
Qed.

Lemma remove_edge_normal g u v :
  In v (succs g u) -> normal g -> normal (remove_edge g u v).
Proof.
  intros H [[W1 W2] C].
  assert (Hk : dict_keys (remove_edge g u v) = dict_keys g).
  { apply dict_keys_set_old. eapply succs_In_key; eassumption. }
  destruct (succs_In _ _ _ H) as [ds [Hg Hv]]. apply dict_get_In in Hg.
  assert (Hs : succs g u = ds).
  { unfold succs. erewrite In_dict_get; eauto. }
  split; [split|].
  - now rewrite Hk.
  - intros k ds' Hi. apply dict_set_In in Hi. destruct Hi as [[-> ->]|Hi].
    + apply set_remove_NoDup. rewrite Hs. eapply W2; eassumption.
    + eapply W2; eassumption.
  - intros k ds' d Hi Hd. rewrite Hk. apply dict_set_In in Hi.
    destruct Hi as [[-> ->]|Hi].
    + apply set_remove_In in Hd. destruct Hd as [Hd _]. rewrite Hs in Hd.
      eapply C; eassumption.
    + eapply C; eassumption.
Qed.

Lemma find_self_loop_spec g members u :
  find_self_loop g members = Some u -> In u (succs g u).
Proof.
  unfold find_self_loop. intros H. apply find_some in H.
  destruct H as [_ H]. now apply set_mem_In.
Qed.

Lemma find_intra_edge_spec g sset members u v :
  find_intra_edge g sset members = Some (u, v) ->
  In u members /\ In v (succs g u) /\ In v sset.
Proof.
  induction members as [|m members IH]; simpl; [discriminate|].
  destruct (find (fun v => set_mem v sset) (sorted (succs g m))) as [v'|] eqn:E.
  - intros [= <- <-]. apply find_some in E. destruct E as [E1 E2].
    split; [now left|]. split; [now apply sorted_In | now apply set_mem_In].
  - intros H. destruct (IH H) as [H1 H2]. split; [now right | assumption].
Qed.

Lemma find_intra_edge_complete g sset members u v :
  In u members -> In v (succs g u) -> In v sset ->
  find_intra_edge g sset members <> None.
Proof.
  intros Hu Hv Hs. induction members as [|m members IH]; simpl; [destruct Hu|].
  destruct (find (fun v => set_mem v sset) (sorted (succs g m))) as [v'|] eqn:E.
  - discriminate.
  - destruct Hu as [->|Hu]; [|now apply IH].
    exfalso. eapply find_none in E; [|apply sorted_In; exact Hv].
    simpl in E. apply set_mem_false in E. contradiction.
Qed.

Lemma break_group_ok g0 rs0 rs scc :
  round_ok g0 rs0 rs -> round_ok g0 rs0 (break_group rs scc).
Proof.
  destruct rs as [[g removed] changed]. intros [N S L F K]. simpl in *.
  unfold break_group.
  destruct (find_self_loop g (sorted (set_of scc))) as [u|] eqn:E1.
  - apply find_self_loop_spec in E1. constructor; simpl.
    + now apply remove_edge_normal.
    + eapply subgraph_trans; [now apply remove_edge_subgraph | assumption].
    + rewrite length_app. simpl. lia.
    + intros _. right. rewrite length_app. simpl. lia.
    + auto.
  - destruct changed.
    + constructor; simpl; auto.
    + destruct (find_intra_edge g (set_of scc) (sorted (set_of scc)))
        as [[u v]|] eqn:E2.
      * apply find_intra_edge_spec in E2. destruct E2 as [_ [E2 _]].
        constructor; simpl.
        -- now apply remove_edge_normal.
        -- eapply subgraph_trans; [now apply remove_edge_subgraph | assumption].
        -- rewrite length_app. simpl. lia.
        -- intros _. right. rewrite length_app. simpl. lia.
        -- auto.
      * constructor; simpl; auto.
Qed.

Lemma fold_break_group_ok g0 rs0 cycles : forall rs,
  round_ok g0 rs0 rs -> round_ok g0 rs0 (fold_left break_group cycles rs).
Proof.
  induction cycles as [|c cycles IH]; intros rs H; simpl; [assumption|].
  apply IH. now apply break_group_ok.
Qed.

(** The first group of a round always loses an edge. *)
Lemma break_group_progress g removed scc :
  good_scc g scc -> snd (break_group (g, removed, false) scc) = true.
Proof.
  intros [u [v [Hu [Hv He]]]]. unfold break_group.
  destruct (find_self_loop g (sorted (set_of scc))) as [w|]; [reflexivity|].
  destruct (find_intra_edge g (set_of scc) (sorted (set_of scc)))
    as [[a b]|] eqn:E; [reflexivity|].
  exfalso. revert E.
  apply find_intra_edge_complete with (u := u) (v := v).
  - apply sorted_In, set_of_In. assumption.
  - assumption.
  - now apply set_of_In.
Qed.

Lemma resolve_rounds_spec : forall rounds g removed,
  normal g ->
  exists g' removed' res,
    resolve_rounds rounds g removed = Some (g', removed', res)
    /\ normal g' /\ subgraph g' g
    /\ ((res = Converged /\ detect_cycles g' = Some [])
        \/ (res = MaxRounds
            /\ List.length removed + rounds <= List.length removed')).
Proof.
  induction rounds as [|r IH]; intros g removed N; simpl.
  - exists g, removed, MaxRounds. split; [reflexivity|]. split; [assumption|].
    split; [apply subgraph_refl|]. right. split; [reflexivity | lia].
  - destruct (detect_cycles_total g) as [cycles [D1 D2]]. rewrite D1. simpl.
    destruct N as [W C]. rewrite (normalize_id g W C) in D2.
    destruct cycles as [|c cycles].
    + exists g, removed, Converged. split; [reflexivity|].
      split; [now split|]. split; [apply subgraph_refl|]. now left.
    + assert (R0 : round_ok g (g, removed, false) (g, removed, false)).
      { constructor; simpl; auto using subgraph_refl. now split. }
      pose proof (fold_break_group_ok g (g, removed, false) (c :: cycles) _ R0) as R.
      assert (Hc : snd (fold_left break_group (c :: cycles) (g, removed, false)) = true).
      { simpl. inversion D2; subst.
        pose proof (break_group_progress g removed c H1) as Hp.
        pose proof (break_group_ok g (g, removed, false) _ c R0) as R1.
        assert (R2 : round_ok g (break_group (g, removed, false) c)
                              (break_group (g, removed, false) c)).
        { destruct R1. constructor; auto. }
        pose proof (fold_break_group_ok g _ cycles _ R2) as R3.
        apply (ro_keep R3). exact Hp. }
      destruct (fold_left break_group (c :: cycles) (g, removed, false))
        as [[g1 removed1] changed1] eqn:E.
      simpl in Hc. subst changed1. destruct R as [N1 S1 L1 F1 K1]. simpl in *.
      destruct (IH g1 removed1 N1) as [g' [removed' [res [Q1 [Q2 [Q3 Q4]]]]]].
      exists g', removed', res. split; [exact Q1|]. split; [exact Q2|].
      split; [eapply subgraph_trans; eassumption|].
      destruct Q4 as [Q4|[Q4 Q5]]; [now left|]. right. split; [assumption|].
      destruct (F1 eq_refl) as [F|F]; [discriminate | lia].
Qed.

Lemma resolve_cycles_log_spec G :
  exists g' removed res,
    resolve_cycles_log G = Some (g', removed, res)
    /\ normal g' /\ subgraph g' (_normalize_graph G)
    /\ ((res = Converged /\ detect_cycles g' = Some [])
        \/ (res = MaxRounds
            /\ max_rounds (_normalize_graph G) <= List.length removed)).
Proof.
  unfold resolve_cycles_log.
  destruct (resolve_rounds_spec (max_rounds (_normalize_graph G))
              (_normalize_graph G) [])
    as [g' [removed [res [H1 [H2 [H3 H4]]]]]].
  - split; [apply normalize_wf | apply normalize_closed].
  - exists g', removed, res. simpl in H4. auto.
Qed.

(** When the flag of the round is already raised, a group without a
    self-loop is left as it is. *)
Lemma break_group_skips g removed scc :
  find_self_loop g (sorted (set_of scc)) = None ->
  break_group (g, removed, true) scc = (g, removed, true).
Proof. intros H. unfold break_group. now rewrite H. Qed.

(** C1 (the code departs from the claim): on two disjoint two-node cycles
    the first round detects two cycle groups and removes one edge only,
    [A -> B]; the group [{C, D}] is skipped because [changed_this_round]
    is still set from the first group. *)
Theorem one_round_two_groups_one_edge :
  one_round [("A", ["B"]); ("B", ["A"]); ("C", ["D"]); ("D", ["C"])]
  = Some ([["B"; "A"]; ["D"; "C"]], [("A", "B")]).
Proof. reflexivity. Qed.

(** C2: [resolve_cycles] returns on every graph, and either the detector
    finds no cycle group in what it returns, or all
    [max(10, 2 * node_count)] rounds were used, each of them removing an
    edge, and the graph is returned through the warning exit. *)
Theorem resolve_cycles_converges_or_caps (G : graph) :
  exists g' removed res,
    resolve_cycles_log G = Some (g', removed, res)
    /\ resolve_cycles G = Some g'
    /\ ((res = Converged /\ detect_cycles g' = Some [])
        \/ (res = MaxRounds
            /\ Nat.max 10 (List.length (_normalize_graph G) * 2)
               <= List.length removed)).
Proof.
  destruct (resolve_cycles_log_spec G) as [g' [removed [res [H1 [_ [_ H4]]]]]].
  exists g', removed, res. split; [exact H1|]. split; [|exact H4].
  unfold resolve_cycles. now rewrite H1.
Qed.

(** C9: [resolve_cycles] returns a graph with exactly the keys of the
    normalised input, in the same order, and every edge of it is an edge of
    the normalised input. *)
Theorem resolve_cycles_only_deletes_edges (G : graph) :
  exists g',
    resolve_cycles G = Some g'
    /\ dict_keys g' = dict_keys (_normalize_graph G)
    /\ (forall u v, In v (succs g' u) -> In v (succs (_normalize_graph G) u)).
Proof.
  destruct (resolve_cycles_log_spec G) as [g' [removed [res [H1 [_ [[S1 S2] _]]]]]].
  exists g'. split; [|split; assumption].
  unfold resolve_cycles. now rewrite H1.
Qed.

(** ** Topological sort *)

Lemma pending_nonneg g res m : (0 <= pending g res m)%Z.
Proof. unfold pending. lia. Qed.

Lemma pending_nil g m : pending g [] m = Z.of_nat (List.length (succs g m)).
Proof.
  unfold pending. f_equal. f_equal.
  induction (succs g m) as [|d l IH]; simpl; [reflexivity | now f_equal].
Qed.

Lemma pending_zero g res m :
  pending g res m = 0%Z <-> forall d, In d (succs g m) -> In d res.
Proof.
  unfold pending. induction (succs g m) as [|d l IH]; simpl.
  - split; [intros _ ? [] | reflexivity].
  - destruct (set_mem d res) eqn:E; simpl.
    + rewrite IH. apply set_mem_In in E. split.
      * intros H x [<-|Hx]; auto.
      * intros H x Hx. apply H. now right.
    + split; [lia|]. intros H. apply set_mem_false in E. exfalso. apply E, H. now left.
Qed.

Lemma set_mem_snoc x res n :
  set_mem x (res ++ [n]) = set_mem x res || String.eqb x n.
Proof.
  unfold set_mem. rewrite existsb_app. simpl. now rewrite orb_false_r.
Qed.

Lemma pending_snoc_other g res n m :
  ~ In n (succs g m) -> pending g (res ++ [n]) m = pending g res m.
Proof.
  unfold pending. intros H. f_equal. f_equal.
  induction (succs g m) as [|d l IH]; simpl; [reflexivity|].
  rewrite set_mem_snoc.
  destruct (String.eqb_spec d n) as [->|Hd]; [exfalso; apply H; now left|].
  rewrite orb_false_r. rewrite IH; [reflexivity|]. intros Hi. apply H. now right.
Qed.

Lemma waiting_snoc_dep res n (l : list node) :
  ~ In n res -> NoDup l -> In n l ->
  S (List.length (filter (fun d => negb (set_mem d (res ++ [n]))) l))
  = List.length (filter (fun d => negb (set_mem d res)) l).
Proof.
  intros Hr Hnd Hin.
  induction l as [|d l IH]; simpl; [destruct Hin|].
  inversion Hnd; subst. rewrite set_mem_snoc.
  destruct (String.eqb_spec d n) as [->|Hd].
  - apply set_mem_false in Hr. rewrite Hr. simpl. f_equal.
    clear - H1. induction l as [|a l IH]; simpl; [reflexivity|].
    rewrite set_mem_snoc. destruct (String.eqb_spec a n) as [->|Ha].
    + exfalso. apply H1. now left.
    + rewrite orb_false_r.
      assert (IH' := IH (fun Hi => H1 (or_intror Hi))).
      destruct (set_mem a res); simpl; lia.
  - rewrite orb_false_r. destruct Hin as [Hin|Hin]; [contradiction|].
    specialize (IH H2 Hin). destruct (set_mem d res); simpl; lia.
Qed.

Lemma pending_snoc_dep g res n m :
  ~ In n res -> NoDup (succs g m) -> In n (succs g m) ->
  pending g (res ++ [n]) m = (pending g res m - 1)%Z.
Proof.
  intros Hr Hnd Hin. unfold pending.
  rewrite <- (waiting_snoc_dep res n (succs g m) Hr Hnd Hin). lia.
Qed.

Lemma pending_snoc_le g res n m :
  (pending g (res ++ [n]) m <= pending g res m)%Z.
Proof.
  unfold pending. apply inj_le.
  induction (succs g m) as [|d l IH]; simpl; [lia|].
  rewrite set_mem_snoc. destruct (set_mem d res); simpl; [assumption|].
  destruct (String.eqb d n); simpl; lia.
Qed.

Lemma succs_defaultdict_add d k x k' :
  succs (defaultdict_add d k x) k' =
  if String.eqb k k' then set_add x (succs d k) else succs d k'.
Proof.
  unfold defaultdict_add, succs at 1. rewrite dict_get_set.
  destruct (String.eqb k k'); reflexivity.
Qed.

Lemma dict_keys_set_same (V : Type) (d : dict V) k v v0 :
  dict_get d k = Some v0 -> dict_keys (dict_set d k v) = dict_keys d.
Proof.
  intros H. apply dict_keys_set_old. apply dict_mem_keys.
  unfold dict_mem. now rewrite H.
Qed.

Lemma count_deps_spec n : forall deps dependents indeg v,
  dict_get indeg n = Some v ->
  exists dependents' indeg',
    count_deps n deps dependents indeg = Some (dependents', indeg')
    /\ (forall m, dict_get indeg' m =
                  if String.eqb n m then Some (v + Z.of_nat (List.length deps))%Z
                  else dict_get indeg m)
    /\ dict_keys indeg' = dict_keys indeg
    /\ (forall m d, In m (succs dependents' d) <->
                    In m (succs dependents d) \/ (m = n /\ In d deps))
    /\ ((forall d, NoDup (succs dependents d)) ->
        forall d, NoDup (succs dependents' d)).
Proof.
  induction deps as [|dep deps IH]; intros dependents indeg v Hv; simpl.
  - exists dependents, indeg. split; [reflexivity|]. split; [|split; [reflexivity|split]].
    + intros m. destruct (String.eqb_spec n m) as [<-|Hd]; [|reflexivity].
      rewrite Hv. f_equal. lia.
    + intros m d. tauto.
    + auto.
  - rewrite Hv. simpl.
    destruct (IH (defaultdict_add dependents dep n)
                 (dict_set indeg n (v + 1)%Z) (v + 1)%Z)
      as [dependents' [indeg' [R [A [B [C D]]]]]].
    { apply dict_get_set_same. }
    exists dependents', indeg'. split; [exact R|]. split; [|split; [|split]].
    + intros m. rewrite A, dict_get_set.
      destruct (String.eqb_spec n m); [f_equal; lia | reflexivity].
    + rewrite B. eapply dict_keys_set_same; eassumption.
    + intros m d. rewrite C, succs_defaultdict_add.
      destruct (String.eqb_spec dep d) as [->|Hd].
      * rewrite set_add_In. tauto.
      * split; [intros [H|[H1 H2]]; auto | intros [H|[H1 [H2|H2]]]; auto].
        contradiction.
    + intros Hnd. apply D. intros d. rewrite succs_defaultdict_add.
      destruct (String.eqb dep d); [apply set_add_NoDup|]; apply Hnd.
Qed.

Lemma count_all_spec : forall (items : graph) dependents indeg,
  NoDup (dict_keys items) ->
  (forall k, In k (dict_keys items) -> In k (dict_keys indeg)) ->
  exists dependents' indeg',
    count_all items dependents indeg = Some (dependents', indeg')
    /\ (forall m, In m (dict_keys items) -> forall v,
          dict_get indeg m = Some v ->
          dict_get indeg' m = Some (v + Z.of_nat (List.length (succs items m)))%Z)
    /\ dict_keys indeg' = dict_keys indeg
    /\ (forall m d, In m (succs dependents' d) <->
                    In m (succs dependents d) \/ In d (succs items m))
    /\ ((forall d, NoDup (succs dependents d)) ->
        forall d, NoDup (succs dependents' d)).
Proof.
  induction items as [|[n deps] items IH]; intros dependents indeg Hnd Hk; simpl.
  - exists dependents, indeg. split; [reflexivity|]. split; [intros m []|].
    split; [reflexivity|]. split; [|auto].
    intros m d. unfold succs. simpl. tauto.
  - inversion Hnd as [|? ? Hn Hnd']; subst.
    assert (Hkn : exists v, dict_get indeg n = Some v).
    { assert (H : In n (dict_keys indeg)) by (apply Hk; now left).
      apply dict_mem_keys in H. unfold dict_mem in H.
      destruct (dict_get indeg n); eauto; discriminate. }
    destruct Hkn as [v Hv].
    destruct (count_deps_spec n deps dependents indeg v Hv)
      as [dep1 [ind1 [R1 [A1 [B1 [C1 D1]]]]]].
    rewrite R1. simpl.
    destruct (IH dep1 ind1 Hnd') as [dep2 [ind2 [R2 [A2 [B2 [C2 D2]]]]]].
    { intros k Hki. rewrite B1. apply Hk. now right. }
    exists dep2, ind2. split; [exact R2|]. split; [|split; [congruence|split]].
    + intros m Hm v' Hv'. unfold succs. simpl.
      destruct (String.eqb_spec n m) as [<-|Hd].
      * assert (E : dict_get ind2 n = dict_get ind1 n).
        { clear - R2 Hn. revert dep1 ind1 R2.
          induction items as [|[k ds] items IH]; intros dep1 ind1 R2; simpl in *.
          - now injection R2 as <- <-.
          - destruct (count_deps k ds dep1 ind1) as [[dq iq]|] eqn:Q; [|discriminate].
            simpl in R2.
            assert (Hkn : k <> n) by (intros ->; apply Hn; now left).
            assert (Ek : dict_get iq n = dict_get ind1 n).
            { clear - Q Hkn. revert dep1 ind1 Q.
              induction ds as [|d ds IHd]; intros dep1 ind1 Q; simpl in Q.
              - now injection Q as <- <-.
              - destruct (dict_get ind1 k) as [vk|]; [|discriminate]. simpl in Q.
                rewrite (IHd _ _ Q). now apply dict_get_set_other. }
            rewrite <- Ek. apply IH with (dep1 := dq); [|assumption].
            intros Hi. apply Hn. now right. }
        rewrite E, A1, String.eqb_refl. congruence.
      * destruct Hm as [Hm|Hm]; [contradiction|].
        apply (A2 m Hm). rewrite A1.
        destruct (String.eqb_spec n m); [contradiction | assumption].
    + intros m d. rewrite C2, C1. unfold succs at 4. simpl.
      destruct (String.eqb_spec n m) as [<-|Hd].
      * assert (E : succs items n = []).
        { unfold succs. destruct (dict_get items n) eqn:Q; [|reflexivity].
          exfalso. apply Hn. apply dict_mem_keys. unfold dict_mem. now rewrite Q. }
        rewrite E. simpl. split; [intros [[H|[_ H]]|[]]; auto | intros [H|H]; auto].
      * fold (succs items m). intuition congruence.
    + auto.
Qed.

Lemma relax_spec (old new : node -> Z) : forall ds indeg heap,
  NoDup ds ->
  (forall m, In m ds -> dict_get indeg m = Some (old m)
                        /\ new m = (old m - 1)%Z) ->
  exists indeg' heap',
    relax ds indeg heap = Some (indeg', heap')
    /\ (forall m, dict_get indeg' m =
                  if set_mem m ds then Some (new m) else dict_get indeg m)
    /\ (forall x, In x heap' <-> In x heap \/ (In x ds /\ new x = 0%Z))
    /\ (NoDup heap -> (forall x, In x ds -> ~ In x heap) -> NoDup heap').
Proof.
  induction ds as [|d ds IH]; intros indeg heap Hnd H; simpl.
  - exists indeg, heap. split; [reflexivity|]. split; [reflexivity|].
    split; [intros x; tauto | auto].
  - inversion Hnd as [|? ? Hd Hnd']; subst.
    destruct (H d (or_introl eq_refl)) as [Hv Hn]. rewrite Hv. simpl.
    assert (Hrest : forall m, In m ds ->
              dict_get (dict_set indeg d (old d - 1)%Z) m = Some (old m)
              /\ new m = (old m - 1)%Z).
    { intros m Hm. destruct (H m (or_intror Hm)) as [A B]. split; [|exact B].
      rewrite dict_get_set_other; [exact A|]. intros ->. contradiction. }
    assert (Hset : forall m,
              (if set_mem m ds then Some (new m)
               else dict_get (dict_set indeg d (old d - 1)%Z) m)
              = (if String.eqb m d || set_mem m ds then Some (new m)
                 else dict_get indeg m)).
    { intros m. destruct (set_mem m ds) eqn:E; [now rewrite orb_true_r|].
      rewrite orb_false_r, dict_get_set, String.eqb_sym.
      destruct (String.eqb_spec m d) as [->|]; [now rewrite Hn | reflexivity]. }
    destruct (Z.eqb_spec (old d - 1) 0) as [Ez|Ez].
    + destruct (IH (dict_set indeg d (old d - 1)%Z) (heappush heap d) Hnd' Hrest)
        as [indeg' [heap' [R [A [B C]]]]].
      exists indeg', heap'. split; [exact R|]. split; [|split].
      * intros m. rewrite A. apply Hset.
      * intros x. rewrite B. unfold heappush. rewrite insert_sorted_In.
        split.
        -- intros [[->|Hx]|[Hx Hz]]; auto. right. split; [now left | congruence].
        -- intros [Hx|[[<-|Hx] Hz]]; auto.
      * intros Hh Hdis. apply C.
        -- unfold heappush.
           eapply Permutation_NoDup; [symmetry; apply insert_sorted_perm|].
           constructor; [apply Hdis; now left | assumption].
        -- intros x Hx Hi. unfold heappush in Hi. apply insert_sorted_In in Hi.
           destruct Hi as [->|Hi]; [contradiction|].
           apply (Hdis x); [now right | assumption].
    + destruct (IH (dict_set indeg d (old d - 1)%Z) heap Hnd' Hrest)
        as [indeg' [heap' [R [A [B C]]]]].
      exists indeg', heap'. split; [exact R|]. split; [|split].
      * intros m. rewrite A. apply Hset.
      * intros x. rewrite B. split.
        -- intros [Hx|[Hx Hz]]; auto.
        -- intros [Hx|[[<-|Hx] Hz]]; auto. exfalso. apply Ez. congruence.
      * intros Hh Hdis. apply C; [assumption|].
        intros x Hx. apply Hdis. now right.
Qed.

Lemma deps_first_pending g res m :
  deps_first g res -> In m res -> pending g res m = 0%Z.
Proof.
  intros H Hm. apply pending_zero. intros d Hd.
  apply in_split in Hm. destruct Hm as [l1 [l2 E]].
  rewrite E. apply in_or_app. left. eapply H; eassumption.
Qed.

Section Drain.
Variable g : graph.
Hypothesis g_normal : normal g.
Variable dependents : dict (list node).
Hypothesis dependents_spec :
  forall m d, In m (succs dependents d) <-> In d (succs g m).
Hypothesis dependents_nodup : forall d, NoDup (succs dependents d).

Lemma succs_NoDup m : NoDup (succs g m).
Proof.
  unfold succs. destruct (dict_get g m) eqn:E; [|constructor].
  apply dict_get_In in E. destruct g_normal as [[_ W] _]. eapply W; eassumption.
Qed.

Lemma drain_step indeg n heap res :
  drain_inv g indeg (n :: heap) res ->
  exists indeg' heap',
    relax (sorted (succs dependents n)) indeg heap = Some (indeg', heap')
    /\ drain_inv g indeg' heap' (res ++ [n]).
Proof.
  intros [Ddeg Dheap Dready Dnh Dnr Dres Dfirst].
  destruct (Dheap n (or_introl eq_refl)) as [Hnk [Hn0 Hnr]].
  inversion Dnh as [|? ? Hnh Dnh']; subst.
  destruct (relax_spec (pending g res) (pending g (res ++ [n]))
              (sorted (succs dependents n)) indeg heap)
    as [indeg' [heap' [R [A [B C]]]]].
  - apply sorted_NoDup, dependents_nodup.
  - intros m Hm. apply sorted_In, dependents_spec in Hm. split.
    + apply Ddeg. eapply succs_In_key; eassumption.
    + apply pending_snoc_dep; auto using succs_NoDup.
  - exists indeg', heap'. split; [exact R|].
    assert (Hdep : forall m, set_mem m (sorted (succs dependents n)) = true
                             <-> In n (succs g m)).
    { intros m. rewrite set_mem_In, sorted_In. apply dependents_spec. }
    assert (Hnew : forall m, In n (succs g m) ->
                     pending g (res ++ [n]) m = (pending g res m - 1)%Z).
    { intros m Hm. apply pending_snoc_dep; auto using succs_NoDup. }
    constructor.
    + intros m Hm. rewrite A.
      destruct (set_mem m (sorted (succs dependents n))) eqn:E; [reflexivity|].
      rewrite (Ddeg m Hm). f_equal. symmetry. apply pending_snoc_other.
      intros Hi. apply Hdep in Hi. congruence.
    + intros m Hm. apply B in Hm. destruct Hm as [Hm|[Hm Hz]].
      * destruct (Dheap m (or_intror Hm)) as [H1 [H2 H3]].
        split; [assumption|]. split.
        -- pose proof (pending_snoc_le g res n m).
           pose proof (pending_nonneg g (res ++ [n]) m). lia.
        -- intros Hi. apply in_app_or in Hi. destruct Hi as [Hi|[<-|[]]];
             contradiction.
      * apply sorted_In, dependents_spec in Hm.
        split; [eapply succs_In_key; eassumption|]. split; [assumption|].
        pose proof (Hnew m Hm) as Hd.
        intros Hi. apply in_app_or in Hi. destruct Hi as [Hi|[<-|[]]].
        -- pose proof (deps_first_pending g res m Dfirst Hi). lia.
        -- lia.
    + intros m Hm Hz.
      destruct (set_mem m (sorted (succs dependents n))) eqn:E.
      * left. apply B. right. split; [now apply set_mem_In | assumption].
      * assert (Hsame : pending g (res ++ [n]) m = pending g res m).
        { apply pending_snoc_other. intros Hi. apply Hdep in Hi. congruence. }
        rewrite Hsame in Hz. destruct (Dready m Hm Hz) as [[<-|H]|H].
        -- right. apply in_or_app. right. now left.
        -- left. apply B. now left.
        -- right. apply in_or_app. now left.
    + apply C; [assumption|]. intros x Hx Hi.
      apply sorted_In, dependents_spec in Hx.
      destruct (Dheap x (or_intror Hi)) as [_ [H2 _]].
      pose proof (Hnew x Hx) as E. pose proof (pending_nonneg g (res ++ [n]) x) as E0.
      rewrite E, H2 in E0. lia.
    + apply NoDup_app; [assumption | repeat constructor; intros [] |].
      intros a Ha [<-|[]]. contradiction.
    + intros m Hm. apply in_app_or in Hm. destruct Hm as [Hm|[<-|[]]]; auto.
    + apply deps_first_snoc; [assumption|]. now apply pending_zero.
Qed.

Lemma drain_total : forall fuel indeg heap res,
  drain_inv g indeg heap res ->
  List.length (dict_keys g) < List.length res + fuel ->
  exists out indeg',
    drain fuel dependents indeg heap res = Some out
    /\ drain_inv g indeg' [] out.
Proof.
  induction fuel as [|f IH]; intros indeg heap res D Hf.
  - destruct heap as [|n heap]; simpl; [eauto|].
    exfalso. pose proof (NoDup_incl_length (di_nodup_res D) (di_res D)).
    unfold node in *. lia.
  - destruct heap as [|n heap]; simpl; [eauto|].
    destruct (drain_step indeg n heap res D) as [indeg' [heap' [R D']]].
    rewrite R. simpl. apply (IH indeg' heap' (res ++ [n]) D').
    rewrite length_app. simpl. unfold node in *. lia.
Qed.

(** On an acyclic graph the queue drains every node. *)
Lemma drain_complete indeg out :
  acyclic g -> drain_inv g indeg [] out ->
  forall m, In m (dict_keys g) -> In m out.
Proof.
  intros [rank Hrank] D.
  assert (H : forall k m, rank m < k -> In m (dict_keys g) -> In m out).
  { induction k as [|k IH]; intros m Hk Hm; [lia|].
    destruct (di_ready D m Hm) as [[]|H]; [|assumption].
    apply pending_zero. intros d Hd. apply IH.
    - specialize (Hrank m d Hd). lia.
    - destruct g_normal as [_ C]. unfold succs in Hd.
      destruct (dict_get g m) eqn:E; [|destruct Hd].
      apply dict_get_In in E. eapply C; eassumption. }
  intros m. apply (H (S (rank m))). lia.
Qed.
End Drain.

Lemma init_degree_spec : forall (ks : list node) (acc : dict Z),
  (forall m, dict_get (fold_left (fun d n => dict_set d n 0%Z) ks acc) m
             = if set_mem m ks then Some 0%Z else dict_get acc m)
  /\ (NoDup (dict_keys acc) ->
      NoDup (dict_keys (fold_left (fun d n => dict_set d n 0%Z) ks acc))).
Proof.
  induction ks as [|k ks IH]; intros acc; simpl.
  - split; auto.
  - destruct (IH (dict_set acc k 0%Z)) as [A B]. split.
    + intros m. rewrite A, dict_get_set, String.eqb_sym.
      destruct (String.eqb m k); simpl; [|reflexivity].
      now destruct (set_mem m ks).
    + intros H. apply B. now apply dict_set_NoDup.
Qed.

Lemma NoDup_keys_filter (V : Type) (f : string * V -> bool) (d : dict V) :
  NoDup (dict_keys d) -> NoDup (map fst (filter f d)).
Proof.
  unfold dict_keys. induction d as [|[k v] d IH]; simpl; intros H; [constructor|].
  inversion H; subst. destruct (f (k, v)); simpl; auto.
  constructor; auto. intros Hi. apply H2.
  apply in_map_iff in Hi. destruct Hi as [[k' v'] [E Hi]]. simpl in E. subst k'.
  apply filter_In in Hi. destruct Hi as [Hi _].
  apply in_map_iff. exists (k, v'). auto.
Qed.

Lemma dict_get_keys (V : Type) (d : dict V) k :
  In k (dict_keys d) <-> exists v, dict_get d k = Some v.
Proof.
  rewrite <- dict_mem_keys. unfold dict_mem.
  destruct (dict_get d k); split; intros H; eauto; try discriminate.
  destruct H; discriminate.
Qed.

Lemma sorted_nil_filter (f : node -> bool) (l : list node) :
  (forall x, In x l -> f x = false) -> sorted (filter f l) = [].
Proof.
  intros H. induction l as [|a l IH]; simpl; [reflexivity|].
  rewrite (H a (or_introl eq_refl)). apply IH. intros x Hx. apply H. now right.
Qed.

(** The order computed on a resolved graph: the drained nodes, each after
    all of its dependencies, followed by the undrained ones in ascending
    order; on an acyclic graph every node is drained. *)
Lemma kahn_spec g :
  normal g ->
  exists drained remaining,
    kahn g = Some (drained ++ remaining)
    /\ deps_first g drained
    /\ Sorted str_le remaining
    /\ NoDup (drained ++ remaining)
    /\ (forall x, In x (drained ++ remaining) <-> In x (dict_keys g))
    /\ (forall x, In x remaining -> ~ In x drained)
    /\ (acyclic g -> remaining = []).
Proof.
  intros N. pose proof N as [[Wk Ws] C]. unfold kahn.
  destruct (init_degree_spec (dict_keys g) []) as [I1 I2].
  set (in_degree0 := fold_left (fun d n => dict_set d n 0%Z) (dict_keys g) []) in *.
  assert (K0 : forall k, In k (dict_keys g) -> In k (dict_keys in_degree0)).
  { intros k Hk. apply dict_get_keys. exists 0%Z. rewrite I1.
    apply set_mem_In in Hk. now rewrite Hk. }
  destruct (count_all_spec g [] in_degree0 Wk K0)
    as [dependents [indeg [R [A [B [Cd Dd]]]]]].
  rewrite R. cbn [bind].
  assert (Hdeg : forall m, In m (dict_keys g) ->
                   dict_get indeg m = Some (pending g [] m)).
  { intros m Hm. rewrite pending_nil.
    rewrite (A m Hm 0%Z); [reflexivity|].
    rewrite I1. apply set_mem_In in Hm. now rewrite Hm. }
  assert (Hkeys : forall m, In m (dict_keys indeg) -> In m (dict_keys g)).
  { intros m Hm. rewrite B in Hm. apply dict_get_keys in Hm.
    destruct Hm as [v Hv]. rewrite I1 in Hv.
    destruct (set_mem m (dict_keys g)) eqn:E; [now apply set_mem_In|discriminate]. }
  assert (Hnd : NoDup (dict_keys indeg)).
  { rewrite B. apply I2. constructor. }
  set (heap := heapify (map fst (filter (fun it => Z.eqb (snd it) 0) indeg))).
  assert (Hheap : forall x, In x heap <-> dict_get indeg x = Some 0%Z).
  { intros x. unfold heap, heapify. rewrite sorted_In, in_map_iff. split.
    - intros [[k v] [E Hi]]. simpl in E. subst k. apply filter_In in Hi.
      destruct Hi as [Hi Hz]. simpl in Hz. apply Z.eqb_eq in Hz. subst v.
      now apply In_dict_get.
    - intros H. exists (x, 0%Z). split; [reflexivity|]. apply filter_In.
      split; [now apply dict_get_In | reflexivity]. }
  assert (D0 : drain_inv g indeg heap []).
  { constructor.
    - exact Hdeg.
    - intros m Hm. apply Hheap in Hm.
      assert (Hk : In m (dict_keys g)).
      { apply Hkeys. apply dict_get_keys. eauto. }
      split; [assumption|]. split; [|intros []].
      rewrite (Hdeg m Hk) in Hm. congruence.
    - intros m Hm Hz. left. apply Hheap. rewrite (Hdeg m Hm). now rewrite Hz.
    - unfold heap, heapify. apply sorted_NoDup. now apply NoDup_keys_filter.
    - constructor.
    - intros m [].
    - apply deps_first_nil. }
  destruct (drain_total g N dependents) with (fuel := S (List.length g))
    (indeg := indeg) (heap := heap) (res := @nil node)
    as [out [indeg' [Rd D]]].
  { intros m d. rewrite Cd. unfold succs at 1. simpl. tauto. }
  { apply Dd. intros d. unfold succs. simpl. constructor. }
  { exact D0. }
  { unfold dict_keys. rewrite length_map. simpl. lia. }
  fold heap. rewrite Rd. cbn [bind].
  assert (Hcomplete : acyclic g -> forall m, In m (dict_keys g) -> In m out).
  { intros Ha. eapply drain_complete; eassumption. }
  assert (Hlen : List.length (dict_keys g) = List.length g).
  { unfold dict_keys. apply length_map. }
  destruct (Nat.eqb_spec (List.length out) (List.length g)) as [El|El]; simpl.
  - exists out, []. rewrite app_nil_r. split; [reflexivity|].
    split; [exact (di_first D)|]. split; [constructor|].
    split; [exact (di_nodup_res D)|]. split; [|split; [intros x []| reflexivity]].
    intros x. split; [apply (di_res D)|].
    apply (NoDup_length_incl (di_nodup_res D)); [|exact (di_res D)].
    unfold node in *. lia.
  - set (rem := filter (fun n => negb (set_mem n (set_of out))) (dict_keys g)).
    assert (Hrem : forall x, In x rem <-> In x (dict_keys g) /\ ~ In x out).
    { intros x. unfold rem. rewrite filter_In, negb_true_iff, set_mem_set_of.
      now rewrite set_mem_false. }
    exists out, (sorted rem). split; [reflexivity|].
    split; [exact (di_first D)|]. split; [apply sorted_Sorted|].
    split; [|split; [|split]].
    + apply NoDup_app; [exact (di_nodup_res D)| |].
      * apply sorted_NoDup. unfold rem. now apply NoDup_filter.
      * intros a Ha Hb. apply sorted_In, Hrem in Hb. tauto.
    + intros x. rewrite in_app_iff, sorted_In, Hrem. split.
      * intros [H|[H _]]; [now apply (di_res D) | assumption].
      * intros H. destruct (in_dec string_dec x out); auto.
    + intros x Hx. apply sorted_In, Hrem in Hx. tauto.
    + intros Ha. unfold rem. apply sorted_nil_filter. intros x Hx.
      apply negb_false_iff. rewrite set_mem_set_of. apply set_mem_In.
      now apply Hcomplete.
Qed.

(** ** Dependency-first depth traversal *)

Section Dfs.
Variable g : graph.
Hypothesis g_closed : closed g.
Variable rank : node -> nat.

Lemma dfs_post_nil st : dfs_inv g st -> dfs_post g rank [] st st.
Proof.
  intros I. constructor; auto.
  - intros d [].
  - intros _ H _. split; [assumption | intros d []].
Qed.

Lemma dfs_post_cons d ds st st1 st2 :
  dfs_post g rank [d] st st1 -> dfs_post g rank ds st1 st2 ->
  dfs_post g rank (d :: ds) st st2.
Proof.
  intros [A1 A2 A3 A4 A5] [B1 B2 B3 B4 B5]. constructor.
  - assumption.
  - congruence.
  - auto.
  - intros x [Hx|Hx].
    + subst x. destruct (A4 d (or_introl eq_refl)); auto.
    + rewrite <- A2. auto.
  - intros Hr Hf Hv.
    destruct (A5 Hr Hf) as [C1 C2].
    { intros x y [<-|[]] Hy. apply Hv; [now left | assumption]. }
    destruct (B5 Hr C1) as [C3 C4].
    { intros x y Hx Hy. rewrite A2 in Hy. apply Hv; [now right | assumption]. }
    split; [assumption|]. intros x [Hx|Hx]; auto.
    subst x. apply B3, C2. now left.
Qed.

Section Loop.
Variable f : nat.
Hypothesis IH : forall n st,
  dfs_inv g st -> In n (dict_keys g) ->
  List.length (dict_keys g) < List.length (visiting st) + f ->
  exists st', dfs f g n st = Some st' /\ dfs_post g rank [n] st st'.

Lemma for_deps_total : forall ds st,
  dfs_inv g st -> (forall d, In d ds -> In d (dict_keys g)) ->
  List.length (dict_keys g) < List.length (visiting st) + f ->
  exists st', for_deps (dfs f g) ds st = Some st' /\ dfs_post g rank ds st st'.
Proof.
  induction ds as [|d ds IHds]; intros st I Hk Hf; simpl.
  - exists st. split; [reflexivity | now apply dfs_post_nil].
  - destruct (IH d st I (Hk d (or_introl eq_refl)) Hf) as [st1 [R1 P1]].
    rewrite R1. simpl.
    destruct (IHds st1 (dp_inv P1)) as [st2 [R2 P2]].
    + intros x Hx. apply Hk. now right.
    + now rewrite (dp_visiting P1).
    + exists st2. split; [assumption|]. eapply dfs_post_cons; eassumption.
Qed.
End Loop.

Lemma dfs_total : forall fuel n st,
  dfs_inv g st -> In n (dict_keys g) ->
  List.length (dict_keys g) < List.length (visiting st) + fuel ->
  exists st', dfs fuel g n st = Some st' /\ dfs_post g rank [n] st st'.
Proof.
  induction fuel as [|f IHf]; intros n st I Hk Hf.
  - exfalso.
    pose proof (NoDup_incl_length (dv_visiting_nodup I) (dv_visiting_keys I)).
    unfold node in *. lia.
  - simpl. destruct (set_mem n (visited st)) eqn:E1.
    { apply set_mem_In in E1. exists st. split; [reflexivity|].
      constructor; auto.
      - intros d [<-|[]]. now left.
      - intros _ H _. split; [assumption|]. intros d [<-|[]]. assumption. }
    destruct (set_mem n (visiting st)) eqn:E2.
    { apply set_mem_In in E2. exists st. split; [reflexivity|].
      constructor; auto.
      - intros d [<-|[]]. now right.
      - intros _ _ H. exfalso.
        specialize (H n n (or_introl eq_refl) E2). lia. }
    apply set_mem_false in E1. apply set_mem_false in E2.
    set (st1 := mkDfs (visited st) (set_add n (visiting st)) (order st)).
    assert (Ev : visiting st1 = visiting st ++ [n]).
    { simpl. now apply set_add_fresh. }
    assert (I1 : dfs_inv g st1).
    { destruct I as [A B C D E F]. constructor; simpl; auto.
      - now apply set_add_NoDup.
      - intros x Hx. apply set_add_In in Hx. destruct Hx as [->|Hx]; auto.
      - intros x Hx. apply set_add_In in Hx. destruct Hx as [->|Hx]; auto. }
    destruct (for_deps_total f IHf (sorted (succs g n)) st1 I1)
      as [stL [RL PL]].
    { intros d Hd. rewrite sorted_In in Hd. exact (succs_keys g g_closed n d Hd). }
    { rewrite Ev, length_app. simpl. unfold node in *. lia. }
    rewrite RL. simpl.
    pose proof (dp_visiting PL) as EvL. rewrite Ev in EvL.
    assert (En : set_mem n (visiting stL) = true).
    { apply set_mem_In. rewrite EvL. apply in_or_app. right. now left. }
    rewrite En.
    assert (HnL : ~ In n (visited stL)).
    { apply (dv_disjoint (dp_inv PL)). now apply set_mem_In. }
    eexists. split; [reflexivity|].
    destruct (dp_inv PL) as [A B C D E F].
    assert (Erem : set_remove n (visiting stL) = visiting st).
    { rewrite (dp_visiting PL). unfold st1. simpl. now apply set_remove_add. }
    constructor; simpl.
    + constructor; simpl.
      * apply NoDup_app; [assumption | repeat constructor; intros [] |].
        intros a Ha [<-|[]]. apply HnL. now apply B.
      * intros x. rewrite in_app_iff, set_add_In, B. simpl. intuition.
      * intros x Hx. apply set_add_In in Hx. destruct Hx as [->|Hx]; auto.
      * rewrite Erem. exact (dv_visiting_nodup I).
      * rewrite Erem. exact (dv_visiting_keys I).
      * rewrite Erem. intros x Hx Hv. apply set_add_In in Hv.
        destruct Hv as [->|Hv]; [contradiction|].
        apply (F x); [|assumption]. rewrite EvL. apply in_or_app. now left.
    + exact Erem.
    + intros x Hx. apply set_add_In. right. now apply (dp_mono PL).
    + intros d [<-|[]]. left. apply set_add_In. now left.
    + intros Hr Hfirst Hv.
      destruct (dp_first PL Hr Hfirst) as [C1 C2].
      { intros d x Hd Hx. rewrite sorted_In in Hd. specialize (Hr n d Hd).
        simpl in Hx. apply set_add_In in Hx. destruct Hx as [->|Hx]; [assumption|].
        specialize (Hv n x (or_introl eq_refl) Hx). lia. }
      split.
      * apply deps_first_snoc; [assumption|]. intros d Hd.
        apply B. apply C2. now apply sorted_In.
      * intros d [<-|[]]. apply set_add_In. now left.
Qed.

End Dfs.

Lemma dfs_init_inv g : dfs_inv g (mkDfs [] [] []).
Proof. constructor; simpl; try tauto; constructor. Qed.

(** The postorder on a closed graph lists every node once; on an acyclic
    graph each node comes after all of its dependencies. *)
Lemma postorder_spec g :
  normal g ->
  exists l, postorder g = Some l
    /\ NoDup l
    /\ (forall x, In x l <-> In x (dict_keys g))
    /\ (acyclic g -> deps_first g l).
Proof.
  intros [W C].
  assert (Hres : forall rank, exists st,
            for_deps (dfs (S (List.length g)) g) (sorted (dict_keys g))
                     (mkDfs [] [] []) = Some st
            /\ dfs_post g rank (sorted (dict_keys g)) (mkDfs [] [] []) st).
  { intros rank.
    apply (for_deps_total g rank (S (List.length g))
             (dfs_total g C rank (S (List.length g)))).
    - apply dfs_init_inv.
    - intros d Hd. rewrite sorted_In in Hd. exact Hd.
    - simpl. unfold dict_keys. rewrite length_map. lia. }
  destruct (Hres (fun _ => 0)) as [st [R P]].
  unfold postorder. rewrite R. simpl. exists (order st).
  split; [reflexivity|]. split; [exact (dv_nodup (dp_inv P))|]. split.
  - intros x. rewrite (dv_order (dp_inv P)). split.
    + apply (dv_keys (dp_inv P)).
    + intros Hx.
      assert (Hs : In x (sorted (dict_keys g))) by (rewrite sorted_In; exact Hx).
      destruct (dp_done P x Hs) as [H|H]; [exact H | destruct H].
  - intros [rank Hrank]. destruct (Hres rank) as [st' [R' P']].
    assert (st' = st) by congruence. subst st'.
    destruct (dp_first P' Hrank) as [H _]; [apply deps_first_nil | intros d x _ [] | exact H].
Qed.

(** ** The two orderings *)

Lemma resolve_cycles_total G : exists g', resolve_cycles G = Some g'.
Proof.
  destruct (resolve_cycles_log_spec G) as [g' [removed [res [H1 _]]]].
  exists g'. unfold resolve_cycles. now rewrite H1.
Qed.

Lemma resolve_cycles_normal G g' :
  resolve_cycles G = Some g' ->
  normal g' /\ _normalize_graph g' = g'
  /\ dict_keys g' = dict_keys (_normalize_graph G).
Proof.
  intros H.
  destruct (resolve_cycles_log_spec G) as [g1 [removed [res [H1 [H2 [H3 _]]]]]].
  unfold resolve_cycles in H. rewrite H1 in H. simpl in H. injection H as <-.
  split; [assumption|]. split.
  - destruct H2. now apply normalize_id.
  - exact (sub_keys H3).
Qed.

Lemma deps_first_before g l a b :
  deps_first g l -> In a l -> In b (succs g a) -> before b a l.
Proof.
  intros H Ha Hb. apply in_split in Ha. destruct Ha as [l1 [l3 E]].
  pose proof (H l1 a l3 E b Hb) as Hl. apply in_split in Hl.
  destruct Hl as [l0 [l2 E']]. exists l0, l2, l3. rewrite E, E'.
  rewrite <- app_assoc. reflexivity.
Qed.

Lemma before_index_of b a l :
  NoDup l -> before b a l -> index_of b l < index_of a l.
Proof.
  intros Hnd [l1 [l2 [l3 E]]]. subst l.
  assert (Hb : ~ In b l1).
  { apply NoDup_remove_2 in Hnd. intros H. apply Hnd. apply in_or_app. now left. }
  rewrite (index_of_first b l1 _ Hb).
  replace (l1 ++ b :: l2 ++ a :: l3) with ((l1 ++ b :: l2) ++ a :: l3) in *
    by (rewrite <- app_assoc; reflexivity).
  assert (Ha : ~ In a (l1 ++ b :: l2)).
  { apply NoDup_remove_2 in Hnd. intros H. apply Hnd. apply in_or_app. now left. }
  rewrite (index_of_first a _ _ Ha). rewrite length_app. simpl. lia.
Qed.

(** C10: on every graph, converging or not, both orderings return, and
    each lists every node of the resolved, normalised graph exactly once;
    the topological order consists of the drained nodes, each after all of
    its dependencies, followed by the undrained nodes in ascending
    order. *)
Theorem orderings_list_every_node_once (G : graph) :
  exists g' lt ld,
    resolve_cycles G = Some g'
    /\ topological_sort G = Some lt
    /\ dependency_first_dfs G = Some ld
    /\ NoDup lt /\ NoDup ld
    /\ (forall x, In x lt <-> In x (dict_keys (_normalize_graph g')))
    /\ (forall x, In x ld <-> In x (dict_keys (_normalize_graph g')))
    /\ exists drained undrained,
         lt = drained ++ undrained
         /\ deps_first g' drained
         /\ Sorted str_le undrained.
Proof.
  destruct (resolve_cycles_total G) as [g' R].
  destruct (resolve_cycles_normal G g' R) as [N [E _]].
  destruct (kahn_spec g' N) as [dr [un [K1 [K2 [K3 [K4 [K5 _]]]]]]].
  destruct (postorder_spec g' N) as [ld [P1 [P2 [P3 _]]]].
  exists g', (dr ++ un), ld. rewrite E.
  split; [exact R|]. split; [unfold topological_sort; rewrite R; simpl; now rewrite E|].
  split; [unfold dependency_first_dfs; rewrite R; simpl; now rewrite E|].
  split; [exact K4|]. split; [exact P2|]. split; [exact K5|]. split; [exact P3|].
  exists dr, un. auto.
Qed.

(** C3, as amended: when the detector finds no cycle group in the graph
    that [resolve_cycles] returns, every edge [A -> B] of that graph has
    [B] strictly before [A] in the output of [topological_sort] and in the
    output of [dependency_first_dfs] (each node occurring once). *)
Theorem surviving_edges_respected (G g' : graph) (a b : node) :
  resolve_cycles G = Some g' ->
  detect_cycles g' = Some [] ->
  In b (succs g' a) ->
  exists lt ld,
    topological_sort G = Some lt /\ dependency_first_dfs G = Some ld
    /\ NoDup lt /\ NoDup ld
    /\ before b a lt /\ before b a ld.
Proof.
  intros R D Hab.
  destruct (resolve_cycles_normal G g' R) as [N [E _]].
  assert (A : acyclic g').
  { rewrite <- E. now apply detect_cycles_nil_acyclic. }
  assert (Hk : In a (dict_keys g')) by (eapply succs_In_key; eassumption).
  destruct (kahn_spec g' N) as [dr [un [K1 [K2 [K3 [K4 [K5 [_ K6']]]]]]]].
  destruct (postorder_spec g' N) as [ld [P1 [P2 [P3 P4]]]].
  rewrite (K6' A), app_nil_r in *.
  exists dr, ld.
  split; [unfold topological_sort; rewrite R; simpl; now rewrite E|].
  split; [unfold dependency_first_dfs; rewrite R; simpl; now rewrite E|].
  split; [exact K4|]. split; [exact P2|]. split.
  - apply deps_first_before with (g := g'); auto. now apply K5.
  - apply deps_first_before with (g := g'); auto. now apply P3.
Qed.

Lemma surviving_edges_respected_witness :
  resolve_cycles path3 = Some path3
  /\ detect_cycles path3 = Some []
  /\ In "B" (succs path3 "A")
  /\ exists lt ld,
       topological_sort path3 = Some lt /\ dependency_first_dfs path3 = Some ld
       /\ NoDup lt /\ NoDup ld
       /\ before "B" "A" lt /\ before "B" "A" ld.
Proof.
  split; [reflexivity|]. split; [reflexivity|]. split; [simpl; auto|].
  apply (surviving_edges_respected path3 path3 "A" "B");
    [reflexivity | reflexivity | simpl; auto].
Defined.

(** C3, as stated, fails: on the complete graph on six nodes the round
    bound [max(10, 2 * 6) = 12] is reached with the cycle [{d, e, f}] still
    present; the returned graph keeps the edge [d -> e], yet
    [topological_sort] places [d] before [e]. *)
Lemma surviving_edge_not_respected :
  ~ (forall (G g' : graph) (a b : node) (lt : list node),
       resolve_cycles G = Some g' -> In b (succs g' a) ->
       topological_sort G = Some lt -> before b a lt).
Proof.
  intros H.
  assert (R : resolve_cycles K6 =
    Some [("a", []); ("b", ["a"]); ("c", ["a"; "b"]);
          ("d", ["a"; "b"; "c"; "e"; "f"]); ("e", ["a"; "b"; "c"; "d"; "f"]);
          ("f", ["a"; "b"; "c"; "d"; "e"])]) by (vm_compute; reflexivity).
  assert (T : topological_sort K6 = Some ["a"; "b"; "c"; "d"; "e"; "f"])
    by (vm_compute; reflexivity).
  assert (E : In "e" (succs [("a", []); ("b", ["a"]); ("c", ["a"; "b"]);
          ("d", ["a"; "b"; "c"; "e"; "f"]); ("e", ["a"; "b"; "c"; "d"; "f"]);
          ("f", ["a"; "b"; "c"; "d"; "e"])] "d")) by (simpl; auto 10).
  specialize (H K6 _ "d" "e" _ R E T). apply before_index_of in H.
  - vm_compute in H. lia.
  - repeat constructor; simpl; intuition discriminate.
Qed.

(** ** Selection *)

Lemma select_nonpositive metrics p :
  PrimFloat.leb p 0%float = true -> select_top_percent metrics p = Some [].
Proof. intros H. unfold select_top_percent. now rewrite H. Qed.

Lemma select_everything metrics p :
  PrimFloat.leb p 0%float = false -> PrimFloat.leb 100%float p = true ->
  exists l, select_top_percent metrics p = Some l
            /\ Sorted str_le l /\ Permutation l (dict_keys metrics).
Proof.
  intros H0 H1. unfold select_top_percent. rewrite H0, H1.
  exists (sorted (dict_keys metrics)).
  split; [reflexivity|]. split; [apply sorted_Sorted | apply sorted_perm].
Qed.

Lemma mapM_spec (A B : Type) (f : A -> option B) : forall l ys,
  mapM f l = Some ys -> Forall2 (fun x y => f x = Some y) l ys.
Proof.
  induction l as [|x l IH]; simpl; intros ys H.
  - injection H as <-. constructor.
  - destruct (f x) as [y|] eqn:E; [|discriminate]. simpl in H.
    destruct (mapM f l) as [ys'|]; [|discriminate]. simpl in H.
    injection H as <-. constructor; auto.
Qed.

Lemma insert_by_key_perm x l : Permutation (insert_by_key x l) (x :: l).
Proof.
  induction l as [|y l IH]; simpl; [reflexivity|].
  destruct (key_lt x y); [reflexivity|]. rewrite IH. apply perm_swap.
Qed.

Lemma sorted_by_key_perm l : Permutation (sorted_by_key l) l.
Proof.
  unfold sorted_by_key.
  assert (H : forall acc, Permutation (fold_left (fun acc x => insert_by_key x acc) l acc)
                                      (acc ++ l)).
  { induction l as [|x l IH]; intros acc; simpl.
    - now rewrite app_nil_r.
    - rewrite IH, insert_by_key_perm. simpl. apply Permutation_middle. }
  apply (H []).
Qed.

Lemma ranking_perm metrics ids ranked :
  ranking metrics ids = Some ranked -> Permutation ranked ids.
Proof.
  unfold ranking. destruct (mapM _ ids) as [keys|] eqn:E; [|discriminate].
  simpl. intros [= <-]. apply mapM_spec in E.
  rewrite sorted_by_key_perm.
  assert (map snd keys = ids); [|now subst].
  induction E as [|x y l l' H _ IH]; simpl; [reflexivity|].
  destruct (dict_get metrics x); [|discriminate]. simpl in H.
  injection H as <-. simpl. now f_equal.
Qed.

(** Between the two thresholds the result is a prefix of the ranking, of a
    length clamped to [1 .. N]. *)
Lemma select_prefix metrics p l :
  PrimFloat.leb p 0%float = false -> PrimFloat.leb 100%float p = false ->
  select_top_percent metrics p = Some l ->
  exists k0 ranked,
    py_ceil (PrimFloat.mul (float_of_nat (List.length (dict_keys metrics)))
                           (PrimFloat.div p 100%float)) = Some k0
    /\ ranking metrics (dict_keys metrics) = Some ranked
    /\ Permutation ranked (dict_keys metrics)
    /\ l = firstn (Z.to_nat (Z.max 1 (Z.min k0 (Z.of_nat (List.length metrics))))) ranked
    /\ (metrics <> [] -> 1 <= List.length l <= List.length metrics).
Proof.
  intros H0 H1. unfold select_top_percent. rewrite H0, H1.
  destruct (py_ceil _) as [k0|] eqn:Ek; [|discriminate]. simpl.
  destruct (ranking metrics (dict_keys metrics)) as [ranked|] eqn:Er; [|discriminate].
  simpl. intros [= <-]. exists k0, ranked.
  pose proof (ranking_perm _ _ _ Er) as Hp.
  assert (Hl : List.length (dict_keys metrics) = List.length metrics)
    by (unfold dict_keys; apply length_map).
  rewrite Hl. split; [reflexivity|]. split; [reflexivity|]. split; [assumption|].
  split; [reflexivity|]. intros Hne.
  apply Permutation_length in Hp. rewrite Hl in Hp.
  rewrite length_firstn. rewrite Hp.
  assert (0 < List.length metrics) by (destruct metrics; [congruence | simpl; lia]).
  lia.
Qed.

(** C7 (the code departs from the claim): asked for the top 7 percent of
    one hundred components, [select_top_percent] keeps eight of them,
    because the product [100 * (7 / 100.0)] is rounded to
    [7.000000000000001] before the ceiling is taken; [ceil(100 * 7 / 100)]
    is 7. *)
Theorem select_seven_percent_of_hundred :
  option_map (@List.length string) (select_top_percent hundred_metrics 7%float)
  = Some 8
  /\ exact_ceil_percent 100 7 = 7%Z.
Proof. split; vm_compute; reflexivity. Qed.

(** ** Betweenness *)

(** C5: in exact mode ([samples = 0]) on the path graph with the edges
    [A -> B] and [B -> C], whatever the order in which the dict iterates,
    the betweenness of [B] is strictly positive and those of [A] and [C]
    are exactly [0.0]. *)
Theorem path_betweenness (sample : Z -> nat -> nat -> list nat) (seed : Z) :
  Forall (path_betweenness_ok sample seed) (orders path3).
Proof.
  unfold orders, path3. simpl.
  repeat constructor;
    (unfold path_betweenness_ok;
     eexists; eexists; eexists; eexists;
     split; [vm_compute; reflexivity|];
     split; [vm_compute; reflexivity|];
     split; [vm_compute; reflexivity|];
     split; [vm_compute; reflexivity|];
     split; [vm_compute; reflexivity|];
     split; vm_compute; reflexivity).
Qed.

(** ** PageRank: the incoming edges *)

Lemma nodupb_NoDup l : nodupb l = true -> NoDup l.
Proof.
  induction l as [|x l IH]; simpl; intros H; [constructor|].
  apply andb_true_iff in H. destruct H as [H1 H2].
  constructor; [|now apply IH].
  apply negb_true_iff in H1. now apply set_mem_false.
Qed.

Lemma wf_graphb_sound g : wf_graphb g = true -> wf_graph g.
Proof.
  unfold wf_graphb. intros H. apply andb_true_iff in H. destruct H as [H1 H2].
  split; [now apply nodupb_NoDup|].
  intros k ds Hi. rewrite forallb_forall in H2.
  apply nodupb_NoDup. apply (H2 (k, ds) Hi).
Qed.

Lemma closedb_sound g : closedb g = true -> closed g.
Proof.
  unfold closedb. intros H k ds d Hi Hd. rewrite forallb_forall in H.
  specialize (H (k, ds) Hi). simpl in H. rewrite forallb_forall in H.
  apply set_mem_In. now apply H.
Qed.

Lemma succs_dict_set (d : dict (list node)) k v k' :
  succs (dict_set d k v) k' = if String.eqb k k' then v else succs d k'.
Proof.
  unfold succs at 1. rewrite dict_get_set.
  destruct (String.eqb k k'); reflexivity.
Qed.

Lemma in_edges_init_keys (nodes : list node) :
  dict_keys (map (fun nd : node => (nd, @nil node)) nodes) = nodes.
Proof. unfold dict_keys. rewrite map_map. simpl. apply map_id. Qed.

Lemma succs_init (nodes : list node) n :
  succs (map (fun nd : node => (nd, @nil node)) nodes) n = [].
Proof.
  unfold succs. induction nodes as [|m nodes IH]; simpl; [reflexivity|].
  destruct (String.eqb m n); [reflexivity | apply IH].
Qed.

Lemma od_get (g : graph) k :
  dict_get (out_degree_of g) k = option_map (@List.length node) (dict_get g k).
Proof.
  unfold out_degree_of. induction g as [|[k' ds] g' IH]; simpl; [reflexivity|].
  destruct (String.eqb k' k); [reflexivity | apply IH].
Qed.

Lemma od_degree (g : graph) k :
  In k (dict_keys g) -> dict_get (out_degree_of g) k = Some (degree g k).
Proof.
  intros H. rewrite od_get. unfold degree, succs.
  apply dict_get_keys in H. destruct H as [ds E]. now rewrite E.
Qed.

(** [for dst in dsts: in_edges[dst].append(src)] appends [src] to the list
    of every [dst] of the set [dsts]. *)
Lemma add_in_edges_spec src : forall dsts ie,
  NoDup dsts ->
  (forall d, In d dsts -> In d (dict_keys ie)) ->
  exists ie',
    add_in_edges src dsts ie = Some ie'
    /\ dict_keys ie' = dict_keys ie
    /\ forall nd, succs ie' nd
                  = succs ie nd ++ (if set_mem nd dsts then [src] else []).
Proof.
  induction dsts as [|dst dsts IH]; intros ie Hnd Hk; simpl add_in_edges.
  - exists ie. split; [reflexivity|]. split; [reflexivity|].
    intros nd. simpl. now rewrite app_nil_r.
  - assert (Hd : In dst (dict_keys ie)) by (apply Hk; now left).
    pose proof Hd as Hd'. apply dict_get_keys in Hd'. destruct Hd' as [l Hl].
    rewrite Hl. simpl bind.
    assert (Ek : dict_keys (dict_set ie dst (l ++ [src])) = dict_keys ie)
      by now apply dict_keys_set_old.
    inversion Hnd as [|? ? Hx Hnd']; subst.
    destruct (IH (dict_set ie dst (l ++ [src])) Hnd') as [ie' [R [K S]]].
    + intros d Hdi. rewrite Ek. apply Hk. now right.
    + exists ie'. split; [exact R|]. split; [congruence|].
      intros nd. rewrite S, succs_dict_set.
      assert (Em : set_mem nd (dst :: dsts)
                   = (String.eqb dst nd || set_mem nd dsts)%bool).
      { unfold set_mem. simpl. now rewrite String.eqb_sym. }
      rewrite Em.
      destruct (String.eqb_spec dst nd) as [->|Hn]; cbn [orb].
      * apply set_mem_false in Hx. rewrite Hx, app_nil_r.
        unfold succs. now rewrite Hl.
      * reflexivity.
Qed.

(** After [for src, dsts in out_edges.items(): ...] the list of [nd] holds,
    in the order of the items, the keys whose set contains [nd]. *)
Lemma build_in_edges_spec : forall (items : graph) ie,
  (forall k ds, In (k, ds) items -> NoDup ds) ->
  (forall k ds d, In (k, ds) items -> In d ds -> In d (dict_keys ie)) ->
  exists ie',
    build_in_edges items ie = Some ie'
    /\ dict_keys ie' = dict_keys ie
    /\ forall nd, succs ie' nd = succs ie nd ++ sources_of items nd.
Proof.
  induction items as [|[k ds] items IH]; intros ie Hnd Hk; simpl build_in_edges.
  - exists ie. split; [reflexivity|]. split; [reflexivity|].
    intros nd. unfold sources_of. simpl. now rewrite app_nil_r.
  - destruct (add_in_edges_spec k ds ie) as [ie1 [R1 [K1 S1]]].
    { apply (Hnd k ds). now left. }
    { intros d Hd. apply (Hk k ds); [now left | assumption]. }
    rewrite R1. simpl bind.
    destruct (IH ie1) as [ie2 [R2 [K2 S2]]].
    + intros k' ds' Hi. apply (Hnd k' ds'). now right.
    + intros k' ds' d Hi Hd. rewrite K1. apply (Hk k' ds'); [now right | assumption].
    + exists ie2. split; [exact R2|]. split; [congruence|].
      intros nd. rewrite S2, S1, <- app_assoc. f_equal.
      unfold sources_of. cbn [filter snd]. destruct (set_mem nd ds); reflexivity.
Qed.

Lemma sources_keys (g : graph) nd src :
  In src (sources_of g nd) -> In src (dict_keys g).
Proof.
  unfold sources_of. intros H. apply in_map_iff in H.
  destruct H as [[k ds] [<- H]]. apply filter_In in H.
  apply in_map_iff. exists (k, ds). split; [reflexivity | apply H].
Qed.

Lemma sources_degree (g : graph) nd src :
  NoDup (dict_keys g) -> In src (sources_of g nd) -> 0 < degree g src.
Proof.
  unfold sources_of. intros Hnd H. apply in_map_iff in H.
  destruct H as [[k ds] [<- H]]. apply filter_In in H. destruct H as [Hi Hm].
  cbn [fst snd] in *. unfold degree, succs.
  rewrite (In_dict_get _ g k ds Hnd Hi). apply set_mem_In in Hm.
  destruct ds; [destruct Hm | simpl; lia].
Qed.

(** The dict [in_edges] that [compute_pagerank] builds. *)
Lemma in_edges_of (g : graph) :
  wf_graph g -> closed g ->
  exists ie,
    build_in_edges g (map (fun nd : node => (nd, @nil node)) (dict_keys g)) = Some ie
    /\ dict_keys ie = dict_keys g
    /\ forall nd, In nd (dict_keys g) -> dict_get ie nd = Some (sources_of g nd).
Proof.
  intros [Hnd Hsets] Hcl.
  destruct (build_in_edges_spec g (map (fun nd : node => (nd, @nil node)) (dict_keys g)))
    as [ie [E [K S]]].
  - exact Hsets.
  - intros k ds d Hi Hd. rewrite in_edges_init_keys. eapply Hcl; eassumption.
  - rewrite in_edges_init_keys in K. exists ie. split; [exact E|].
    split; [exact K|]. intros nd Hn. rewrite <- K in Hn.
    apply dict_get_keys in Hn. destruct Hn as [l Hl].
    specialize (S nd). unfold succs at 1 in S. rewrite Hl in S.
    rewrite succs_init in S. simpl in S. now rewrite S in Hl.
Qed.

(** ** PageRank: the code computes the power iteration *)

Lemma keys_map_pair (A : Type) (F : node -> A) (ns : list node) :
  dict_keys (map (fun nd => (nd, F nd)) ns) = ns.
Proof. unfold dict_keys. rewrite map_map. simpl. apply map_id. Qed.

Section PageRankSteps.
Context {R : Type} {AR : Arith R}.
Variable g : graph.
Hypothesis Hwf : wf_graph g.
Hypothesis Hcl : closed g.

Lemma keys_uniform : dict_keys (uniform_ranks (R := R) g) = dict_keys g.
Proof. apply keys_map_pair. Qed.

Lemma keys_next_ranks (damping : R) prev :
  dict_keys (next_ranks g damping prev) = dict_keys g.
Proof. apply keys_map_pair. Qed.

Lemma keys_ranks_after (damping : R) k :
  dict_keys (ranks_after g damping k) = dict_keys g.
Proof. destruct k; [apply keys_uniform | apply keys_next_ranks]. Qed.

Section Step.
Variable prev : dict R.
Hypothesis Hprev : dict_keys prev = dict_keys g.
Variable ie : dict (list node).
Hypothesis Hie : forall nd, In nd (dict_keys g) ->
                            dict_get ie nd = Some (sources_of g nd).
Variable damping : R.

Lemma prev_get k : In k (dict_keys g) -> dict_get prev k = Some (rank_of prev k).
Proof.
  intros H. unfold rank_of. rewrite <- Hprev in H.
  apply dict_get_keys in H. destruct H as [v E]. now rewrite E.
Qed.

Lemma dangling_sum_spec : forall ns acc,
  (forall k, In k ns -> In k (dict_keys g)) ->
  dangling_sum (out_degree_of g) prev ns acc
  = Some (fold_left a_add
            (map (rank_of prev) (filter (fun k => Nat.eqb (degree g k) 0) ns))
            acc).
Proof.
  induction ns as [|k ns IH]; intros acc H; simpl dangling_sum; [reflexivity|].
  rewrite (od_degree g k (H k (or_introl eq_refl))). simpl bind.
  cbn [filter]. destruct (Nat.eqb (degree g k) 0).
  - rewrite (prev_get k (H k (or_introl eq_refl))). simpl bind.
    rewrite IH by (intros x Hx; apply H; now right). reflexivity.
  - apply IH. intros x Hx. apply H. now right.
Qed.

Lemma incoming_sum_spec : forall srcs s,
  (forall k, In k srcs -> In k (dict_keys g) /\ 0 < degree g k) ->
  incoming_sum (out_degree_of g) prev srcs s
  = Some (fold_left a_add (map (flow g prev) srcs) s).
Proof.
  induction srcs as [|k srcs IH]; intros s H; simpl incoming_sum; [reflexivity|].
  destruct (H k (or_introl eq_refl)) as [Hk Hd].
  rewrite (od_degree g k Hk). simpl bind.
  apply Nat.ltb_lt in Hd. rewrite Hd.
  rewrite (prev_get k Hk). simpl bind.
  rewrite IH by (intros x Hx; apply H; now right). reflexivity.
Qed.

Lemma new_rank_spec nd :
  In nd (dict_keys g) ->
  new_rank ie (out_degree_of g) damping (List.length (dict_keys g)) prev
           (dangling_share g damping prev) nd
  = Some (nd, next_rank g damping prev nd).
Proof.
  intros H. unfold new_rank. rewrite (Hie nd H). simpl bind.
  rewrite incoming_sum_spec.
  - simpl bind. unfold next_rank, incoming. cbv zeta.
    destruct (a_eqb (dangling_share g damping prev) a_zero); reflexivity.
  - intros k Hk. split; [eapply sources_keys; eassumption|].
    destruct Hwf as [Hnd _]. eapply sources_degree; eassumption.
Qed.

Lemma step_spec :
  pagerank_step (dict_keys g) ie (out_degree_of g) damping prev
  = Some (next_ranks g damping prev).
Proof.
  unfold pagerank_step. rewrite dangling_sum_spec by auto. simpl bind.
  change (fold_left a_add
            (map (rank_of prev)
                 (filter (fun k => Nat.eqb (degree g k) 0) (dict_keys g))) a_zero)
    with (dangling_mass g prev).
  change (a_div (a_mul damping (dangling_mass g prev))
                (a_of_nat (List.length (dict_keys g))))
    with (dangling_share g damping prev).
  unfold next_ranks.
  assert (H : forall ns, (forall k, In k ns -> In k (dict_keys g)) ->
            mapM (new_rank ie (out_degree_of g) damping
                    (List.length (dict_keys g)) prev
                    (dangling_share g damping prev)) ns
            = Some (map (fun nd => (nd, next_rank g damping prev nd)) ns)).
  { induction ns as [|k ns IH]; intros Hk; simpl mapM; [reflexivity|].
    rewrite new_rank_spec by (apply Hk; now left). simpl bind.
    rewrite IH by (intros x Hx; apply Hk; now right). reflexivity. }
  apply H. auto.
Qed.

Lemma l1_diff_spec (rank : dict R) :
  dict_keys rank = dict_keys g ->
  forall ns acc, (forall k, In k ns -> In k (dict_keys g)) ->
  l1_diff rank prev ns acc
  = Some (fold_left a_add
            (map (fun nd => a_abs (a_sub (rank_of rank nd) (rank_of prev nd))) ns)
            acc).
Proof.
  intros Hr. induction ns as [|k ns IH]; intros acc H; simpl l1_diff;
    [reflexivity|].
  assert (Hk : In k (dict_keys g)) by (apply H; now left).
  rewrite (prev_get k Hk).
  assert (Er : dict_get rank k = Some (rank_of rank k)).
  { unfold rank_of. rewrite <- Hr in Hk. apply dict_get_keys in Hk.
    destruct Hk as [v E]. now rewrite E. }
  rewrite Er. simpl bind. apply IH. intros x Hx. apply H. now right.
Qed.
End Step.

Section Loop.
Variable ie : dict (list node).
Hypothesis Hie : forall nd, In nd (dict_keys g) ->
                            dict_get ie nd = Some (sources_of g nd).
Variables damping tol : R.

(** From the ranks after [m] iterations, a loop of at most [iters] further
    passes returns the ranks after [m + k] iterations, where [k] is the
    first pass within the tolerance, or [iters]. *)
Lemma pagerank_loop_spec : forall iters m,
  exists k,
    pagerank_loop iters (dict_keys g) ie (out_degree_of g) damping tol
                  (ranks_after g damping m)
    = Some (ranks_after g damping (m + k))
    /\ k <= iters
    /\ (forall j, m <= j -> S j < m + k -> within_tolerance g damping tol j = false)
    /\ (k = iters
        \/ exists j, m + k = S j /\ m <= j
                     /\ within_tolerance g damping tol j = true).
Proof.
  induction iters as [|it IH]; intros m; simpl pagerank_loop.
  - exists 0. rewrite Nat.add_0_r. split; [reflexivity|]. split; [lia|].
    split; [intros j H1 H2; lia | now left].
  - rewrite (step_spec (ranks_after g damping m) (keys_ranks_after damping m)
                       ie Hie damping).
    simpl bind.
    rewrite (l1_diff_spec (ranks_after g damping m) (keys_ranks_after damping m)
               (next_ranks g damping (ranks_after g damping m))
               (keys_next_ranks damping _) (dict_keys g) a_zero (fun k H => H)).
    simpl bind.
    change (next_ranks g damping (ranks_after g damping m))
      with (ranks_after g damping (S m)).
    change (a_ltb (fold_left a_add
                     (map (fun nd => a_abs (a_sub (rank_of (ranks_after g damping (S m)) nd)
                                                  (rank_of (ranks_after g damping m) nd)))
                          (dict_keys g)) a_zero) tol)
      with (within_tolerance g damping tol m).
    destruct (within_tolerance g damping tol m) eqn:Ew.
    + exists 1. rewrite Nat.add_1_r. split; [reflexivity|]. split; [lia|].
      split; [intros j H1 H2; lia|]. right. exists m. auto.
    + destruct (IH (S m)) as [k [E [Hk [Hb Hs]]]].
      exists (S k). rewrite <- Nat.add_succ_comm. split; [exact E|].
      split; [lia|]. split.
      * intros j H1 H2. destruct (Nat.eq_dec j m) as [->|Hn]; [exact Ew|].
        apply Hb; lia.
      * destruct Hs as [->|[j [E1 [E2 E3]]]]; [now left|].
        right. exists j. split; [exact E1|]. split; [lia | exact E3].
Qed.
End Loop.

(** On a non-empty dict of sets whose successors are keys,
    [compute_pagerank] returns the ranks of the power iteration after the
    number of iterations at which it stops. *)
Lemma compute_pagerank_iterates (damping tol : R) (max_iter : Z) :
  g <> [] ->
  exists k,
    compute_pagerank g damping max_iter tol = Some (ranks_after g damping k)
    /\ stops_after g damping tol max_iter k.
Proof.
  intros Hne. unfold compute_pagerank. cbv zeta.
  assert (Hlen : Nat.eqb (List.length (dict_keys g)) 0 = false).
  { destruct g; [congruence | reflexivity]. }
  rewrite Hlen.
  destruct (in_edges_of g Hwf Hcl) as [ie [E [K S]]].
  unfold node in *. rewrite E. simpl bind.
  destruct (pagerank_loop_spec ie S damping tol (Z.to_nat max_iter) 0)
    as [k [El [Hk [Hb Hs]]]].
  exists k. split; [exact El|]. split; [exact Hk|]. split.
  - intros j Hj. apply Hb; lia.
  - destruct Hs as [->|[j [E1 [_ E3]]]]; [now left|]. right. exists j. auto.
Qed.
End PageRankSteps.

(** ** PageRank in exact arithmetic: the ranks sum to one *)

Lemma count_members (ns ds : list node) :
  NoDup ns -> NoDup ds -> (forall d, In d ds -> In d ns) ->
  List.length (filter (fun nd => set_mem nd ds) ns) = List.length ds.
Proof.
  intros Hn Hd Hs. apply Permutation_length. apply NoDup_Permutation.
  - now apply NoDup_filter.
  - exact Hd.
  - intros x. rewrite filter_In, set_mem_In. split; [tauto|]. auto.
Qed.

Section ExactSums.
Context {R : Type} {AR : Arith R}.
Hypothesis exact : exact_arith AR.

Lemma exact_ring :
  ring_theory a_zero a_one a_add a_mul a_sub (fun x : R => a_sub a_zero x) eq.
Proof.
  destruct exact. constructor; auto.
Qed.

Add Ring exact_ring_inst : exact_ring.

Local Abbreviation sum F l := (fold_left a_add (map F l) a_zero).

Lemma fold_add_acc (l : list R) : forall acc,
  fold_left a_add l acc = a_add acc (fold_left a_add l a_zero).
Proof.
  induction l as [|x l IH]; intros acc; simpl; [ring|].
  rewrite (IH (a_add acc x)), (IH (a_add a_zero x)). ring.
Qed.

Lemma sum_cons (A : Type) (F : A -> R) x l :
  sum F (x :: l) = a_add (F x) (sum F l).
Proof. simpl. rewrite fold_add_acc. ring. Qed.

Lemma sum_app (A : Type) (F : A -> R) l1 l2 :
  sum F (l1 ++ l2) = a_add (sum F l1) (sum F l2).
Proof.
  induction l1 as [|x l1 IH]; [simpl; ring|].
  rewrite <- app_comm_cons, !sum_cons, IH. ring.
Qed.

Lemma sum_ext (A : Type) (F G : A -> R) l :
  (forall x, In x l -> F x = G x) -> sum F l = sum G l.
Proof.
  intros H. f_equal. apply map_ext_in. exact H.
Qed.

Lemma sum_plus (A : Type) (F G : A -> R) l :
  sum (fun x => a_add (F x) (G x)) l = a_add (sum F l) (sum G l).
Proof.
  induction l as [|x l IH]; [simpl; ring|]. rewrite !sum_cons, IH. ring.
Qed.

Lemma sum_scale (A : Type) (c : R) (F : A -> R) l :
  sum (fun x => a_mul c (F x)) l = a_mul c (sum F l).
Proof.
  induction l as [|x l IH]; [simpl; ring|]. rewrite !sum_cons, IH. ring.
Qed.

Lemma sum_const (A : Type) (c : R) (l : list A) :
  sum (fun _ => c) l = a_mul (a_of_nat (List.length l)) c.
Proof.
  induction l as [|x l IH].
  - simpl. rewrite (ea_of_nat_0 exact). ring.
  - rewrite sum_cons, IH. simpl List.length. rewrite (ea_of_nat_S exact). ring.
Qed.

Lemma sum_indicator (c : R) (p : node -> bool) (l : list node) :
  sum (fun x => if p x then c else a_zero) l
  = a_mul (a_of_nat (List.length (filter p l))) c.
Proof.
  induction l as [|x l IH].
  - simpl. rewrite (ea_of_nat_0 exact). ring.
  - rewrite sum_cons, IH. cbn [filter]. destruct (p x).
    + simpl List.length. rewrite (ea_of_nat_S exact). ring.
    + ring.
Qed.

(** Summing over every node the rank that flows in along its incoming
    edges counts every source once for each of its successors. *)
Lemma incoming_total (F : node -> R) (ns : list node) : forall items : graph,
  NoDup ns ->
  (forall k ds, In (k, ds) items -> NoDup ds /\ forall d, In d ds -> In d ns) ->
  sum (fun nd => sum F (sources_of items nd)) ns
  = sum (fun it : node * list node =>
           a_mul (a_of_nat (List.length (snd it))) (F (fst it))) items.
Proof.
  intros items Hn. induction items as [|[k ds] items IH]; intros H.
  - unfold sources_of. simpl. rewrite sum_const. simpl. ring.
  - rewrite sum_cons. cbn [fst snd].
    assert (E := IH (fun k' ds' Hi => H k' ds' (or_intror Hi))).
    destruct (H k ds (or_introl eq_refl)) as [Hd Hs].
    pose proof (count_members ns ds Hn Hd Hs) as Ec.
    pose proof (sum_indicator (F k) (fun nd => set_mem nd ds) ns) as Ei.
    unfold node in *. rewrite <- E, <- Ec, <- Ei, <- sum_plus.
    apply sum_ext. intros nd _. unfold sources_of. cbn [filter snd].
    destruct (set_mem nd ds).
    + cbn [map fst fold_left]. rewrite fold_add_acc. ring.
    + ring.
Qed.

Section Totals.
Variable g : graph.
Hypothesis Hwf : wf_graph g.
Hypothesis Hcl : closed g.
Hypothesis Hne : g <> [].

Lemma nodes_nonzero : a_of_nat (List.length (dict_keys g)) <> a_zero.
Proof.
  destruct g as [|it g']; [congruence|]. simpl. apply (ea_of_nat_neq exact).
Qed.

Lemma rank_total_keys (rank : dict R) :
  NoDup (dict_keys rank) ->
  rank_total rank = sum (rank_of rank) (dict_keys rank).
Proof.
  intros Hnd. unfold rank_total, dict_keys. rewrite map_map. f_equal.
  apply map_ext_in. intros [k v] Hi. simpl. unfold rank_of.
  now rewrite (In_dict_get _ rank k v Hnd Hi).
Qed.

(** What a node passes on, along its edges or as dangling mass, is its
    rank. *)
Lemma flow_total (prev : dict R) : forall ns,
  a_add (sum (fun k => a_mul (a_of_nat (degree g k)) (flow g prev k)) ns)
        (sum (rank_of prev) (filter (fun k => Nat.eqb (degree g k) 0) ns))
  = sum (rank_of prev) ns.
Proof.
  induction ns as [|k ns IH]; [simpl; ring|].
  rewrite !sum_cons, <- IH. cbn [filter]. unfold flow at 1.
  destruct (degree g k) as [|d] eqn:E; simpl Nat.eqb; cbv iota.
  - rewrite sum_cons, (ea_of_nat_0 exact). ring.
  - rewrite (ea_div_mul exact) by apply (ea_of_nat_neq exact). ring.
Qed.

Lemma incoming_ranks (prev : dict R) :
  sum (incoming g prev) (dict_keys g)
  = sum (fun k => a_mul (a_of_nat (degree g k)) (flow g prev k)) (dict_keys g).
Proof.
  destruct Hwf as [Hnd Hsets]. unfold incoming.
  rewrite (incoming_total (flow g prev) (dict_keys g) g Hnd).
  - unfold dict_keys. rewrite map_map. f_equal. apply map_ext_in.
    intros [k ds] Hi. cbn [fst snd]. unfold degree, succs.
    now rewrite (In_dict_get _ g k ds Hnd Hi).
  - intros k ds Hi. split; [eapply Hsets; eassumption|].
    intros d Hd. eapply Hcl; eassumption.
Qed.

Lemma next_rank_exact (damping : R) prev nd :
  next_rank g damping prev nd
  = a_add (a_add (a_div (a_sub a_one damping)
                        (a_of_nat (List.length (dict_keys g))))
                 (dangling_share g damping prev))
          (a_mul damping (incoming g prev nd)).
Proof.
  unfold next_rank. cbv zeta.
  destruct (a_eqb (dangling_share g damping prev) a_zero) eqn:E; [|reflexivity].
  apply (ea_eqb_eq exact) in E. rewrite E. ring.
Qed.

Lemma total_uniform : rank_total (uniform_ranks (R := R) g) = a_one.
Proof.
  unfold rank_total, uniform_ranks. rewrite map_map. cbn [snd].
  rewrite sum_const. apply (ea_div_mul exact). apply nodes_nonzero.
Qed.

Lemma total_next (damping : R) prev :
  dict_keys prev = dict_keys g -> rank_total prev = a_one ->
  rank_total (next_ranks g damping prev) = a_one.
Proof.
  intros Hk Ht. pose proof Hwf as [Hnd _].
  rewrite rank_total_keys in Ht by now rewrite Hk. rewrite Hk in Ht.
  unfold rank_total, next_ranks. rewrite map_map. cbn [snd].
  etransitivity; [apply sum_ext; intros nd _; apply next_rank_exact|].
  rewrite sum_plus, sum_const, sum_scale, incoming_ranks.
  pose proof (flow_total prev (dict_keys g)) as Hf. rewrite Ht in Hf.
  change (sum (rank_of prev)
              (filter (fun k => Nat.eqb (degree g k) 0) (dict_keys g)))
    with (dangling_mass g prev) in Hf.
  pose proof nodes_nonzero as Hn.
  pose proof (ea_div_mul exact (a_sub a_one damping) Hn) as E1.
  pose proof (ea_div_mul exact (a_mul damping (dangling_mass g prev)) Hn) as E2.
  fold (dangling_share g damping prev) in E2.
  unfold node in *.
  match goal with
  | |- a_add (a_mul ?N (a_add ?BS ?SH)) (a_mul ?d ?FL) = _ =>
      transitivity (a_add (a_add (a_mul N BS) (a_mul N SH)) (a_mul d FL));
        [ring|]
  end.
  rewrite E1, E2.
  match type of Hf with
  | a_add ?FL ?DM = _ =>
      transitivity (a_add (a_sub a_one damping) (a_mul damping (a_add FL DM)));
        [ring|]
  end.
  rewrite Hf. ring.
Qed.

Lemma total_ranks_after (damping : R) : forall k,
  rank_total (ranks_after g damping k) = a_one.
Proof.
  induction k as [|k IH]; [apply total_uniform|].
  simpl. apply total_next; [|exact IH]. apply keys_ranks_after.
Qed.
End Totals.
End ExactSums.

(** ** PageRank: the rank sum *)

(** The rationals are an exact arithmetic. *)
Lemma Qc_exact : exact_arith Qc_arith.
Proof.
  constructor;
    cbn [a_add a_zero a_one a_sub a_mul a_div a_eqb a_of_nat Qc_arith].
  - intros x. apply Qcplus_0_l.
  - intros x y. apply Qcplus_comm.
  - intros x y z. apply Qcplus_assoc.
  - intros x. apply Qcmult_1_l.
  - intros x y. apply Qcmult_comm.
  - intros x y z. apply Qcmult_assoc.
  - intros x y z. apply Qcmult_plus_distr_l.
  - intros x y. unfold Qcminus. f_equal. now rewrite Qcplus_0_l.
  - intros x. unfold Qcminus. rewrite Qcplus_0_l. apply Qcplus_opp_r.
  - intros x y Hy. now apply Qcmult_div_r.
  - reflexivity.
  - intros n. unfold Qc_of_nat, Qcplus. apply Q2Qc_eq_iff. unfold Q2Qc.
    cbn [this]. rewrite !Qred_correct. rewrite Nat2Z.inj_succ. unfold Z.succ.
    rewrite inject_Z_plus. reflexivity.
  - intros n E. unfold Qc_of_nat in E. apply Q2Qc_eq_iff in E.
    unfold Qeq in E. simpl in E. lia.
  - intros x y. apply Qc_eq_bool_correct.
Qed.




(** ** The mutual-exclusion check of [main] *)

Lemma set_order_length set_order l :
  set_iteration set_order ->
  List.length (set_order l) = List.length (set_of l).
Proof. intros H. apply Permutation_length, H. Qed.

Lemma set_order_In set_order l x :
  set_iteration set_order -> (In x (set_order l) <-> In x l).
Proof.
  intros H. split; intros Hx.
  - apply set_of_In. exact (Permutation_in x (H l) Hx).
  - apply (Permutation_in x (Permutation_sym (H l))). now apply set_of_In.
Qed.

Lemma set_order_NoDup set_order l :
  set_iteration set_order -> NoDup (set_order l).
Proof.
  intros H. apply Permutation_NoDup with (l := set_of l).
  - apply Permutation_sym, H.
  - apply set_of_NoDup.
Qed.

Lemma build_edges_keys set_order (components : dict component) :
  dict_keys (fst (build_in_out_edges_from_components set_order components))
  = set_order (dict_keys components).
Proof.
  unfold build_in_out_edges_from_components. cbn [fst]. apply keys_map_pair.
Qed.

Lemma build_edges_nonempty set_order (components : dict component) :
  set_iteration set_order -> components <> [] ->
  Nat.eqb (List.length
             (fst (build_in_out_edges_from_components set_order components))) 0
  = false.
Proof.
  intros H Hne. apply Nat.eqb_neq. intros E.
  rewrite <- (length_map fst) in E.
  change (map fst ?g) with (dict_keys g) in E.
  rewrite build_edges_keys in E. apply length_zero_iff_nil in E.
  destruct components as [|[k c] cs]; [congruence|].
  assert (Hk : In k (set_order (dict_keys ((k, c) :: cs)))).
  { apply set_order_In; [assumption | now left]. }
  rewrite E in Hk. destruct Hk.
Qed.

(** C8 as stated fails on an input without components: with [--print-top 2]
    and [--print-top-percent 50] both supplied, [main] writes the empty
    output and returns [0]; the check is never reached. *)
Lemma conflicting_flags_empty_input_returns_zero :
  arg_print_top (command_line 50%float (Some 2%Z)) = Some 2%Z
  /\ positive_percent (arg_print_top_percent (command_line 50%float (Some 2%Z))) = true
  /\ main (parsed_as (command_line 50%float (Some 2%Z))) (load_of [])
          all_sources insertion_order both_flags
     = ([WriteFile "out.json" []], Returned 0).
Proof. repeat split; vm_compute; reflexivity. Qed.

(** With [--print-top-percent 0] next to [--print-top 2] the check does not
    fire either: the run prints two rows and returns [0]. *)
Lemma print_top_with_zero_percent_returns_zero :
  exists written rows,
    main (parsed_as (command_line 0%float (Some 2%Z))) (load_of three_components)
         all_sources insertion_order
         ["--input"; "graph.json"; "--output"; "out.json";
          "--print-top"; "2"; "--print-top-percent"; "0"]
    = (WriteFile "out.json" written :: rows, Returned 0).
Proof. eexists. eexists. vm_compute. reflexivity. Qed.

(** C8, amended: when [--print-top] is given with a positive
    [--print-top-percent], the input holds at least one component, and
    loading, scoring and selection return, [main] ends in [SystemExit] with
    the usage message (exit status 1), and its only effect is the write of
    the primary output, which precedes the check. *)
Theorem conflicting_print_flags_exit_after_write
    (parse_args : list string -> parsed)
    (load : string -> option (dict component))
    (sample : Z -> nat -> nat -> list nat)
    (set_order : list string -> list string) (argv : list string)
    (args : arguments)
    (components : dict component) (k : Z) (metrics : dict Metrics)
    (selected : list string) :
  parse_args argv = Namespace args ->
  set_iteration set_order ->
  load (arg_input args) = Some components ->
  components <> [] ->
  arg_print_top args = Some k ->
  positive_percent (arg_print_top_percent args) = true ->
  compute_metrics sample
    (fst (build_in_out_edges_from_components set_order components))
    (snd (build_in_out_edges_from_components set_order components))
    (adapt_samples (arg_weights args)
       (List.length
          (fst (build_in_out_edges_from_components set_order components))))
  = Some metrics ->
  select_top_percent metrics (arg_top_percent args) = Some selected ->
  main parse_args load sample set_order argv
  = ([write_filtered_components components selected (arg_output args)],
     SystemExit usage_error).
Proof.
  intros Ha Ho Hl Hne Hk Hp Hm Hs. unfold main. rewrite Ha, Hl.
  pose proof (build_edges_nonempty set_order components Ho Hne) as Hlen.
  destruct (build_in_out_edges_from_components set_order components) as [oe ie].
  cbn [fst snd] in *. rewrite Hlen, Hm, Hs, Hk, Hp. reflexivity.
Qed.

Lemma conflicting_print_flags_exit_after_write_witness :
  main (parsed_as (command_line 50%float (Some 2%Z))) (load_of three_components)
       all_sources reverse_order both_flags
  = ([write_filtered_components three_components ["A"; "B"; "C"] "out.json"],
     SystemExit usage_error).
Proof.
  refine (conflicting_print_flags_exit_after_write
            (parsed_as (command_line 50%float (Some 2%Z)))
            (load_of three_components) all_sources reverse_order both_flags
            (command_line 50%float (Some 2%Z)) three_components 2%Z
            (match compute_metrics all_sources
                     (fst (build_in_out_edges_from_components reverse_order
                             three_components))
                     (snd (build_in_out_edges_from_components reverse_order
                             three_components))
                     (adapt_samples default_weights 3) with
             | Some m => m | None => [] end)
            ["A"; "B"; "C"] _ _ _ _ _ _ _ _).
  - reflexivity.
  - intros l. unfold reverse_order. apply Permutation_sym, Permutation_rev.
  - reflexivity.
  - discriminate.
  - reflexivity.
  - vm_compute; reflexivity.
  - vm_compute; reflexivity.
  - vm_compute; reflexivity.
Defined.

(** ** Cycle detection on a graph without cycles *)

Section AcyclicRun.
Variable g : graph.
Hypothesis g_closed : closed g.
Variable rank : node -> nat.
Hypothesis rank_edge : forall a b, In b (succs g a) -> rank b < rank a.

Section Loop.
Variable f : nat.
Hypothesis IH : forall w st,
  tarjan_inv st -> ~ indexed st w -> In w (dict_keys g) ->
  unindexed g st < f ->
  (forall y, In y (stack st) -> rank w < rank y) ->
  exists st', strongconnect f g w st = Some st' /\ quiet_call g w st st'.

Variables (st0 : tarjan) (n : node).
Hypothesis Hfuel : unindexed g (enter n st0) < f.
Hypothesis Hchain : forall y, In y (stack st0) -> rank n < rank y.

Lemma loop_quiet : forall ws st,
  (forall w, In w ws -> In w (succs g n)) ->
  frame g st0 n st ->
  stack st = n :: stack st0 ->
  result st = result st0 ->
  dict_get (lowlink st) n = Some (index_counter st0) ->
  exists st', for_successors (strongconnect f g) n ws st = Some st'
              /\ frame g st0 n st'
              /\ stack st' = n :: stack st0
              /\ result st' = result st0
              /\ dict_get (lowlink st') n = Some (index_counter st0).
Proof.
  induction ws as [|w ws IHws]; intros st Hws F Hs Hr Hl; simpl.
  - exists st. auto.
  - assert (Hw : In w (succs g n)) by (apply Hws; now left).
    assert (Hws' : forall w', In w' ws -> In w' (succs g n))
      by (intros w' H'; apply Hws; now right).
    pose proof (rank_edge n w Hw) as Hrk.
    destruct (dict_mem (index st) w) eqn:Ew; simpl.
    + destruct (set_mem w (onstack st)) eqn:Eo; [|now apply IHws].
      exfalso. apply set_mem_In in Eo. apply (inv_onstack (fr_inv F)) in Eo.
      rewrite Hs in Eo. destruct Eo as [<-|Eo]; [lia|].
      apply Hchain in Eo. lia.
    + apply dict_mem_false in Ew.
      destruct (IH w st (fr_inv F) Ew (succs_keys g g_closed _ _ Hw))
        as [st1 [R [P [Q1 [Q2 Q3]]]]].
      { pose proof (unindexed_le _ _ _ (fr_grows F)). lia. }
      { intros y Hy. rewrite Hs in Hy. destruct Hy as [<-|Hy]; [assumption|].
        apply Hchain in Hy. lia. }
      rewrite R. simpl.
      assert (Hn := frame_indexed_n g _ _ _ F).
      assert (Hl1 : dict_get (lowlink st1) n = Some (index_counter st0)).
      { rewrite (cp_lowlink P n Hn). exact Hl. }
      rewrite Hl1, Q3. simpl.
      assert (Hc : index_counter st0 < index_counter st).
      { pose proof (grows_counter (fr_grows F)) as H. simpl in H. lia. }
      replace (Nat.min (index_counter st0) (index_counter st))
        with (index_counter st0) by lia.
      apply IHws; auto.
      * apply frame_set_lowlink. eapply frame_call; eassumption.
      * simpl. congruence.
      * simpl. congruence.
      * simpl. apply dict_get_set_same.
Qed.
End Loop.

Lemma strongconnect_quiet : forall fuel n st,
  tarjan_inv st -> ~ indexed st n -> In n (dict_keys g) ->
  unindexed g st < fuel ->
  (forall y, In y (stack st) -> rank n < rank y) ->
  exists st', strongconnect fuel g n st = Some st' /\ quiet_call g n st st'.
Proof.
  induction fuel as [|f IHf]; intros n st I Hn Hk Hf Hch; [lia|].
  simpl.
  assert (Hlt : unindexed g (enter n st) < f).
  { assert (unindexed g (enter n st) < unindexed g st); [|lia].
    apply unindexed_lt with (n := n); auto.
    - now apply enter_grows.
    - apply indexed_get. eexists. apply enter_index. }
  destruct (loop_quiet f IHf st n Hlt Hch (succs g n) (enter n st))
    as [st1 [R [F [Hs [Hr Hl]]]]]; auto.
  - now apply frame_enter.
  - simpl. apply dict_get_set_same.
  - rewrite R. simpl.
    destruct (finish_spec g st n st1 F) as [st' [E P]].
    exists st'. split; [exact E|]. split; [exact P|].
    assert (Hi : dict_get (index st1) n = Some (index_counter st)).
    { apply (grows_index (fr_grows F)). apply enter_index. }
    unfold finish in E. rewrite Hl, Hi in E. simpl in E.
    rewrite Nat.eqb_refl in E.
    destruct (finish_pop g st n st1 [] (fr_inv F) Hs) as [ons' [P1 _]].
    rewrite P1 in E. simpl in E.
    assert (Hself : set_mem n (succs g n) = false).
    { apply set_mem_false. intros H. apply rank_edge in H. lia. }
    rewrite Hself in E. injection E as <-. simpl. auto.
Qed.

Lemma visit_all_quiet fuel : List.length g < fuel -> forall ns st,
  tarjan_inv st -> (forall n, In n ns -> In n (dict_keys g)) ->
  stack st = [] -> result st = [] ->
  exists st', visit_all fuel g ns st = Some st' /\ result st' = [].
Proof.
  intros Hf. induction ns as [|n ns IH]; intros st I Hk Hs Hr; simpl.
  - exists st. auto.
  - destruct (dict_mem (index st) n) eqn:E.
    + apply IH; auto. intros x Hx. apply Hk. now right.
    + apply dict_mem_false in E.
      destruct (strongconnect_quiet fuel n st I E) as [st1 [R1 [P1 [Q1 [Q2 _]]]]].
      { apply Hk. now left. }
      { pose proof (unindexed_bound g st). lia. }
      { rewrite Hs. intros y []. }
      rewrite R1. simpl. apply IH.
      * exact (cp_inv P1).
      * intros x Hx. apply Hk. now right.
      * congruence.
      * congruence.
Qed.
End AcyclicRun.

Lemma acyclic_detect_cycles_nil g0 :
  acyclic (_normalize_graph g0) -> detect_cycles g0 = Some [].
Proof.
  intros [rank Hr]. unfold detect_cycles.
  destruct (visit_all_quiet (_normalize_graph g0) (normalize_closed g0) rank Hr
              (S (List.length (_normalize_graph g0))) (Nat.lt_succ_diag_r _)
              (dict_keys (_normalize_graph g0)) tarjan_init tarjan_init_inv)
    as [st [R E]]; auto.
  rewrite R. simpl. now rewrite E.
Qed.

(** The detector is exact about the presence of a cycle: it reports no
    group precisely when the nodes of the normalised graph can be ranked so
    that every dependency has a strictly smaller rank than its dependent. *)
Theorem detect_cycles_empty_iff_acyclic (g0 : graph) :
  detect_cycles g0 = Some [] <-> acyclic (_normalize_graph g0).
Proof.
  split; [apply detect_cycles_nil_acyclic | apply acyclic_detect_cycles_nil].
Qed.

(** ** Graphs without cycles pass through the resolver unchanged *)

Lemma resolve_cycles_log_acyclic G :
  acyclic (_normalize_graph G) ->
  resolve_cycles_log G = Some (_normalize_graph G, [], Converged).
Proof.
  intros A. unfold resolve_cycles_log, max_rounds.
  destruct (Nat.max 10 (List.length (_normalize_graph G) * 2)) as [|r] eqn:E; [lia|].
  simpl. rewrite acyclic_detect_cycles_nil; [reflexivity|].
  now rewrite normalize_idempotent_pure.
Qed.

(** On a graph without cycles [resolve_cycles] removes nothing: it returns
    the normalised input, through the exit that reports convergence. *)
Theorem resolve_cycles_acyclic_unchanged (G : graph) :
  acyclic (_normalize_graph G) ->
  resolve_cycles_log G = Some (_normalize_graph G, [], Converged)
  /\ resolve_cycles G = Some (_normalize_graph G).
Proof.
  intros A. pose proof (resolve_cycles_log_acyclic G A) as H.
  split; [exact H|]. unfold resolve_cycles. now rewrite H.
Qed.

Lemma path3_acyclic : acyclic (_normalize_graph path3).
Proof. apply detect_cycles_nil_acyclic. reflexivity. Qed.

Lemma resolve_cycles_acyclic_unchanged_witness :
  resolve_cycles path3 = Some (_normalize_graph path3).
Proof.
  exact (proj2 (resolve_cycles_acyclic_unchanged path3 path3_acyclic)).
Defined.

(** On a graph without cycles both orderings respect every dependency of
    the input: each lists every node of the normalised graph once, and
    every node comes after all the nodes it depends on. *)
Theorem acyclic_orders_respect_all_edges (G : graph) :
  acyclic (_normalize_graph G) ->
  exists lt ld,
    topological_sort G = Some lt /\ dependency_first_dfs G = Some ld
    /\ NoDup lt /\ NoDup ld
    /\ (forall x, In x lt <-> In x (dict_keys (_normalize_graph G)))
    /\ (forall x, In x ld <-> In x (dict_keys (_normalize_graph G)))
    /\ (forall a b, In b (succs (_normalize_graph G) a) ->
                    before b a lt /\ before b a ld).
Proof.
  intros A. pose proof (resolve_cycles_log_acyclic G A) as H.
  assert (R : resolve_cycles G = Some (_normalize_graph G))
    by (unfold resolve_cycles; now rewrite H).
  assert (N : normal (_normalize_graph G))
    by (split; [apply normalize_wf | apply normalize_closed]).
  destruct (kahn_spec _ N) as [dr [un [K1 [K2 [K3 [K4 [K5 [_ K6']]]]]]]].
  destruct (postorder_spec _ N) as [ld [P1 [P2 [P3 P4]]]].
  rewrite (K6' A), app_nil_r in *.
  exists dr, ld.
  split; [unfold topological_sort; rewrite R; simpl;
          now rewrite normalize_idempotent_pure|].
  split; [unfold dependency_first_dfs; rewrite R; simpl;
          now rewrite normalize_idempotent_pure|].
  split; [exact K4|]. split; [exact P2|]. split; [exact K5|]. split; [exact P3|].
  intros a b Hab.
  assert (Hk : In a (dict_keys (_normalize_graph G)))
    by (eapply succs_In_key; eassumption).
  split.
  - apply deps_first_before with (g := _normalize_graph G); auto. now apply K5.
  - apply deps_first_before with (g := _normalize_graph G); auto. now apply P3.
Qed.

Lemma acyclic_orders_respect_all_edges_witness :
  exists lt ld,
    topological_sort path3 = Some lt /\ dependency_first_dfs path3 = Some ld
    /\ NoDup lt /\ NoDup ld
    /\ (forall x, In x lt <-> In x (dict_keys (_normalize_graph path3)))
    /\ (forall x, In x ld <-> In x (dict_keys (_normalize_graph path3)))
    /\ (forall a b, In b (succs (_normalize_graph path3) a) ->
                    before b a lt /\ before b a ld).
Proof. exact (acyclic_orders_respect_all_edges path3 path3_acyclic). Defined.

(** ** What [_normalize_graph] adds *)

Lemma fill_missing_news (items : graph) : forall d : graph,
  exists news,
    fill_missing items d = d ++ empty_items news
    /\ forall x, In x news -> exists k ds, In (k, ds) items /\ In x ds.
Proof.
  unfold fill_missing.
  induction items as [|[k ds] items IH]; intros d; simpl.
  - exists []. simpl. rewrite app_nil_r. split; [reflexivity | intros x []].
  - destruct (add_missing_spec ds d) as [n1 [A1 [_ [A3 _]]]].
    destruct (IH (add_missing d ds)) as [n2 [B1 B2]].
    exists (n1 ++ n2). split.
    + rewrite B1, A1, <- app_assoc. unfold empty_items. now rewrite map_app.
    + intros x Hx. apply in_app_or in Hx. destruct Hx as [Hx|Hx].
      * exists k, ds. split; [now left | now apply A3].
      * destruct (B2 x Hx) as [k' [ds' [H1 H2]]]. exists k', ds'.
        split; [now right | assumption].
Qed.

Lemma normalize_shape (g : graph) :
  wf_graph g ->
  exists news,
    _normalize_graph g = g ++ empty_items news
    /\ NoDup news
    /\ (forall x, In x news <->
                  (~ In x (dict_keys g) /\ exists k ds, In (k, ds) g /\ In x ds))
    /\ closed (_normalize_graph g).
Proof.
  intros W.
  destruct (fill_missing_news (copy_graph g) (copy_graph g)) as [news [E N]].
  change (fill_missing (copy_graph g) (copy_graph g)) with (_normalize_graph g) in E.
  rewrite (copy_graph_id g W) in E, N.
  pose proof (normalize_wf g) as [Hnd _].
  pose proof (normalize_closed g) as Hc.
  rewrite E in Hnd. rewrite dict_keys_app, dict_keys_empty_items in Hnd.
  exists news. split; [exact E|]. split; [|split; [|exact Hc]].
  - now apply NoDup_app_remove_l in Hnd.
  - intros x. split.
    + intros Hx. split; [|now apply N].
      intros Hk. exact (NoDup_app_disjoint _ _ _ x Hnd Hk Hx).
    + intros [Hk [k [ds [Hi Hd]]]].
      assert (H : In x (dict_keys (_normalize_graph g))).
      { apply (Hc k ds x); [|assumption]. rewrite E. apply in_or_app. now left. }
      rewrite E, dict_keys_app, dict_keys_empty_items in H.
      apply in_app_or in H. destruct H; [contradiction | assumption].
Qed.

(** [_normalize_graph] on a dict of sets keeps every item where it is and
    appends, with an empty set, exactly the dependency targets that are not
    keys, each once; the result has every dependency target as a key. *)
Theorem normalize_appends_missing_targets (g : graph) :
  wf_graph g ->
  exists news,
    _normalize_graph g = g ++ empty_items news
    /\ NoDup news
    /\ (forall x, In x news <->
                  (~ In x (dict_keys g) /\ exists k ds, In (k, ds) g /\ In x ds))
    /\ closed (_normalize_graph g).
Proof. apply normalize_shape. Qed.

Lemma normalize_appends_missing_targets_witness :
  exists news,
    _normalize_graph [("a", ["b"; "c"]); ("b", ["d"])]
    = [("a", ["b"; "c"]); ("b", ["d"])] ++ empty_items news
    /\ NoDup news.
Proof.
  destruct (normalize_appends_missing_targets [("a", ["b"; "c"]); ("b", ["d"])])
    as [news [E [N _]]].
  - apply wf_graphb_sound. reflexivity.
  - exists news. split; assumption.
Defined.

(** ** Graphs built from components *)

Lemma dict_get_app_last (V : Type) (acc : dict V) k v :
  ~ In k (dict_keys acc) -> dict_get (acc ++ [(k, v)]) k = Some v.
Proof.
  induction acc as [|[k' v'] acc IH]; simpl; intros H.
  - now rewrite String.eqb_refl.
  - destruct (String.eqb_spec k' k) as [->|Hd]; [exfalso; apply H; now left|].
    apply IH. intros Hk. apply H. now right.
Qed.

Lemma dict_set_app_last (V : Type) (acc : dict V) k v v' :
  ~ In k (dict_keys acc) ->
  dict_set (acc ++ [(k, v)]) k v' = acc ++ [(k, v')].
Proof.
  induction acc as [|[k' w] acc IH]; simpl; intros H.
  - now rewrite String.eqb_refl.
  - destruct (String.eqb_spec k' k) as [->|Hd]; [exfalso; apply H; now left|].
    f_equal. apply IH. intros Hk. apply H. now right.
Qed.

Lemma succs_app_last (acc : graph) k s :
  ~ In k (dict_keys acc) -> succs (acc ++ [(k, s)]) k = s.
Proof. intros H. unfold succs. now rewrite dict_get_app_last. Qed.

Lemma set_of_acc_filter (p : string -> bool) xs : forall acc,
  fold_left (fun s x => if p x then set_add x s else s) xs acc
  = fold_left (fun s x => set_add x s) (filter p xs) acc.
Proof.
  induction xs as [|x xs IH]; intros acc; simpl; [reflexivity|].
  destruct (p x); simpl; apply IH.
Qed.

Lemma add_deps_last (components : dict component) (acc : graph) k : forall deps s,
  ~ In k (dict_keys acc) ->
  fold_left (fun (gr2 : graph) dep_id =>
               if dict_mem components dep_id
               then dict_set gr2 k (set_add dep_id (succs gr2 k))
               else gr2) deps (acc ++ [(k, s)])
  = acc ++ [(k, fold_left (fun s x => if dict_mem components x then set_add x s else s)
                          deps s)].
Proof.
  induction deps as [|d deps IH]; intros s Hk; simpl; [reflexivity|].
  destruct (dict_mem components d).
  - rewrite succs_app_last by assumption.
    rewrite dict_set_app_last by assumption. now apply IH.
  - now apply IH.
Qed.

Lemma build_graph_acc (components : dict component) : forall (items : dict component) (acc : graph),
  NoDup (dict_keys acc ++ dict_keys items) ->
  fold_left
    (fun (gr : graph) (it : string * component) =>
       let gr1 := if dict_mem gr (fst it) then gr else dict_set gr (fst it) [] in
       fold_left (fun (gr2 : graph) dep_id =>
                    if dict_mem components dep_id
                    then dict_set gr2 (fst it) (set_add dep_id (succs gr2 (fst it)))
                    else gr2)
                 (depends_on (snd it)) gr1)
    items acc
  = acc ++ map (fun it : string * component =>
                  (fst it, internal_deps components (snd it))) items.
Proof.
  induction items as [|[k c] items IH]; intros acc Hnd; simpl.
  - now rewrite app_nil_r.
  - assert (Hk : ~ In k (dict_keys acc)).
    { apply NoDup_remove_2 in Hnd. intros H. apply Hnd. apply in_or_app. now left. }
    assert (E : dict_mem acc k = false) by now apply dict_mem_false.
    rewrite E. rewrite dict_set_new by assumption.
    rewrite add_deps_last by assumption.
    rewrite IH.
    + rewrite <- app_assoc. simpl. unfold internal_deps, set_of.
      now rewrite set_of_acc_filter.
    + rewrite dict_keys_app. simpl. rewrite <- app_assoc. simpl. exact Hnd.
Qed.

Lemma build_graph_eq (components : dict component) :
  NoDup (dict_keys components) ->
  build_graph_from_components components
  = map (fun it : string * component =>
           (fst it, internal_deps components (snd it))) components.
Proof.
  intros H. unfold build_graph_from_components.
  exact (build_graph_acc components components [] H).
Qed.

Lemma build_graph_keys (components : dict component) :
  NoDup (dict_keys components) ->
  dict_keys (build_graph_from_components components) = dict_keys components.
Proof.
  intros H. rewrite build_graph_eq by assumption.
  unfold dict_keys. rewrite map_map. reflexivity.
Qed.

Lemma build_graph_In (components : dict component) k ds :
  NoDup (dict_keys components) ->
  In (k, ds) (build_graph_from_components components) ->
  exists c, In (k, c) components /\ ds = internal_deps components c.
Proof.
  intros H Hi. rewrite build_graph_eq in Hi by assumption.
  apply in_map_iff in Hi. destruct Hi as [[k' c] [[= <- <-] Hi]].
  exists c. split; [assumption | reflexivity].
Qed.

Lemma internal_deps_In components c d :
  In d (internal_deps components c)
  <-> In d (depends_on c) /\ In d (dict_keys components).
Proof.
  unfold internal_deps. rewrite set_of_In, filter_In, dict_mem_keys. tauto.
Qed.

Lemma build_graph_normal (components : dict component) :
  NoDup (dict_keys components) ->
  normal (build_graph_from_components components).
Proof.
  intros H. split; [split|].
  - now rewrite build_graph_keys.
  - intros k ds Hi. destruct (build_graph_In _ _ _ H Hi) as [c [_ ->]].
    apply set_of_NoDup.
  - intros k ds d Hi Hd. destruct (build_graph_In _ _ _ H Hi) as [c [_ ->]].
    rewrite build_graph_keys by assumption.
    now apply internal_deps_In in Hd.
Qed.

Lemma build_graph_succs (components : dict component) k c :
  NoDup (dict_keys components) -> In (k, c) components ->
  succs (build_graph_from_components components) k = internal_deps components c.
Proof.
  intros H Hi. unfold succs.
  rewrite (In_dict_get _ (build_graph_from_components components) k
             (internal_deps components c)); [reflexivity| |].
  - now rewrite build_graph_keys.
  - rewrite build_graph_eq by assumption.
    apply in_map_iff. exists (k, c). split; [reflexivity | assumption].
Qed.

(** [build_graph_from_components] gives one node per component, in the
    order of the components, and an edge [k -> d] exactly when [d] is listed
    in [k]'s [depends_on] and is a component itself; so every dependency
    target is a node and nothing has to be normalised. *)
Theorem build_graph_from_components_spec (components : dict component) :
  NoDup (dict_keys components) ->
  dict_keys (build_graph_from_components components) = dict_keys components
  /\ wf_graph (build_graph_from_components components)
  /\ closed (build_graph_from_components components)
  /\ _normalize_graph (build_graph_from_components components)
     = build_graph_from_components components
  /\ forall k c d, In (k, c) components ->
       (In d (succs (build_graph_from_components components) k)
        <-> In d (depends_on c) /\ In d (dict_keys components)).
Proof.
  intros H. destruct (build_graph_normal components H) as [W C].
  split; [now apply build_graph_keys|]. split; [exact W|]. split; [exact C|].
  split; [now apply normalize_id|].
  intros k c d Hi. rewrite (build_graph_succs components k c H Hi).
  apply internal_deps_In.
Qed.

Lemma build_graph_from_components_spec_witness :
  dict_keys (build_graph_from_components external_components) = ["A"; "B"]
  /\ closed (build_graph_from_components external_components).
Proof.
  destruct (build_graph_from_components_spec external_components)
    as [K [_ [C _]]].
  - apply nodupb_NoDup. reflexivity.
  - split; [exact K | exact C].
Defined.

(** The pipeline of [run_topo_sort.py]: whatever the dependencies between
    the components are, cyclic or not, each of the two orders computed from
    [build_graph_from_components] lists every component exactly once and
    nothing else. *)
Theorem component_orders_are_permutations (components : dict component) :
  NoDup (dict_keys components) ->
  exists order_kahn order_dfs,
    topological_sort (build_graph_from_components components) = Some order_kahn
    /\ dependency_first_dfs (build_graph_from_components components)
       = Some order_dfs
    /\ Permutation order_kahn (dict_keys components)
    /\ Permutation order_dfs (dict_keys components).
Proof.
  intros H. set (G := build_graph_from_components components).
  destruct (build_graph_normal components H) as [W C]. fold G in W, C.
  assert (HG : _normalize_graph G = G) by now apply normalize_id.
  destruct (resolve_cycles_total G) as [g' R].
  destruct (resolve_cycles_normal G g' R) as [N [E K]].
  rewrite HG in K. unfold G in K. rewrite build_graph_keys in K by assumption.
  destruct (kahn_spec g' N) as [dr [un [K1 [_ [_ [K4 [K5 _]]]]]]].
  destruct (postorder_spec g' N) as [ld [P1 [P2 [P3 _]]]].
  exists (dr ++ un), ld.
  split; [unfold topological_sort; rewrite R; simpl; now rewrite E|].
  split; [unfold dependency_first_dfs; rewrite R; simpl; now rewrite E|].
  split; apply NoDup_Permutation; auto.
  - intros x. rewrite K5, K. reflexivity.
  - intros x. rewrite P3, K. reflexivity.
Qed.

Lemma component_orders_are_permutations_witness :
  exists order_kahn order_dfs,
    topological_sort (build_graph_from_components external_components)
    = Some order_kahn
    /\ dependency_first_dfs (build_graph_from_components external_components)
       = Some order_dfs
    /\ Permutation order_kahn ["A"; "B"]
    /\ Permutation order_dfs ["A"; "B"].
Proof.
  apply (component_orders_are_permutations external_components).
  apply nodupb_NoDup. reflexivity.
Defined.

(** ** Outgoing and incoming edges of the components *)

Lemma wf_succs_NoDup (g : graph) n : wf_graph g -> NoDup (succs g n).
Proof.
  intros [_ W]. unfold succs. destruct (dict_get g n) as [ds|] eqn:E; [|constructor].
  apply dict_get_In in E. eapply W. exact E.
Qed.

Lemma succs_map_pair (F : node -> list node) (ns : list node) nd :
  succs (map (fun n => (n, F n)) ns) nd = if set_mem nd ns then F nd else [].
Proof.
  unfold succs. induction ns as [|m ns IH]; [reflexivity|].
  cbn [map dict_get]. unfold set_mem. cbn [existsb].
  rewrite (String.eqb_sym nd m).
  destruct (String.eqb_spec m nd) as [->|Hn]; [reflexivity|].
  cbn [orb]. exact IH.
Qed.

(** The outgoing edges: the graph of [build_graph_from_components], with
    keys and sets in the iteration order of the sets. *)
Lemma out_edges_spec set_order (components : dict component) :
  set_iteration set_order -> NoDup (dict_keys components) ->
  let out_edges :=
    fst (build_in_out_edges_from_components set_order components) in
  dict_keys out_edges = set_order (dict_keys components)
  /\ wf_graph out_edges
  /\ closed out_edges
  /\ (forall nd, succs out_edges nd
                 = set_order (succs (build_graph_from_components components) nd))
  /\ forall src dst,
       In dst (succs out_edges src)
       <-> In dst (succs (build_graph_from_components components) src).
Proof.
  intros Ho Hnd out_edges.
  pose proof (build_edges_keys set_order components) as K. fold out_edges in K.
  destruct (build_graph_normal components Hnd) as [[W1 W2] C].
  pose proof (build_graph_keys components Hnd) as Kg.
  assert (Hnil : set_order [] = []).
  { apply Permutation_nil. apply Permutation_sym. apply (Ho []). }
  assert (S : forall nd, succs out_edges nd
                = set_order (succs (build_graph_from_components components) nd)).
  { intros nd. unfold out_edges, build_in_out_edges_from_components. cbn [fst].
    rewrite (succs_map_pair
               (fun n => set_order (succs (build_graph_from_components components) n))).
    destruct (set_mem nd (set_order (dict_keys components))) eqn:E;
      [reflexivity|].
    apply set_mem_false in E. rewrite (set_order_In set_order _ nd Ho) in E.
    rewrite <- Kg in E.
    assert (En : succs (build_graph_from_components components) nd = []).
    { unfold succs. apply dict_get_None in E. now rewrite E. }
    rewrite En. symmetry. exact Hnil. }
  assert (M : forall src dst,
             In dst (succs out_edges src)
             <-> In dst (succs (build_graph_from_components components) src)).
  { intros src dst. rewrite S. now apply set_order_In. }
  split; [exact K|]. split; [|split; [|split; [exact S | exact M]]].
  - split.
    + rewrite K. now apply set_order_NoDup.
    + intros k ds Hi.
      assert (E : succs out_edges k = ds).
      { unfold succs. rewrite (In_dict_get _ out_edges k ds); [reflexivity | | exact Hi].
        rewrite K. now apply set_order_NoDup. }
      rewrite <- E, S. now apply set_order_NoDup.
  - intros k ds d Hi Hd.
    assert (E : succs out_edges k = ds).
    { unfold succs. rewrite (In_dict_get _ out_edges k ds); [reflexivity | | exact Hi].
      rewrite K. now apply set_order_NoDup. }
    rewrite <- E in Hd. apply M in Hd.
    rewrite K. apply set_order_In; [exact Ho|]. rewrite <- Kg.
    apply succs_In in Hd. destruct Hd as [ds' [Hi' Hd']].
    apply dict_get_In in Hi'. eapply C; eassumption.
Qed.

(** One source: [for dst in deps: if dst in in_edges: in_edges[dst].add(src)] *)
Lemma add_source_spec (src : node) : forall (deps : list node) (ie : graph),
  let ie' :=
    fold_left (fun (ie2 : graph) dst =>
                 if dict_mem ie2 dst
                 then dict_set ie2 dst (set_add src (succs ie2 dst))
                 else ie2) deps ie in
  dict_keys ie' = dict_keys ie
  /\ (forall d s, In s (succs ie' d) <->
                  In s (succs ie d) \/ (s = src /\ In d deps /\ In d (dict_keys ie)))
  /\ ((forall d, NoDup (succs ie d)) -> forall d, NoDup (succs ie' d)).
Proof.
  induction deps as [|dst deps IH]; intros ie; cbn zeta; simpl.
  - split; [reflexivity|]. split; [|auto]. intros d s. tauto.
  - destruct (dict_mem ie dst) eqn:E.
    + apply dict_mem_keys in E.
      specialize (IH (dict_set ie dst (set_add src (succs ie dst)))).
      cbn zeta in IH. destruct IH as [K [M N]].
      rewrite dict_keys_set_old in K, M by assumption.
      split; [exact K|]. split.
      * intros d s. rewrite M, succs_dict_set.
        destruct (String.eqb_spec dst d) as [->|Hd].
        -- rewrite set_add_In. intuition.
        -- intuition (try congruence).
      * intros Hnd. apply N. intros d. rewrite succs_dict_set.
        destruct (String.eqb dst d); [|apply Hnd].
        apply set_add_NoDup. apply Hnd.
    + apply dict_mem_false in E.
      specialize (IH ie). cbn zeta in IH. destruct IH as [K [M N]].
      split; [exact K|]. split; [|exact N].
      intros d s. rewrite M. intuition. subst. contradiction.
Qed.

Lemma add_sources_spec : forall (items ie : graph),
  let ie' :=
    fold_left
      (fun (ie1 : graph) (it : node * list node) =>
         fold_left (fun (ie2 : graph) dst =>
                      if dict_mem ie2 dst
                      then dict_set ie2 dst (set_add (fst it) (succs ie2 dst))
                      else ie2)
                   (snd it) ie1)
      items ie in
  dict_keys ie' = dict_keys ie
  /\ (forall d s, In s (succs ie' d) <->
                  In s (succs ie d)
                  \/ (In d (dict_keys ie) /\ exists deps, In (s, deps) items /\ In d deps))
  /\ ((forall d, NoDup (succs ie d)) -> forall d, NoDup (succs ie' d)).
Proof.
  induction items as [|[src deps] items IH]; intros ie; cbn zeta; simpl.
  - split; [reflexivity|]. split; [|auto]. intros d s.
    split; [now left | intros [H|[_ [? [[] _]]]]; assumption].
  - destruct (add_source_spec src deps ie) as [K1 [M1 N1]].
    match type of K1 with dict_keys ?x = _ => set (ie1 := x) in * end.
    specialize (IH ie1). cbn zeta in IH. destruct IH as [K [M N]].
    split; [congruence|]. split.
    + intros d s. rewrite M, M1, K1. split.
      * intros [[H|[-> [H1 H2]]]|[H1 [ds [H2 H3]]]].
        -- now left.
        -- right. split; [assumption|]. exists deps. split; [now left | assumption].
        -- right. split; [assumption|]. exists ds. split; [now right | assumption].
      * intros [H|[H1 [ds [[H2|H2] H3]]]].
        -- left. now left.
        -- injection H2 as -> ->. left. right. auto.
        -- right. split; [assumption|]. exists ds. auto.
    + intros Hnd. apply N. now apply N1.
Qed.

Lemma succs_empty_items ks d : succs (empty_items ks) d = [].
Proof.
  unfold succs. destruct (dict_get (empty_items ks) d) as [s|] eqn:E; [|reflexivity].
  apply dict_get_In in E. unfold empty_items in E. apply in_map_iff in E.
  destruct E as [x [[= _ <-] _]]. reflexivity.
Qed.

Lemma succs_In_items (g : graph) s d :
  NoDup (dict_keys g) ->
  (In d (succs g s) <-> exists deps, In (s, deps) g /\ In d deps).
Proof.
  intros H. unfold succs. split.
  - destruct (dict_get g s) as [ds|] eqn:E; [|intros []].
    intros Hd. exists ds. split; [now apply dict_get_In | assumption].
  - intros [deps [Hi Hd]]. now rewrite (In_dict_get _ g s deps H Hi).
Qed.

Lemma set_order_keys set_order (components : dict component) :
  set_iteration set_order -> NoDup (dict_keys components) ->
  Permutation (set_order (dict_keys components)) (dict_keys components).
Proof.
  intros Ho Hnd. pose proof (Ho (dict_keys components)) as P.
  now rewrite (set_of_id _ Hnd) in P.
Qed.

Lemma edges_of_components set_order (components : dict component) :
  set_iteration set_order -> NoDup (dict_keys components) ->
  let out_edges :=
    fst (build_in_out_edges_from_components set_order components) in
  let in_edges :=
    snd (build_in_out_edges_from_components set_order components) in
  Permutation (dict_keys out_edges) (dict_keys components)
  /\ dict_keys in_edges = dict_keys out_edges
  /\ wf_graph out_edges
  /\ closed out_edges
  /\ wf_graph in_edges
  /\ (forall src dst,
        In dst (succs out_edges src)
        <-> In dst (succs (build_graph_from_components components) src))
  /\ forall src dst, In src (succs in_edges dst) <-> In dst (succs out_edges src).
Proof.
  intros Ho Hnd out_edges in_edges.
  destruct (out_edges_spec set_order components Ho Hnd) as [K [W [C [_ M]]]].
  fold out_edges in K, W, C, M.
  destruct (add_sources_spec out_edges
              (empty_items (set_order (dict_keys components))))
    as [K2 [M2 N2]].
  change (fold_left _ out_edges (empty_items (set_order (dict_keys components))))
    with in_edges in K2, M2, N2.
  rewrite dict_keys_empty_items in K2, M2.
  assert (Hno : NoDup (set_order (dict_keys components)))
    by now apply set_order_NoDup.
  split; [rewrite K; now apply set_order_keys|].
  split; [congruence|]. split; [exact W|]. split; [exact C|].
  split; [split|split; [exact M|]].
  - rewrite K2. exact Hno.
  - intros k ds Hi.
    assert (E : succs in_edges k = ds).
    { unfold succs. rewrite (In_dict_get _ in_edges k ds); [reflexivity | | exact Hi].
      rewrite K2. exact Hno. }
    rewrite <- E. apply N2. intros d. rewrite succs_empty_items. constructor.
  - intros src dst. rewrite M2, succs_empty_items.
    rewrite (succs_In_items out_edges src dst (proj1 W)).
    split.
    + intros [[]|[_ Hd]]. exact Hd.
    + intros [deps [Hi Hd]]. right. split; [|eauto].
      rewrite <- K. eapply C; eassumption.
Qed.

(** [build_in_out_edges_from_components], whatever the iteration order of
    its sets: both dicts have the components as keys, in the same order;
    the outgoing edges are the edges of [build_graph_from_components]; and
    the incoming edges are the outgoing edges reversed: [src] is in
    [in_edges[dst]] exactly when [dst] is in [out_edges[src]]. *)
Theorem in_edges_reverse_out_edges (set_order : list string -> list string)
    (components : dict component) :
  set_iteration set_order -> NoDup (dict_keys components) ->
  let out_edges :=
    fst (build_in_out_edges_from_components set_order components) in
  let in_edges :=
    snd (build_in_out_edges_from_components set_order components) in
  Permutation (dict_keys out_edges) (dict_keys components)
  /\ dict_keys in_edges = dict_keys out_edges
  /\ wf_graph out_edges
  /\ closed out_edges
  /\ wf_graph in_edges
  /\ (forall src dst,
        In dst (succs out_edges src)
        <-> In dst (succs (build_graph_from_components components) src))
  /\ forall src dst, In src (succs in_edges dst) <-> In dst (succs out_edges src).
Proof. apply edges_of_components. Qed.

Lemma reverse_order_iteration : set_iteration reverse_order.
Proof.
  intros l. unfold reverse_order. apply Permutation_sym, Permutation_rev.
Qed.

Lemma in_edges_reverse_out_edges_witness :
  In "A" (succs (snd (build_in_out_edges_from_components reverse_order
                        external_components)) "B")
  <-> In "B" (succs (fst (build_in_out_edges_from_components reverse_order
                            external_components)) "A").
Proof.
  refine (proj2 (proj2 (proj2 (proj2 (proj2 (proj2
            (in_edges_reverse_out_edges reverse_order external_components
               reverse_order_iteration _)))))) "A" "B").
  apply nodupb_NoDup. reflexivity.
Defined.

(** ** [compute_pagerank] in any arithmetic: when it returns *)

Section PageRankAny.
Context {R : Type} {AR : Arith R}.

Lemma add_in_edges_fails src : forall dsts ie d,
  In d dsts -> ~ In d (dict_keys ie) -> add_in_edges src dsts ie = None.
Proof.
  induction dsts as [|dst dsts IH]; intros ie d Hd Hk; [destruct Hd|].
  simpl. destruct (dict_get ie dst) as [l|] eqn:E; [|reflexivity].
  simpl. destruct Hd as [->|Hd].
  - exfalso. apply Hk. apply dict_get_In in E.
    apply in_map_iff. exists (d, l). split; [reflexivity | assumption].
  - apply (IH _ d Hd). rewrite dict_keys_set_old; [assumption|].
    apply dict_get_In in E. apply in_map_iff. exists (dst, l).
    split; [reflexivity | assumption].
Qed.

Lemma add_in_edges_keys src : forall dsts ie ie',
  add_in_edges src dsts ie = Some ie' -> dict_keys ie' = dict_keys ie.
Proof.
  induction dsts as [|dst dsts IH]; intros ie ie' H; simpl in H.
  - now injection H as <-.
  - destruct (dict_get ie dst) as [l|] eqn:E; [|discriminate]. simpl in H.
    rewrite (IH _ _ H). apply dict_keys_set_old.
    apply dict_get_In in E. apply in_map_iff. exists (dst, l).
    split; [reflexivity | assumption].
Qed.

Lemma build_in_edges_fails : forall (items : graph) ie k ds d,
  In (k, ds) items -> In d ds -> ~ In d (dict_keys ie) ->
  build_in_edges items ie = None.
Proof.
  induction items as [|[k0 ds0] items IH]; intros ie k ds d Hi Hd Hk;
    [destruct Hi|].
  simpl. destruct (add_in_edges k0 ds0 ie) as [ie1|] eqn:E; [|reflexivity].
  simpl. destruct Hi as [Hi|Hi].
  - injection Hi as -> ->. rewrite (add_in_edges_fails k ds ie d Hd Hk) in E.
    discriminate.
  - apply (IH ie1 k ds d Hi Hd). now rewrite (add_in_edges_keys _ _ _ _ E).
Qed.

Variable g : graph.
Hypothesis Hwf : wf_graph g.
Hypothesis Hcl : closed g.

Lemma compute_pagerank_returns (damping tol : R) (max_iter : Z) :
  exists rank,
    compute_pagerank g damping max_iter tol = Some rank
    /\ dict_keys rank = dict_keys g.
Proof.
  destruct (Nat.eqb (List.length (dict_keys g)) 0) eqn:Hlen.
  - exists []. unfold compute_pagerank. cbv zeta. rewrite Hlen.
    split; [reflexivity|].
    apply Nat.eqb_eq in Hlen. destruct (dict_keys g); [reflexivity | discriminate].
  - assert (Hne : g <> []) by (intros E; rewrite E in Hlen; discriminate).
    destruct (compute_pagerank_iterates g Hwf Hcl damping tol max_iter Hne)
      as [k [E _]].
    exists (ranks_after g damping k). split; [exact E|].
    now apply keys_ranks_after.
Qed.
End PageRankAny.

Lemma not_closed_pagerank_fails (R : Type) (AR : Arith R) (g : graph)
    (damping tol : R) (max_iter : Z) k ds d :
  In (k, ds) g -> In d ds -> ~ In d (dict_keys g) ->
  compute_pagerank g damping max_iter tol = None.
Proof.
  intros Hi Hd Hk. unfold compute_pagerank. cbv zeta.
  destruct (Nat.eqb (List.length (dict_keys g)) 0) eqn:Hlen.
  - apply Nat.eqb_eq in Hlen. destruct g; [destruct Hi | discriminate].
  - rewrite (build_in_edges_fails g _ k ds d Hi Hd); [reflexivity|].
    now rewrite in_edges_init_keys.
Qed.

(** In binary64, as in any arithmetic: on a dict of sets [compute_pagerank]
    returns a rank for every key, in the order of the keys, when every
    successor is a key; and it raises ([in_edges[dst]] is a [KeyError]) when
    some successor is not a key.  The empty graph gives the empty dict. *)
Theorem compute_pagerank_returns_iff_closed (g : graph) (damping tol : float)
    (max_iter : Z) :
  wf_graph g ->
  (closed g ->
     exists rank, compute_pagerank g damping max_iter tol = Some rank
                  /\ dict_keys rank = dict_keys g)
  /\ (~ closed g -> compute_pagerank g damping max_iter tol = None)
  /\ (g = [] -> compute_pagerank g damping max_iter tol = Some []).
Proof.
  intros W. split; [|split].
  - intros C. now apply compute_pagerank_returns.
  - intros NC.
    destruct (closedb g) eqn:E; [exfalso; apply NC; now apply closedb_sound|].
    unfold closedb in E.
    assert (H : exists k ds d, In (k, ds) g /\ In d ds /\ ~ In d (dict_keys g)).
    { clear NC W. revert E. generalize (dict_keys g) as ks.
      induction g as [|[k ds] g' IH]; intros ks E; [discriminate|].
      simpl in E. apply andb_false_iff in E. destruct E as [E|E].
      - assert (H : exists d, In d ds /\ ~ In d ks).
        { clear IH. induction ds as [|d ds IHd]; [discriminate|].
          simpl in E. apply andb_false_iff in E. destruct E as [E|E].
          - exists d. split; [now left | now apply set_mem_false].
          - destruct (IHd E) as [d' [H1 H2]]. exists d'. split; [now right | assumption]. }
        destruct H as [d [H1 H2]]. exists k, ds, d. split; [now left | auto].
      - destruct (IH ks E) as [k' [ds' [d [H1 [H2 H3]]]]].
        exists k', ds', d. split; [now right | auto]. }
    destruct H as [k [ds [d [H1 [H2 H3]]]]].
    exact (not_closed_pagerank_fails float float_arith g damping tol max_iter
             k ds d H1 H2 H3).
  - intros ->. reflexivity.
Qed.

Lemma compute_pagerank_returns_iff_closed_witness :
  (exists rank, compute_pagerank diamond 0.85%float 50 1e-08%float = Some rank
                /\ dict_keys rank = dict_keys diamond)
  /\ compute_pagerank [("A", ["B"])] 0.85%float 50 1e-08%float = None.
Proof.
  split.
  - apply (compute_pagerank_returns_iff_closed diamond 0.85%float 1e-08%float 50).
    + apply wf_graphb_sound. reflexivity.
    + apply closedb_sound. reflexivity.
  - apply (compute_pagerank_returns_iff_closed [("A", ["B"])] 0.85%float 1e-08%float 50).
    + apply wf_graphb_sound. reflexivity.
    + intros C. specialize (C "A" ["B"] "B"). simpl in C.
      destruct C as [C|C]; [now left | now left | discriminate | exact C].
Defined.

(** ** What selection and the output file contain *)

Lemma firstn_In (A : Type) (x : A) : forall n l, In x (firstn n l) -> In x l.
Proof.
  induction n as [|n IH]; intros l H; [destruct H|].
  destruct l as [|a l]; [destruct H|]. simpl in H.
  destruct H as [H|H]; [now left | right; now apply IH].
Qed.

Lemma firstn_NoDup (A : Type) (l : list A) n : NoDup l -> NoDup (firstn n l).
Proof.
  revert n. induction l as [|a l IH]; intros n H; destruct n; simpl;
    try constructor.
  - inversion H; subst. intros Hin. apply H2. eapply firstn_In. exact Hin.
  - inversion H; subst. now apply IH.
Qed.

Lemma select_shape (metrics : dict Metrics) (p : float) (l : list string) :
  NoDup (dict_keys metrics) ->
  select_top_percent metrics p = Some l ->
  NoDup l
  /\ (forall cid, In cid l -> In cid (dict_keys metrics))
  /\ List.length l <= List.length metrics
  /\ (PrimFloat.leb p 0%float = false -> metrics <> [] -> l <> []).
Proof.
  intros Hnd H.
  destruct (PrimFloat.leb p 0%float) eqn:E0.
  - rewrite (select_nonpositive metrics p E0) in H. injection H as <-.
    split; [constructor|]. split; [intros cid []|]. split; [simpl; lia|].
    discriminate.
  - destruct (PrimFloat.leb 100%float p) eqn:E1.
    + destruct (select_everything metrics p E0 E1) as [l' [S [_ P]]].
      rewrite S in H. injection H as <-.
      split; [|split; [|split]].
      * eapply Permutation_NoDup; [apply Permutation_sym; exact P | exact Hnd].
      * intros cid Hc. eapply Permutation_in; eassumption.
      * rewrite (Permutation_length P). unfold dict_keys. now rewrite length_map.
      * intros _ Hne ->. apply Permutation_nil in P.
        destruct metrics; [congruence | discriminate].
    + destruct (select_prefix metrics p l E0 E1 H)
        as [k0 [ranked [_ [_ [P [-> B]]]]]].
      assert (Hr : NoDup ranked).
      { eapply Permutation_NoDup; [apply Permutation_sym; exact P | exact Hnd]. }
      split; [now apply firstn_NoDup|]. split; [|split].
      * intros cid Hc. apply firstn_In in Hc.
        eapply Permutation_in; eassumption.
      * rewrite length_firstn. rewrite (Permutation_length P).
        unfold dict_keys. rewrite length_map. lia.
      * intros _ Hne Hnil. specialize (B Hne). rewrite Hnil in B. simpl in B. lia.
Qed.

(** Whatever the percentage, an answer of [select_top_percent] consists of
    distinct keys of [metrics]; and a positive percentage keeps at least
    one component of a non-empty [metrics]. *)
Theorem select_top_percent_keeps_keys (metrics : dict Metrics) (p : float)
    (l : list string) :
  NoDup (dict_keys metrics) ->
  select_top_percent metrics p = Some l ->
  NoDup l
  /\ (forall cid, In cid l -> In cid (dict_keys metrics))
  /\ List.length l <= List.length metrics
  /\ (PrimFloat.leb p 0%float = false -> metrics <> [] -> l <> []).
Proof. apply select_shape. Qed.

Lemma select_top_percent_keeps_keys_witness :
  exists l, select_top_percent hundred_metrics 7%float = Some l
            /\ NoDup l
            /\ (forall cid, In cid l -> In cid (dict_keys hundred_metrics)).
Proof.
  destruct (select_top_percent hundred_metrics 7%float) as [l|] eqn:E;
    [|vm_compute in E; discriminate].
  exists l. split; [reflexivity|].
  destruct (select_top_percent_keeps_keys hundred_metrics 7%float l) as [A [B _]].
  - apply nodupb_NoDup. vm_compute. reflexivity.
  - exact E.
  - split; assumption.
Defined.

Lemma write_fold_get (components : dict component) (cid : string) :
  forall (selected : list string) (acc : dict component),
  dict_get
    (fold_left (fun (out : dict component) c =>
                  match dict_get components c with
                  | Some v => dict_set out c v
                  | None => out
                  end) selected acc) cid
  = if set_mem cid selected
    then match dict_get components cid with
         | Some v => Some v
         | None => dict_get acc cid
         end
    else dict_get acc cid.
Proof.
  induction selected as [|c selected IH]; intros acc; simpl; [reflexivity|].
  rewrite IH. destruct (String.eqb_spec cid c) as [->|Hd]; simpl.
  - destruct (dict_get components c) as [v|] eqn:E.
    + rewrite dict_get_set_same. destruct (set_mem c selected); reflexivity.
    + destruct (set_mem c selected); reflexivity.
  - destruct (dict_get components c) as [v|] eqn:E; [|reflexivity].
    rewrite dict_get_set_other by congruence. reflexivity.
Qed.

Lemma write_fold_NoDup (components : dict component) :
  forall (selected : list string) (acc : dict component),
  NoDup (dict_keys acc) ->
  NoDup (dict_keys
    (fold_left (fun (out : dict component) c =>
                  match dict_get components c with
                  | Some v => dict_set out c v
                  | None => out
                  end) selected acc)).
Proof.
  induction selected as [|c selected IH]; intros acc H; simpl; [assumption|].
  apply IH. destruct (dict_get components c); [|assumption].
  now apply dict_set_NoDup.
Qed.

(** [write_filtered_components] writes, under the given path, exactly the
    selected identifiers that are components, each with its own component;
    a selected identifier that is no component is skipped, and nothing
    else gets into the file. *)
Theorem written_file_holds_selected_components (components : dict component)
    (selected : list string) (out_path : string) :
  exists content,
    write_filtered_components components selected out_path
    = WriteFile out_path content
    /\ NoDup (dict_keys content)
    /\ forall cid, dict_get content cid
                   = if set_mem cid selected then dict_get components cid
                     else None.
Proof.
  unfold write_filtered_components. eexists. split; [reflexivity|]. split.
  - apply write_fold_NoDup. constructor.
  - intros cid. rewrite write_fold_get. simpl.
    destruct (set_mem cid selected); [|reflexivity].
    destruct (dict_get components cid); reflexivity.
Qed.

(** ** How [main] ends *)

Lemma print_report_effects args metrics selected :
  Forall is_print (fst (print_report args metrics selected))
  /\ (snd (print_report args metrics selected) = Raised
      \/ snd (print_report args metrics selected) = Returned 0).
Proof.
  unfold print_report.
  destruct (ranking metrics (dict_keys metrics)) as [ranked|];
    [|simpl; auto].
  destruct (positive_percent (arg_print_top_percent args)
            || positive_count (arg_print_top args)); [|simpl; auto].
  destruct (positive_percent (arg_print_top_percent args)).
  - destruct (py_ceil _) as [k0|]; simpl.
    + split; [repeat constructor | now right].
    + split; [repeat constructor | now left].
  - simpl. split; [repeat constructor | now right].
Qed.

(** The ways [main] can end.  When argparse rejects the command line or
    prints its help, [main] ends with the exit of argparse and has done
    nothing else.  A return is a return of [0], made after the output file
    was written under [--output], as the first effect and the only write.
    The usage error is raised only when [--print-top] is given and
    [--print-top-percent] is positive, after that one write and before
    anything is printed.  Any other exception is raised either before
    anything was done or after that one write. *)
Theorem main_outcomes (parse_args : list string -> parsed)
    (load : string -> option (dict component))
    (sample : Z -> nat -> nat -> list nat)
    (set_order : list string -> list string) (argv : list string)
    (effs : list effect) (out : outcome) :
  main parse_args load sample set_order argv = (effs, out) ->
  match out with
  | ParserExit status =>
      parse_args argv = ArgparseExit status /\ effs = []
  | Returned code =>
      code = 0%Z
      /\ exists args content prints,
           parse_args argv = Namespace args
           /\ effs = WriteFile (arg_output args) content :: prints
           /\ Forall is_print prints
  | SystemExit message =>
      message = usage_error
      /\ exists args k content,
           parse_args argv = Namespace args
           /\ arg_print_top args = Some k
           /\ positive_percent (arg_print_top_percent args) = true
           /\ effs = [WriteFile (arg_output args) content]
  | Raised =>
      exists args,
        parse_args argv = Namespace args
        /\ (effs = []
            \/ exists content prints,
                 effs = WriteFile (arg_output args) content :: prints
                 /\ Forall is_print prints)
  end.
Proof.
  unfold main. destruct (parse_args argv) as [args|status] eqn:Ea;
    [|intros [= <- <-]; auto].
  destruct (load (arg_input args)) as [components|];
    [|intros [= <- <-]; eauto].
  destruct (build_in_out_edges_from_components set_order components) as [oe ie].
  destruct (Nat.eqb (List.length oe) 0).
  - intros [= <- <-]. split; [reflexivity|].
    exists args, [], []. split; [reflexivity|]. split; [reflexivity | constructor].
  - destruct (compute_metrics _ _ _ _) as [metrics|]; [|intros [= <- <-]; eauto].
    destruct (select_top_percent _ _) as [selected|]; [|intros [= <- <-]; eauto].
    unfold write_filtered_components.
    assert (Hrep : forall effs out,
              (WriteFile (arg_output args)
                 (fold_left (fun (o : dict component) cid =>
                               match dict_get components cid with
                               | Some c => dict_set o cid c
                               | None => o
                               end) selected [])
               :: fst (print_report args metrics selected),
               snd (print_report args metrics selected)) = (effs, out) ->
              match out with
              | ParserExit status =>
                  Namespace args = ArgparseExit status /\ effs = []
              | Returned code =>
                  code = 0%Z
                  /\ exists args0 content prints,
                       Namespace args = Namespace args0
                       /\ effs = WriteFile (arg_output args0) content :: prints
                       /\ Forall is_print prints
              | SystemExit message =>
                  message = usage_error
                  /\ exists args0 k content,
                       Namespace args = Namespace args0
                       /\ arg_print_top args0 = Some k
                       /\ positive_percent (arg_print_top_percent args0) = true
                       /\ effs = [WriteFile (arg_output args0) content]
              | Raised =>
                  exists args0,
                    Namespace args = Namespace args0
                    /\ (effs = []
                        \/ exists content prints,
                             effs = WriteFile (arg_output args0) content :: prints
                             /\ Forall is_print prints)
              end).
    { intros effs' out'.
      destruct (print_report_effects args metrics selected) as [P1 [P2|P2]];
        intros [= <- <-]; rewrite P2.
      - exists args. split; [reflexivity|]. right. eauto.
      - split; [reflexivity|]. exists args. eauto. }
    destruct (arg_print_top args) as [k|] eqn:Ek; cbn [andb]; [|exact (Hrep _ _)].
    destruct (positive_percent (arg_print_top_percent args)) eqn:Ep;
      [|exact (Hrep _ _)].
    intros [= <- <-]. split; [reflexivity|].
    exists args, k. eexists. eauto.
Qed.

Lemma main_outcomes_witness :
  usage_error = usage_error
  /\ exists args k content,
       parsed_as (command_line 50%float (Some 2%Z)) both_flags = Namespace args
       /\ arg_print_top args = Some k
       /\ positive_percent (arg_print_top_percent args) = true
       /\ fst (main (parsed_as (command_line 50%float (Some 2%Z)))
                    (load_of three_components) all_sources reverse_order
                    both_flags)
          = [WriteFile (arg_output args) content].
Proof.
  exact (main_outcomes (parsed_as (command_line 50%float (Some 2%Z)))
           (load_of three_components) all_sources reverse_order both_flags
           _ (SystemExit usage_error) ltac:(vm_compute; reflexivity)).
Defined.

(** ** Percent-based printing stays within the output file *)

Lemma mapM_keys (A : Type) (f : string -> option (string * A)) :
  (forall x y, f x = Some y -> fst y = x) ->
  forall l ys, mapM f l = Some ys -> dict_keys ys = l.
Proof.
  intros Hf. induction l as [|x l IH]; intros ys H; simpl in H.
  - now injection H as <-.
  - destruct (f x) as [y|] eqn:E; [|discriminate]. simpl in H.
    destruct (mapM f l) as [ys'|] eqn:E'; [|discriminate]. simpl in H.
    injection H as <-. simpl. rewrite (Hf x y E). f_equal. now apply IH.
Qed.

Lemma compute_metrics_keys sample out_edges in_edges w metrics :
  compute_metrics sample out_edges in_edges w = Some metrics ->
  dict_keys metrics = dict_keys out_edges.
Proof.
  unfold compute_metrics. cbv zeta.
  destruct (mapM _ (dict_keys out_edges)) as [in_deg|]; [|discriminate].
  cbn [bind].
  destruct (mapM _ (dict_keys out_edges)) as [out_deg|]; [|discriminate].
  cbn [bind].
  destruct (compute_pagerank _ _ _ _) as [pr|]; [|discriminate]. cbn [bind].
  destruct (compute_betweenness _ _ _ _) as [bc|]; [|discriminate]. cbn [bind].
  apply mapM_keys. intros x y H.
  destruct (dict_get in_edges x); [|discriminate]. cbn [bind] in H.
  destruct (dict_get out_edges x); [|discriminate]. cbn [bind] in H.
  now injection H as <-.
Qed.

(** When [main] returns after printing by percentage, every row it printed
    names a component that it wrote to the output file. *)
Theorem percent_rows_are_in_output_file
    (parse_args : list string -> parsed)
    (load : string -> option (dict component))
    (sample : Z -> nat -> nat -> list nat)
    (set_order : list string -> list string) (argv : list string)
    (args : arguments)
    (components : dict component) (effs : list effect) (code : Z)
    (content : dict component) (path : string) (ids : list string) :
  parse_args argv = Namespace args ->
  set_iteration set_order ->
  load (arg_input args) = Some components ->
  NoDup (dict_keys components) ->
  positive_percent (arg_print_top_percent args) = true ->
  main parse_args load sample set_order argv = (effs, Returned code) ->
  In (WriteFile path content) effs ->
  In (PrintRows ids) effs ->
  forall cid, In cid ids -> In cid (dict_keys content).
Proof.
  intros Ha Ho Hl Hnd Hp Hm Hw Hr cid Hc. unfold main in Hm.
  rewrite Ha, Hl in Hm.
  pose proof (build_edges_keys set_order components) as Ko.
  destruct (build_in_out_edges_from_components set_order components) as [oe ie].
  cbn [fst] in Ko.
  destruct (Nat.eqb _ 0).
  { injection Hm as <- <-. destruct Hr as [Hr|[]]. discriminate. }
  destruct (compute_metrics _ _ _ _) as [metrics|] eqn:Em; [|discriminate].
  destruct (select_top_percent _ _) as [selected|] eqn:Es; [|discriminate].
  apply compute_metrics_keys in Em. rewrite Ko in Em.
  rewrite Hp in Hm. destruct (arg_print_top args) as [k|]; [discriminate|].
  cbn [andb] in Hm. unfold print_report in Hm.
  destruct (ranking metrics (dict_keys metrics)) as [ranked|];
    [|discriminate].
  rewrite Hp in Hm. cbn [orb] in Hm.
  destruct (py_ceil _) as [k0|]; [|discriminate].
  cbn [fst snd] in Hm. injection Hm as <- <-.
  assert (Hsel : In cid selected).
  { destruct Hr as [Hr|[Hr|[Hr|[Hr|[]]]]]; try discriminate.
    injection Hr as <-. apply firstn_In in Hc. apply filter_In in Hc.
    destruct Hc as [_ Hc]. now apply set_mem_In. }
  assert (Hkey : In cid (dict_keys components)).
  { apply (set_order_In set_order _ cid Ho). rewrite <- Em.
    assert (Hm' : NoDup (dict_keys metrics))
      by (rewrite Em; now apply set_order_NoDup).
    destruct (select_shape metrics (arg_top_percent args) selected Hm' Es)
      as [_ [S _]].
    now apply S. }
  destruct Hw as [Hw|[Hw|[Hw|[Hw|[]]]]]; try discriminate.
  unfold write_filtered_components in Hw. injection Hw as _ <-.
  apply dict_get_keys. rewrite write_fold_get.
  apply set_mem_In in Hsel. rewrite Hsel.
  apply dict_get_keys in Hkey. destruct Hkey as [v Hv]. rewrite Hv. eauto.
Qed.

Lemma percent_rows_are_in_output_file_witness :
  In "C" (dict_keys three_components).
Proof.
  refine (percent_rows_are_in_output_file
            (parsed_as (command_line 50%float None))
            (load_of three_components) all_sources reverse_order
            ["--input"; "graph.json"; "--output"; "out.json";
             "--print-top-percent"; "50"]
            (command_line 50%float None) three_components _ 0%Z
            three_components "out.json" ["B"; "C"] eq_refl
            reverse_order_iteration eq_refl _ eq_refl _ _ _ "C" _).
  - apply nodupb_NoDup. reflexivity.
  - vm_compute. reflexivity.
  - left. reflexivity.
  - right. right. right. left. reflexivity.
  - right. left. reflexivity.
Defined.

(** ** [compute_betweenness] returns *)

Lemma upd_length (A : Type) (l : list A) i x : List.length (upd l i x) = List.length l.
Proof.
  revert i. induction l as [|a l IH]; intros i; destruct i; simpl; auto.
Qed.

Lemma upd_Forall (A : Type) (P : A -> Prop) (l : list A) i x :
  Forall P l -> P x -> Forall P (upd l i x).
Proof.
  intros H Hx. revert i. induction H as [|a l Ha H IH]; intros i; destruct i; simpl;
    constructor; auto.
Qed.

Lemma nth_upd_same (A : Type) (l : list A) i x d :
  i < List.length l -> nth i (upd l i x) d = x.
Proof.
  revert i. induction l as [|a l IH]; intros i H; simpl in H; [lia|].
  destruct i; simpl; [reflexivity|]. apply IH. lia.
Qed.

Lemma unvisited_upd dist w z :
  w < List.length dist -> (nth w dist (-1) <? 0)%Z = true -> (0 <= z)%Z ->
  S (unvisited (upd dist w z)) = unvisited dist.
Proof.
  unfold unvisited. revert w. induction dist as [|a dist IH]; intros w Hw Hn Hz;
    simpl in Hw; [lia|].
  destruct w; simpl in *.
  - rewrite Hn. assert (E : (z <? 0)%Z = false) by (apply Z.ltb_ge; exact Hz).
    rewrite E. reflexivity.
  - destruct (a <? 0)%Z; simpl; [f_equal|]; apply IH; auto; lia.
Qed.

Lemma unvisited_le dist : unvisited dist <= List.length dist.
Proof. apply filter_length_le. Qed.

Lemma adjacency_row n adjacency v :
  adjacency_ok n adjacency -> Forall (fun i => i < n) (nth v adjacency []).
Proof.
  intros [_ H]. rewrite Forall_forall in H.
  destruct (Nat.lt_ge_cases v (List.length adjacency)) as [Hv|Hv].
  - apply H. now apply nth_In.
  - rewrite nth_overflow by assumption. constructor.
Qed.

Lemma index_graph_ok (out_edges : graph) :
  fst (_build_index_graph out_edges) = dict_keys out_edges
  /\ adjacency_ok (List.length (dict_keys out_edges))
                  (snd (_build_index_graph out_edges)).
Proof.
  unfold _build_index_graph. cbv zeta. cbn [fst snd]. split; [reflexivity|].
  split.
  - rewrite length_map. unfold dict_keys. now rewrite length_map.
  - apply Forall_forall. intros row Hr. apply in_map_iff in Hr.
    destruct Hr as [[k ds] [<- _]]. cbn [snd].
    apply Forall_forall. intros i Hi. apply in_flat_map in Hi.
    destruct Hi as [d [_ Hi]].
    destruct (dict_get _ d) as [j|] eqn:E; [|destruct Hi].
    destruct Hi as [<-|[]]. apply dict_get_In in E.
    apply in_combine_r in E. apply in_seq in E. lia.
Qed.

Section Betweenness.
Variable n : nat.
Variable adjacency : list (list nat).
Hypothesis adj_ok : adjacency_ok n adjacency.

Lemma scan_neighbours_ok v dv : forall ws b,
  (-1 <= dv)%Z -> Forall (fun i => i < n) ws -> buffers_ok n b ->
  buffers_ok n (scan_neighbours v dv ws b)
  /\ List.length (bq (scan_neighbours v dv ws b))
     + unvisited (bdist (scan_neighbours v dv ws b))
     = List.length (bq b) + unvisited (bdist b).
Proof.
  intros ws b Hdv Hws. revert b.
  induction Hws as [|w ws Hw Hws IH]; intros b B; simpl; [auto|].
  destruct B as [B1 B2].
  destruct (nth w (bdist b) (-1) <? 0)%Z eqn:E.
  - match goal with
    | |- context [scan_neighbours v dv ws ?b2] =>
        destruct (IH b2) as [I1 I2]
    end.
    { destruct (_ =? _)%Z; constructor; simpl;
        try (rewrite upd_length; assumption);
        apply upd_Forall; auto; lia. }
    split; [exact I1|]. rewrite I2.
    assert (U : S (unvisited (upd (bdist b) w (dv + 1)%Z)) = unvisited (bdist b)).
    { apply unvisited_upd; [lia | exact E | lia]. }
    destruct (_ =? _)%Z; simpl; rewrite length_app; simpl; lia.
  - match goal with
    | |- context [scan_neighbours v dv ws ?b2] =>
        destruct (IH b2) as [I1 I2]
    end.
    { destruct (_ =? _)%Z; constructor; simpl; assumption. }
    split; [exact I1|]. rewrite I2.
    destruct (_ =? _)%Z; simpl; reflexivity.
Qed.

Lemma nth_low (dist : list Z) v :
  Forall (fun z => (-1 <= z)%Z) dist -> (-1 <= nth v dist (-1))%Z.
Proof.
  intros H. destruct (Nat.lt_ge_cases v (List.length dist)) as [Hv|Hv].
  - rewrite Forall_forall in H. apply H. now apply nth_In.
  - rewrite nth_overflow by assumption. lia.
Qed.

Lemma bfs_returns : forall fuel b,
  buffers_ok n b ->
  List.length (bq b) + unvisited (bdist b) <= fuel ->
  exists b', bfs fuel adjacency b = Some b' /\ buffers_ok n b'.
Proof.
  induction fuel as [|f IH]; intros b B Hm.
  - destruct b as [q st pr sg ds dl tc]. simpl in *. destruct q; simpl in *; [|lia].
    eexists. split; [reflexivity | exact B].
  - destruct b as [q st pr sg ds dl tc]. simpl in *. destruct q as [|v q'].
    + eexists. split; [reflexivity | exact B].
    + simpl in Hm.
      destruct (scan_neighbours_ok v (nth v ds (-1)%Z) (nth v adjacency [])
                  (mkBrandes q' (v :: st) pr sg ds dl tc)) as [S1 S2].
      * destruct B as [_ B2]. simpl in B2. now apply nth_low.
      * now apply adjacency_row.
      * destruct B as [B1 B2]. constructor; assumption.
      * apply IH; [exact S1|]. rewrite S2. simpl. lia.
Qed.

Lemma push_back_dist w b v : bdist (push_back w b v) = bdist b.
Proof. unfold push_back. destruct (negb _); reflexivity. Qed.

Lemma fold_push_back_dist w vs : forall b,
  bdist (fold_left (push_back w) vs b) = bdist b.
Proof.
  induction vs as [|v vs IH]; intros b; simpl; [reflexivity|].
  rewrite IH. apply push_back_dist.
Qed.

Lemma accumulate_spec s : forall stk b cb,
  bdist (fst (accumulate s stk b cb)) = bdist b
  /\ List.length (snd (accumulate s stk b cb)) = List.length cb.
Proof.
  induction stk as [|w stk IH]; intros b cb; simpl; [auto|].
  match goal with
  | |- context [accumulate s stk ?b1 ?cb1] => destruct (IH b1 cb1) as [I1 I2]
  end.
  rewrite I1, I2. split; [apply fold_push_back_dist|].
  destruct (negb _); [apply upd_length | reflexivity].
Qed.

Lemma reset_ok : forall (tc : list nat) b,
  buffers_ok n b ->
  buffers_ok n
    (fold_left (fun b v =>
                  mkBrandes (bq b) (bstack b) (upd (bpred b) v [])
                            (upd (bsigma b) v 0%float) (upd (bdist b) v (-1)%Z)
                            (upd (bdelta b) v 0%float) (btouched b)) tc b).
Proof.
  induction tc as [|v tc IH]; intros b B; simpl; [assumption|].
  apply IH. destruct B as [B1 B2]. constructor; simpl.
  - now rewrite upd_length.
  - apply upd_Forall; [assumption | lia].
Qed.

Lemma from_source_returns s b cb :
  buffers_ok n b ->
  exists b' cb', from_source adjacency s (b, cb) = Some (b', cb')
                 /\ buffers_ok n b' /\ List.length cb' = List.length cb.
Proof.
  intros [B1 B2]. unfold from_source. cbn [fst snd].
  destruct adj_ok as [An _].
  match goal with
  | |- context [bfs _ adjacency ?b0] => destruct (bfs_returns (S (List.length adjacency)) b0) as [b1 [E1 O1]]
  end.
  - constructor; simpl; [now rewrite upd_length | apply upd_Forall; auto; lia].
  - simpl. rewrite An.
    pose proof (unvisited_le (upd (bdist b) s 0%Z)) as H.
    rewrite upd_length, B1 in H. lia.
  - rewrite E1. cbn [bind].
    destruct (accumulate_spec s (bstack b1) b1 cb) as [A1 A2].
    eexists. eexists. split; [reflexivity|]. split; [|exact A2].
    unfold reset_buffers. cbn [btouched]. apply reset_ok.
    destruct O1 as [O1 O2]. constructor; simpl; rewrite A1; assumption.
Qed.

Lemma from_sources_returns : forall sources b cb,
  buffers_ok n b ->
  exists b' cb', from_sources adjacency sources (b, cb) = Some (b', cb')
                 /\ List.length cb' = List.length cb.
Proof.
  induction sources as [|s sources IH]; intros b cb B; simpl.
  - eauto.
  - destruct (from_source_returns s b cb B) as [b1 [cb1 [E [B' L]]]].
    rewrite E. cbn [bind].
    destruct (IH b1 cb1 B') as [b2 [cb2 [E2 L2]]].
    exists b2, cb2. split; [exact E2 | congruence].
Qed.
End Betweenness.

Lemma combine_keys (A : Type) (ks : list string) (vs : list A) :
  List.length vs = List.length ks -> dict_keys (combine ks vs) = ks.
Proof.
  revert vs. induction ks as [|k ks IH]; intros vs H; destruct vs; simpl in *;
    try discriminate; [reflexivity|]. f_equal. apply IH. lia.
Qed.

Lemma compute_betweenness_total (sample : Z -> nat -> nat -> list nat)
    (out_edges : graph) (samples seed : Z) :
  exists bc,
    compute_betweenness sample out_edges samples seed = Some bc
    /\ dict_keys bc = dict_keys out_edges
    /\ ((samples < 0)%Z -> forall k v, In (k, v) bc -> v = 0%float).
Proof.
  unfold compute_betweenness.
  destruct (index_graph_ok out_edges) as [Hn Ha].
  destruct (_build_index_graph out_edges) as [nodes adjacency].
  cbn [fst snd] in Hn, Ha. subst nodes.
  destruct (Nat.eqb (List.length (dict_keys out_edges)) 0) eqn:E0.
  - exists []. split; [reflexivity|]. split; [|intros _ k v []].
    apply Nat.eqb_eq in E0. destruct (dict_keys out_edges); [reflexivity | discriminate].
  - destruct (samples <? 0)%Z eqn:Es.
    + eexists. split; [reflexivity|]. split.
      * unfold dict_keys at 1. rewrite map_map. simpl. apply map_id.
      * intros _ k v Hi. apply in_map_iff in Hi. now destruct Hi as [x [[= _ <-] _]].
    + match goal with
      | |- context [let '(sources, scale) := ?c in _] => destruct c as [sources scale]
      end.
      match goal with
      | |- context [from_sources adjacency sources (?b0, ?cb0)] =>
          destruct (from_sources_returns _ adjacency Ha sources b0 cb0)
            as [b' [cb' [E L]]]
      end.
      * constructor; simpl; [apply repeat_length|].
        apply Forall_forall. intros z Hz. apply repeat_spec in Hz. lia.
      * rewrite E. cbn [bind snd]. eexists. split; [reflexivity|]. split.
        -- apply combine_keys. rewrite length_map, L. apply repeat_length.
        -- intros Hs. apply Z.ltb_ge in Es. lia.
Qed.


(** ** Scoring the components *)

Lemma mapM_returns (A B : Type) (f : A -> option B) (l : list A) :
  (forall x, In x l -> exists y, f x = Some y) ->
  exists ys, mapM f l = Some ys.
Proof.
  induction l as [|x l IH]; intros H; simpl; [eauto|].
  destruct (H x (or_introl eq_refl)) as [y Hy]. rewrite Hy. cbn [bind].
  destruct IH as [ys Hys]; [intros z Hz; apply H; now right|].
  rewrite Hys. cbn [bind]. eauto.
Qed.

Lemma compute_metrics_total (sample : Z -> nat -> nat -> list nat)
    (out_edges in_edges : graph) (w : weights) :
  wf_graph out_edges -> closed out_edges ->
  dict_keys in_edges = dict_keys out_edges ->
  exists metrics,
    compute_metrics sample out_edges in_edges w = Some metrics
    /\ dict_keys metrics = dict_keys out_edges
    /\ forall k m, In (k, m) metrics ->
         in_degree m = Z.of_nat (List.length (succs in_edges k))
         /\ out_degree m = Z.of_nat (List.length (succs out_edges k)).
Proof.
  intros W C K. unfold compute_metrics. cbv zeta.
  assert (Hi : forall n, In n (dict_keys out_edges) ->
                         exists s, dict_get in_edges n = Some s).
  { intros n Hn. apply dict_get_keys. now rewrite K. }
  assert (Ho : forall n, In n (dict_keys out_edges) ->
                         exists s, dict_get out_edges n = Some s).
  { intros n Hn. now apply dict_get_keys. }
  destruct (mapM_returns _ _
              (fun n => s <- dict_get in_edges n ;;
                        Some (n, float_of_nat (List.length s)))
              (dict_keys out_edges)) as [in_deg E1].
  { intros n Hn. destruct (Hi n Hn) as [s Hs]. rewrite Hs. cbn [bind]. eauto. }
  rewrite E1. cbn [bind].
  destruct (mapM_returns _ _
              (fun n => s <- dict_get out_edges n ;;
                        Some (n, float_of_nat (List.length s)))
              (dict_keys out_edges)) as [out_deg E2].
  { intros n Hn. destruct (Ho n Hn) as [s Hs]. rewrite Hs. cbn [bind]. eauto. }
  rewrite E2. cbn [bind].
  destruct (@compute_pagerank_returns float float_arith out_edges W C
              (w_pagerank_damping w) 1e-08%float (w_pagerank_iters w))
    as [pr [E3 _]].
  rewrite E3. cbn [bind].
  destruct (compute_betweenness_total sample out_edges (w_betweenness_samples w)
              (w_betweenness_seed w)) as [bc [E4 _]].
  rewrite E4. cbn [bind].
  match goal with
  | |- exists metrics, mapM ?f ?l = Some metrics /\ _ =>
      destruct (mapM_returns _ _ f l) as [metrics E5]
  end.
  { intros n Hn. destruct (Hi n Hn) as [s Hs]. destruct (Ho n Hn) as [s' Hs'].
    rewrite Hs, Hs'. cbn [bind]. eauto. }
  exists metrics. split; [exact E5|]. split.
  - eapply mapM_keys; [|exact E5]. intros x y H. cbv beta in H.
    destruct (dict_get in_edges x); [|discriminate]. cbn [bind] in H.
    destruct (dict_get out_edges x); [|discriminate]. cbn [bind] in H.
    now injection H as <-.
  - intros k m Hkm. apply mapM_spec in E5.
    clear - E5 Hkm. induction E5 as [|x y l l' Hxy _ IH]; [destruct Hkm|].
    destruct Hkm as [->|Hkm]; [|now apply IH].
    unfold succs.
    destruct (dict_get in_edges x) as [s|] eqn:Ei; [|discriminate].
    cbn [bind] in Hxy.
    destruct (dict_get out_edges x) as [s'|] eqn:Eo; [|discriminate].
    cbn [bind] in Hxy.
    injection Hxy as <- <-. cbn [in_degree out_degree]. rewrite Ei, Eo. auto.
Qed.

Lemma same_members_length (l1 l2 : list node) :
  NoDup l1 -> NoDup l2 -> (forall x, In x l1 <-> In x l2) ->
  List.length l1 = List.length l2.
Proof.
  intros H1 H2 H. apply Permutation_length. now apply NoDup_Permutation.
Qed.

(** Scoring never fails on what [build_in_out_edges_from_components]
    produces, whatever the iteration order of its sets: [compute_metrics]
    returns one record per component, under the keys of [out_edges], whose
    [in_degree] is the number of components that depend on it and whose
    [out_degree] is the number of components it depends on. *)
Theorem compute_metrics_scores_every_component
    (sample : Z -> nat -> nat -> list nat)
    (set_order : list string -> list string) (components : dict component)
    (w : weights) :
  set_iteration set_order ->
  NoDup (dict_keys components) ->
  exists metrics,
    compute_metrics sample
      (fst (build_in_out_edges_from_components set_order components))
      (snd (build_in_out_edges_from_components set_order components)) w
    = Some metrics
    /\ dict_keys metrics
       = dict_keys (fst (build_in_out_edges_from_components set_order components))
    /\ Permutation (dict_keys metrics) (dict_keys components)
    /\ forall k m, In (k, m) metrics ->
         in_degree m
         = Z.of_nat (List.length
             (filter (fun src =>
                        set_mem k (succs (build_graph_from_components components) src))
                     (dict_keys components)))
         /\ out_degree m
            = Z.of_nat (List.length
                (succs (build_graph_from_components components) k)).
Proof.
  intros Ho H.
  destruct (edges_of_components set_order components Ho H)
    as [P [Ki [W [C [Wi [Mo Mi]]]]]].
  destruct (out_edges_spec set_order components Ho H) as [_ [_ [_ [S _]]]].
  destruct (build_graph_normal components H) as [[Wg1 Wg2] Cg].
  destruct (compute_metrics_total sample
              (fst (build_in_out_edges_from_components set_order components))
              (snd (build_in_out_edges_from_components set_order components))
              w W C Ki) as [metrics [E [K D]]].
  exists metrics. split; [exact E|]. split; [exact K|].
  split; [now rewrite K|].
  intros k m Hkm. destruct (D k m Hkm) as [D1 D2]. split.
  - rewrite D1. f_equal. apply same_members_length.
    + now apply wf_succs_NoDup.
    + now apply NoDup_filter.
    + intros src. rewrite Mi, Mo, filter_In, set_mem_In. split; [|tauto].
      intros Hk. split; [|exact Hk].
      rewrite <- (build_graph_keys components H).
      eapply succs_In_key. exact Hk.
  - rewrite D2. f_equal. rewrite S. rewrite (set_order_length set_order _ Ho).
    rewrite set_of_id; [reflexivity|].
    apply wf_succs_NoDup. now split.
Qed.

Lemma compute_metrics_scores_every_component_witness :
  exists metrics,
    compute_metrics all_sources
      (fst (build_in_out_edges_from_components reverse_order three_components))
      (snd (build_in_out_edges_from_components reverse_order three_components))
      default_weights = Some metrics
    /\ Permutation (dict_keys metrics) (dict_keys three_components).
Proof.
  destruct (compute_metrics_scores_every_component all_sources reverse_order
              three_components default_weights reverse_order_iteration)
    as [metrics [E [_ [P _]]]].
  - apply nodupb_NoDup. reflexivity.
  - exists metrics. split; assumption.
Defined.

(** ** The reported groups do not overlap *)

Lemma report_cases g scc res :
  report g scc res = res \/ report g scc res = res ++ [scc].
Proof.
  unfold report. destruct scc as [|a [|b r]]; auto.
  destruct (set_mem a (succs g a)); auto.
Qed.

Lemma report_selfloop g scc res x :
  In x scc -> In x (succs g x) -> report g scc res = res ++ [scc].
Proof.
  intros Hx Hs. unfold report. destruct scc as [|a [|b r]]; [destruct Hx| |reflexivity].
  destruct Hx as [->|[]]. apply set_mem_In in Hs. now rewrite Hs.
Qed.

Lemma concat_snoc (A : Type) (l : list (list A)) (c : list A) :
  List.concat (l ++ [c]) = List.concat l ++ c.
Proof. rewrite concat_app. simpl. now rewrite app_nil_r. Qed.

Section Groups.
Variable g : graph.
Hypothesis g_closed : closed g.

Lemma groups_enter st n :
  ~ indexed st n -> In n (dict_keys g) -> groups_ok g st ->
  groups_ok g (enter n st).
Proof.
  intros Hn Hk [A B C D E]. constructor; simpl.
  - exact A.
  - intros x Hx. apply finished_enter; [assumption | now apply B].
  - exact C.
  - intros x [<-|Hx]; [assumption | now apply D].
  - intros x Hx Hs. apply E; [|assumption]. now apply (finished_enter st n x Hn).
Qed.

Lemma groups_set_lowlink st n v :
  groups_ok g st -> groups_ok g (set_lowlink st n v).
Proof. intros [A B C D E]. constructor; simpl; assumption. Qed.

Lemma groups_finish st0 n st st' :
  frame g st0 n st -> groups_ok g st -> low_ok st0 n st ->
  finish g n st = Some st' ->
  groups_ok g st' /\ call_outcome n st0 st'.
Proof.
  intros F G [a [La Lb]] R.
  pose proof (frame_index_n g _ _ _ F) as Hi.
  destruct (fr_stack F) as [ext [E1 _]].
  pose proof (fr_inv F) as I.
  unfold finish in R. rewrite La, Hi in R. simpl in R.
  destruct (Nat.eqb_spec a (index_counter st0)) as [Ea|Ea].
  - destruct (finish_pop g st0 n st ext I E1) as [ons' [P1 P2]].
    rewrite P1 in R. simpl in R. injection R as <-.
    split; [|left; simpl; split; [reflexivity | congruence]].
    pose proof (inv_nodup I) as Hnd. rewrite E1 in Hnd.
    assert (Hscc : forall x, In x (ext ++ [n]) -> In x (stack st)).
    { intros x Hx. rewrite E1. apply in_app_or in Hx. apply in_or_app.
      destruct Hx as [Hx|[<-|[]]]; [now left | right; now left]. }
    assert (Hout : forall x, In x (ext ++ [n]) -> ~ In x (stack st0)).
    { intros x Hx Hs. apply in_app_or in Hx. destruct Hx as [Hx|[<-|[]]].
      - apply (NoDup_app_disjoint _ _ _ x Hnd Hx). now right.
      - apply NoDup_app_remove_l in Hnd. inversion Hnd. contradiction. }
    assert (Hsub : forall x, In x (stack st0) -> In x (stack st)).
    { intros x Hx. rewrite E1. apply in_or_app. right. now right. }
    assert (Hold : forall x, In x (List.concat (result st)) ->
                             finished
                               (mkTarjan (index_counter st) (index st) (lowlink st)
                                  ons' (stack st0)
                                  (report g (ext ++ [n]) (result st))) x).
    { intros x Hx. destruct (go_finished G x Hx) as [H1 H2].
      split; [exact H1|]. simpl. intros Hs. apply H2. now apply Hsub. }
    assert (Hnew : forall x, In x (ext ++ [n]) ->
                             finished
                               (mkTarjan (index_counter st) (index st) (lowlink st)
                                  ons' (stack st0)
                                  (report g (ext ++ [n]) (result st))) x).
    { intros x Hx. split.
      - apply (inv_stack_indexed I). now apply Hscc.
      - simpl. now apply Hout. }
    assert (Hloop : forall x,
              finished
                (mkTarjan (index_counter st) (index st) (lowlink st)
                   ons' (stack st0) (report g (ext ++ [n]) (result st))) x ->
              In x (succs g x) ->
              In x (List.concat (report g (ext ++ [n]) (result st)))).
    { intros x [H1 H2] Hs. simpl in H2.
      destruct (in_dec string_dec x (ext ++ [n])) as [Hx|Hx].
      - rewrite (report_selfloop g _ (result st) x Hx Hs), concat_snoc.
        apply in_or_app. now right.
      - assert (Hf : finished st x).
        { split; [exact H1|]. rewrite E1. intros Hs'. apply in_app_or in Hs'.
          destruct Hs' as [Hs'|[<-|Hs']].
          - apply Hx. apply in_or_app. now left.
          - apply Hx. apply in_or_app. right. now left.
          - contradiction. }
        pose proof (go_selfloop G Hf Hs) as Hin.
        destruct (report_cases g (ext ++ [n]) (result st)) as [->| ->];
          [assumption|]. rewrite concat_snoc. apply in_or_app. now left. }
    destruct (report_cases g (ext ++ [n]) (result st)) as [Er|Er].
    + constructor; simpl.
      * rewrite Er. exact (go_nodup G).
      * intros x Hx. rewrite Er in Hx. now apply Hold.
      * intros x Hx. rewrite Er in Hx. now apply (go_keys G).
      * intros x Hx. apply (go_stack G). now apply Hsub.
      * intros x Hx Hs. now apply Hloop.
    + constructor; simpl.
      * rewrite Er, concat_snoc. apply NoDup_app.
        -- exact (go_nodup G).
        -- apply NoDup_remove_1 in Hnd.
           assert (Hp : Permutation (ext ++ [n]) (n :: ext)).
           { apply Permutation_sym, Permutation_cons_append. }
           apply (Permutation_NoDup (Permutation_sym Hp)).
           pose proof (inv_nodup I) as Hnd'. rewrite E1 in Hnd'.
           constructor.
           ++ apply NoDup_remove_2 in Hnd'. intros H. apply Hnd'.
              apply in_or_app. now left.
           ++ now apply NoDup_app_remove_r in Hnd.
        -- intros x Hx Hy. destruct (go_finished G x Hx) as [_ H2].
           apply H2. now apply Hscc.
      * intros x Hx. rewrite Er, concat_snoc in Hx. apply in_app_or in Hx.
        destruct Hx as [Hx|Hx]; [now apply Hold | now apply Hnew].
      * intros x Hx. rewrite Er, concat_snoc in Hx. apply in_app_or in Hx.
        destruct Hx as [Hx|Hx]; [now apply (go_keys G)|].
        apply (go_stack G). now apply Hscc.
      * intros x Hx. apply (go_stack G). now apply Hsub.
      * intros x Hx Hs. now apply Hloop.
  - injection R as <-. split; [exact G|]. right.
    destruct Lb as [Lb|Lb]; [contradiction|]. split.
    + exists (ext ++ [n]). split.
      * rewrite E1, <- app_assoc. reflexivity.
      * apply in_or_app. right. now left.
    + exists a. split; assumption.
Qed.

Section Loop.
Variable f : nat.
Hypothesis IH : forall w st st',
  tarjan_inv st -> ~ indexed st w -> In w (dict_keys g) ->
  unindexed g st < f ->
  strongconnect f g w st = Some st' -> groups_ok g st ->
  groups_ok g st' /\ call_outcome w st st'.

Variables (st0 : tarjan) (n : node).
Hypothesis I0 : tarjan_inv st0.
Hypothesis Hfuel : unindexed g (enter n st0) < f.

Lemma groups_loop : forall ws st st',
  (forall w, In w ws -> In w (succs g n)) ->
  frame g st0 n st -> groups_ok g st -> low_ok st0 n st ->
  for_successors (strongconnect f g) n ws st = Some st' ->
  groups_ok g st' /\ low_ok st0 n st'.
Proof.
  induction ws as [|w ws IHws]; intros st st' Hws F G L R.
  - simpl in R. injection R as <-. auto.
  - assert (Hw : In w (succs g n)) by (apply Hws; now left).
    assert (Hws' : forall w', In w' ws -> In w' (succs g n))
      by (intros w' H'; apply Hws; now right).
    pose proof (frame_indexed_n g _ _ _ F) as Hn.
    simpl in R. destruct (dict_mem (index st) w) eqn:Ew; simpl in R.
    + destruct (set_mem w (onstack st)) eqn:Eo; [|now apply (IHws st st')].
      destruct L as [a [La Lb]]. rewrite La in R. simpl in R.
      destruct (dict_get (index st) w) as [b|] eqn:Eb; [|discriminate].
      simpl in R.
      apply set_mem_In in Eo. apply (inv_onstack (fr_inv F)) in Eo.
      pose proof (stack_index_cases g st0 n st w b I0 F Eo Eb) as Hb.
      destruct (min_low st0 a b I0 Lb Hb) as [M _].
      apply (IHws (set_lowlink st n (Nat.min a b)) st'); auto.
      * now apply frame_set_lowlink.
      * now apply groups_set_lowlink.
      * exists (Nat.min a b). split; [simpl; apply dict_get_set_same | exact M].
    + apply dict_mem_false in Ew.
      destruct (strongconnect f g w st) as [st1|] eqn:R1; [|discriminate].
      simpl in R.
      assert (Hf1 : unindexed g st < f).
      { pose proof (unindexed_le _ _ _ (fr_grows F)). lia. }
      pose proof (strongconnect_post g g_closed f w st st1 (fr_inv F) Ew
                    (succs_keys g g_closed _ _ Hw) Hf1 R1) as P.
      destruct (IH w st st1 (fr_inv F) Ew (succs_keys g g_closed _ _ Hw) Hf1 R1 G)
        as [G1 O1].
      assert (F1 : frame g st0 n st1) by (eapply frame_call; eassumption).
      destruct L as [a [La Lb]].
      assert (La1 : dict_get (lowlink st1) n = Some a).
      { rewrite (cp_lowlink P n Hn). exact La. }
      rewrite La1 in R. simpl in R.
      destruct (dict_get (lowlink st1) w) as [b|] eqn:Eb; [|discriminate].
      simpl in R.
      assert (Hb : index_counter st0 <= b \/ low_witness st0 b).
      { destruct O1 as [[_ O]|[_ [b' [[y [Y1 Y2]] O]]]].
        - rewrite Eb in O. injection O as ->. left.
          pose proof (grows_counter (fr_grows F)) as H. simpl in H. lia.
        - rewrite Eb in O. injection O as ->.
          exact (stack_index_cases g st0 n st y b' I0 F Y1 Y2). }
      destruct (min_low st0 a b I0 Lb Hb) as [M _].
      apply (IHws (set_lowlink st1 n (Nat.min a b)) st'); auto.
      * now apply frame_set_lowlink.
      * now apply groups_set_lowlink.
      * exists (Nat.min a b). split; [simpl; apply dict_get_set_same | exact M].
Qed.
End Loop.

Lemma groups_strongconnect : forall fuel n st st',
  tarjan_inv st -> ~ indexed st n -> In n (dict_keys g) ->
  unindexed g st < fuel ->
  strongconnect fuel g n st = Some st' -> groups_ok g st ->
  groups_ok g st' /\ call_outcome n st st'.
Proof.
  induction fuel as [|f IHf]; intros n st st' I Hn Hk Hf R G; [lia|].
  simpl in R.
  assert (Hlt : unindexed g (enter n st) < f).
  { assert (unindexed g (enter n st) < unindexed g st); [|lia].
    apply unindexed_lt with (n := n); auto.
    - now apply enter_grows.
    - apply indexed_get. eexists. apply enter_index. }
  destruct (for_successors (strongconnect f g) n (succs g n) (enter n st))
    as [stL|] eqn:RL; [|discriminate].
  simpl in R.
  pose proof (frame_enter g st n I Hn) as F0.
  destruct (loop_post g g_closed f st n (succs g n) _ stL Hlt (fun w H => H) F0 RL)
    as [FL _].
  destruct (groups_loop f IHf st n I Hlt (succs g n) (enter n st) stL) as [GL LL];
    auto.
  - now apply groups_enter.
  - exists (index_counter st). split; [simpl; apply dict_get_set_same | now left].
  - now apply (groups_finish st n stL st').
Qed.

Lemma groups_visit_all fuel : List.length g < fuel -> forall ns st st',
  tarjan_inv st -> stack st = [] -> groups_ok g st ->
  (forall n, In n ns -> In n (dict_keys g)) ->
  visit_all fuel g ns st = Some st' ->
  stack st' = [] /\ groups_ok g st'.
Proof.
  intros Hf. induction ns as [|n ns IH]; intros st st' I Hs G Hk R.
  - simpl in R. injection R as <-. auto.
  - assert (Hk' : forall x, In x ns -> In x (dict_keys g))
      by (intros x Hx; apply Hk; now right).
    simpl in R. destruct (dict_mem (index st) n) eqn:E.
    + now apply (IH st st').
    + apply dict_mem_false in E.
      destruct (strongconnect fuel g n st) as [st1|] eqn:R1; [|discriminate].
      simpl in R.
      assert (Hf1 : unindexed g st < fuel).
      { pose proof (unindexed_bound g st). lia. }
      pose proof (strongconnect_post g g_closed fuel n st st1 I E
                    (Hk n (or_introl eq_refl)) Hf1 R1) as P.
      destruct (groups_strongconnect fuel n st st1 I E (Hk n (or_introl eq_refl))
                  Hf1 R1 G) as [G1 [[O _]|[_ [a [[y [Y _]] _]]]]].
      * apply (IH st1 st'); auto; [exact (cp_inv P) | congruence].
      * rewrite Hs in Y. destruct Y.
Qed.
End Groups.

(** The groups that [detect_cycles] reports: no node is reported twice,
    neither within a group nor in two groups; every reported node is a node
    of the normalised graph; every group contains an edge between two of
    its members; and every node that depends on itself is reported. *)
Theorem detect_cycles_groups (g0 : graph) :
  exists cycles,
    detect_cycles g0 = Some cycles
    /\ NoDup (List.concat cycles)
    /\ (forall x, In x (List.concat cycles) -> In x (dict_keys (_normalize_graph g0)))
    /\ Forall (fun c => exists u v, In u c /\ In v c
                                    /\ In v (succs (_normalize_graph g0) u)) cycles
    /\ (forall x, In x (succs (_normalize_graph g0) x) -> In x (List.concat cycles)).
Proof.
  destruct (detect_cycles_total g0) as [cycles [E Good]].
  exists cycles. split; [exact E|].
  unfold detect_cycles in E. set (g := _normalize_graph g0) in *.
  pose proof (normalize_closed g0) as C. fold g in C.
  destruct (visit_all_total g C (S (List.length g)) (Nat.lt_succ_diag_r _)
              (dict_keys g) tarjan_init tarjan_init_inv (fun n H => H))
    as [st [R [I [_ A]]]].
  rewrite R in E. simpl in E. injection E as <-.
  destruct (groups_visit_all g C (S (List.length g)) (Nat.lt_succ_diag_r _)
              (dict_keys g) tarjan_init st tarjan_init_inv eq_refl) as [S G]; auto.
  { constructor; simpl.
    - constructor.
    - intros x [].
    - intros x [].
    - intros x [].
    - intros x [H _]. destruct H. }
  split; [exact (go_nodup G)|]. split; [exact (go_keys G)|].
  split; [exact Good|].
  intros x Hx. apply (go_selfloop G); [|exact Hx]. split.
  - apply A. eapply succs_In_key. exact Hx.
  - rewrite S. intros [].
Qed.

(** ** The removed edges account for the whole difference *)

Lemma log_remove g0 g removed u v :
  log_ok g0 g removed -> In v (succs g u) ->
  log_ok g0 (remove_edge g u v) (removed ++ [(u, v)]).
Proof.
  intros [A B C] H. constructor.
  - intros a b. rewrite succs_remove_edge, in_app_iff.
    destruct (String.eqb_spec u a) as [->|Hd].
    + rewrite set_remove_In, A. split.
      * intros [[H1 H2] H3]. split; [assumption|].
        intros [H4|[[= H4]|[]]]; [contradiction | congruence].
      * intros [H1 H2]. split; [split; [assumption|]|].
        -- intros H3. apply H2. now left.
        -- intros ->. apply H2. right. now left.
    + rewrite A. split.
      * intros [H1 H2]. split; [assumption|].
        intros [H4|[[= H4 _]|[]]]; [contradiction | congruence].
      * intros [H1 H2]. split; [assumption|]. intros H3. apply H2. now left.
  - intros a b Hab. apply in_app_or in Hab. destruct Hab as [Hab|[[= <- <-]|[]]].
    + now apply B.
    + now apply A in H.
  - apply NoDup_app; [assumption | constructor; [intros [] | constructor] |].
    intros x Hx [<-|[]]. apply A in H. destruct H as [_ H]. contradiction.
Qed.

Lemma log_break_group g0 rs scc :
  log_ok g0 (fst (fst rs)) (snd (fst rs)) ->
  log_ok g0 (fst (fst (break_group rs scc))) (snd (fst (break_group rs scc))).
Proof.
  destruct rs as [[g removed] changed]. simpl. intros L. unfold break_group.
  destruct (find_self_loop g (sorted (set_of scc))) as [u|] eqn:E1.
  - apply find_self_loop_spec in E1. simpl. now apply log_remove.
  - destruct changed; [exact L|].
    destruct (find_intra_edge g (set_of scc) (sorted (set_of scc)))
      as [[u v]|] eqn:E2; [|exact L].
    apply find_intra_edge_spec in E2. destruct E2 as [_ [E2 _]].
    simpl. now apply log_remove.
Qed.

Lemma log_fold g0 cycles : forall rs,
  log_ok g0 (fst (fst rs)) (snd (fst rs)) ->
  log_ok g0 (fst (fst (fold_left break_group cycles rs)))
            (snd (fst (fold_left break_group cycles rs))).
Proof.
  induction cycles as [|c cycles IH]; intros rs H; simpl; [assumption|].
  apply IH. now apply log_break_group.
Qed.

Lemma log_rounds g0 : forall rounds g removed g' removed' res,
  resolve_rounds rounds g removed = Some (g', removed', res) ->
  log_ok g0 g removed -> log_ok g0 g' removed'.
Proof.
  induction rounds as [|r IH]; intros g removed g' removed' res R L; simpl in R.
  - now injection R as <- <- _.
  - destruct (detect_cycles g) as [cycles|]; [|discriminate]. simpl in R.
    destruct cycles as [|c cycles]; [now injection R as <- <- _|].
    pose proof (log_fold g0 (c :: cycles) (g, removed, false) L) as L1.
    destruct (fold_left break_group (c :: cycles) (g, removed, false))
      as [[g1 removed1] changed1].
    simpl in L1. destruct changed1.
    + eapply IH; eassumption.
    + now injection R as <- <- _.
Qed.

(** [resolve_cycles] and its log of removed edges: the graph returned is
    the normalised input without the logged edges, no more and no less;
    every logged edge was an edge of the normalised input, and no edge is
    logged twice. *)
Theorem resolve_cycles_log_is_exact (G : graph) :
  exists g' removed res,
    resolve_cycles_log G = Some (g', removed, res)
    /\ resolve_cycles G = Some g'
    /\ (forall u v, In v (succs g' u) <->
                    In v (succs (_normalize_graph G) u) /\ ~ In (u, v) removed)
    /\ (forall u v, In (u, v) removed -> In v (succs (_normalize_graph G) u))
    /\ NoDup removed.
Proof.
  destruct (resolve_cycles_log_spec G) as [g' [removed [res [H _]]]].
  exists g', removed, res. split; [exact H|].
  split; [unfold resolve_cycles; now rewrite H|].
  unfold resolve_cycles_log in H.
  destruct (log_rounds (_normalize_graph G) _ _ [] g' removed res H) as [A B C].
  - constructor; [|intros u v []|constructor]. intros u v. tauto.
  - auto.
Qed.

(** ** The orders do not depend on how the graph is laid out *)

Lemma ascii_compare_refl c : Ascii.compare c c = Eq.
Proof. unfold Ascii.compare. apply N.compare_refl. Qed.

Lemma string_compare_le_trans : forall a b c,
  String.compare a b <> Gt -> String.compare b c <> Gt ->
  String.compare a c <> Gt.
Proof.
  induction a as [|x a IH]; intros b c H1 H2.
  - destruct c; simpl; discriminate.
  - destruct b as [|y b]; [simpl in H1; congruence|].
    destruct c as [|z c]; [simpl in H2; congruence|].
    simpl in *. unfold Ascii.compare in *.
    destruct (N.compare_spec (N_of_ascii x) (N_of_ascii y)) as [E1|E1|E1];
      [|..|congruence].
    + rewrite E1.
      destruct (N.compare_spec (N_of_ascii y) (N_of_ascii z)) as [E2|E2|E2];
        [|discriminate|congruence].
      now apply (IH b c).
    + destruct (N.compare_spec (N_of_ascii y) (N_of_ascii z)) as [E2|E2|E2];
        [|..|congruence].
      * rewrite <- E2. apply N.compare_lt_iff in E1. rewrite E1. discriminate.
      * assert (E : (N_of_ascii x < N_of_ascii z)%N) by (eapply N.lt_trans; eassumption).
        apply N.compare_lt_iff in E. rewrite E. discriminate.
Qed.

Lemma str_le_trans a b c : str_le a b -> str_le b c -> str_le a c.
Proof.
  unfold str_le, String.leb. intros H1 H2.
  pose proof (string_compare_le_trans a b c) as T.
  destruct (String.compare a b); try discriminate;
    destruct (String.compare b c); try discriminate;
    destruct (String.compare a c); try reflexivity;
    exfalso; apply T; congruence.
Qed.

Lemma sorted_unique : forall l1 l2 : list string,
  StronglySorted str_le l1 -> StronglySorted str_le l2 ->
  Permutation l1 l2 -> l1 = l2.
Proof.
  induction l1 as [|a l1 IH]; intros l2 S1 S2 P.
  - apply Permutation_nil in P. now subst.
  - destruct l2 as [|b l2].
    + apply Permutation_sym, Permutation_nil in P. discriminate.
    + apply StronglySorted_inv in S1. destruct S1 as [S1 F1].
      apply StronglySorted_inv in S2. destruct S2 as [S2 F2].
      rewrite Forall_forall in F1, F2.
      assert (E : a = b).
      { assert (Hb : In b (a :: l1)).
        { eapply Permutation_in; [apply Permutation_sym; exact P | now left]. }
        assert (Ha : In a (b :: l2)).
        { eapply Permutation_in; [exact P | now left]. }
        destruct Hb as [Hb|Hb]; [assumption|].
        destruct Ha as [Ha|Ha]; [now symmetry|].
        apply String.leb_antisym; [now apply F1 | now apply F2]. }
      subst b. f_equal. apply IH; auto.
      eapply Permutation_cons_inv. exact P.
Qed.

Lemma sorted_of_permutation (l1 l2 : list string) :
  Permutation l1 l2 -> sorted l1 = sorted l2.
Proof.
  intros P. apply sorted_unique.
  - apply Sorted_StronglySorted; [intros a b c; apply str_le_trans | apply sorted_Sorted].
  - apply Sorted_StronglySorted; [intros a b c; apply str_le_trans | apply sorted_Sorted].
  - eapply Permutation_trans; [apply sorted_perm|].
    eapply Permutation_trans; [exact P|]. apply Permutation_sym, sorted_perm.
Qed.

Lemma same_members_sorted (l1 l2 : list string) :
  NoDup l1 -> NoDup l2 -> (forall x, In x l1 <-> In x l2) ->
  sorted l1 = sorted l2.
Proof.
  intros N1 N2 H. apply sorted_of_permutation. now apply NoDup_Permutation.
Qed.

(** Depth-first search *)

Lemma for_deps_ext (rec1 rec2 : node -> dfs_state -> option dfs_state) :
  (forall d st, rec1 d st = rec2 d st) ->
  forall ds st, for_deps rec1 ds st = for_deps rec2 ds st.
Proof.
  intros H. induction ds as [|d ds IH]; intros st; simpl; [reflexivity|].
  rewrite H. destruct (rec2 d st); simpl; [apply IH | reflexivity].
Qed.

Lemma dfs_same (g1 g2 : graph) :
  (forall n, sorted (succs g1 n) = sorted (succs g2 n)) ->
  forall fuel n st, dfs fuel g1 n st = dfs fuel g2 n st.
Proof.
  intros H. induction fuel as [|f IH]; intros n st; simpl; [reflexivity|].
  rewrite H. rewrite (for_deps_ext (dfs f g1) (dfs f g2) IH). reflexivity.
Qed.

Lemma same_graph_succs g1 g2 n :
  wf_graph g1 -> wf_graph g2 -> same_graph g1 g2 ->
  sorted (succs g1 n) = sorted (succs g2 n).
Proof.
  intros W1 W2 [_ S]. apply same_members_sorted;
    [now apply wf_succs_NoDup | now apply wf_succs_NoDup | apply S].
Qed.

Lemma same_graph_length g1 g2 :
  wf_graph g1 -> wf_graph g2 -> same_graph g1 g2 ->
  List.length g1 = List.length g2.
Proof.
  intros [N1 _] [N2 _] [K _].
  rewrite <- (length_map fst g1), <- (length_map fst g2).
  apply Permutation_length. now apply NoDup_Permutation.
Qed.

Lemma postorder_same g1 g2 :
  wf_graph g1 -> wf_graph g2 -> same_graph g1 g2 ->
  postorder g1 = postorder g2.
Proof.
  intros W1 W2 HS. unfold postorder.
  rewrite (same_graph_length g1 g2 W1 W2 HS).
  rewrite (same_members_sorted (dict_keys g1) (dict_keys g2) (proj1 W1) (proj1 W2)
             (proj1 HS)).
  rewrite (for_deps_ext _ _
             (dfs_same g1 g2 (fun n => same_graph_succs g1 g2 n W1 W2 HS)
                       (S (List.length g2)))).
  reflexivity.
Qed.

(** Kahn's algorithm *)

Lemma relax_same : forall ds (d1 d2 : dict Z) heap,
  (forall m, dict_get d1 m = dict_get d2 m) ->
  match relax ds d1 heap, relax ds d2 heap with
  | Some (d1', h1), Some (d2', h2) =>
      (forall m, dict_get d1' m = dict_get d2' m) /\ h1 = h2
  | None, None => True
  | _, _ => False
  end.
Proof.
  induction ds as [|d ds IH]; intros d1 d2 heap H; simpl.
  - auto.
  - rewrite <- H. destruct (dict_get d1 d) as [v|]; simpl; [|exact I].
    assert (H' : forall m, dict_get (dict_set d1 d (v - 1)%Z) m
                           = dict_get (dict_set d2 d (v - 1)%Z) m).
    { intros m. rewrite !dict_get_set. now rewrite H. }
    destruct (v - 1 =? 0)%Z; now apply IH.
Qed.

Lemma drain_same (p1 p2 : dict (list node)) :
  (forall n, sorted (succs p1 n) = sorted (succs p2 n)) ->
  forall fuel (d1 d2 : dict Z) heap res,
    (forall m, dict_get d1 m = dict_get d2 m) ->
    drain fuel p1 d1 heap res = drain fuel p2 d2 heap res.
Proof.
  intros Hp. induction fuel as [|f IH]; intros d1 d2 heap res Hd;
    destruct heap as [|n heap]; simpl; try reflexivity.
  rewrite Hp.
  pose proof (relax_same (sorted (succs p2 n)) d1 d2 heap Hd) as R.
  destruct (relax (sorted (succs p2 n)) d1 heap) as [[d1' h1]|];
    destruct (relax (sorted (succs p2 n)) d2 heap) as [[d2' h2]|];
    try contradiction; simpl; [|reflexivity].
  destruct R as [R1 ->]. now apply IH.
Qed.

Lemma filter_same_sorted (f : node -> bool) (l1 l2 : list node) :
  NoDup l1 -> NoDup l2 -> (forall x, In x l1 <-> In x l2) ->
  sorted (filter f l1) = sorted (filter f l2).
Proof.
  intros N1 N2 H. apply same_members_sorted.
  - now apply NoDup_filter.
  - now apply NoDup_filter.
  - intros x. rewrite !filter_In, H. reflexivity.
Qed.

Lemma kahn_same g1 g2 :
  normal g1 -> normal g2 -> same_graph g1 g2 -> kahn g1 = kahn g2.
Proof.
  intros [W1 C1] [W2 C2] HS. pose proof HS as [SK SE].
  pose proof (same_graph_length g1 g2 W1 W2 HS) as L.
  unfold kahn.
  assert (Init : forall g, wf_graph g ->
     exists dependents indeg,
       count_all g [] (fold_left (fun d n => dict_set d n 0%Z) (dict_keys g) [])
       = Some (dependents, indeg)
       /\ (forall m, dict_get indeg m
                     = if set_mem m (dict_keys g)
                       then Some (Z.of_nat (List.length (succs g m))) else None)
       /\ NoDup (dict_keys indeg)
       /\ (forall m d, In m (succs dependents d) <-> In d (succs g m))
       /\ (forall d, NoDup (succs dependents d))).
  { intros g [Wk Ws].
    destruct (init_degree_spec (dict_keys g) []) as [I1 I2].
    set (in_degree0 := fold_left (fun d n => dict_set d n 0%Z) (dict_keys g) []) in *.
    assert (K0 : forall k, In k (dict_keys g) -> In k (dict_keys in_degree0)).
    { intros k Hk. apply dict_get_keys. exists 0%Z. rewrite I1.
      apply set_mem_In in Hk. now rewrite Hk. }
    destruct (count_all_spec g [] in_degree0 Wk K0)
      as [dependents [indeg [R [A [B [Cd Dd]]]]]].
    exists dependents, indeg. split; [exact R|]. split; [|split; [|split]].
    - intros m. destruct (set_mem m (dict_keys g)) eqn:E.
      + apply set_mem_In in E. rewrite (A m E 0%Z); [reflexivity|].
        rewrite I1. apply set_mem_In in E. now rewrite E.
      + apply dict_get_None. rewrite B. apply dict_get_None.
        rewrite I1, E. reflexivity.
    - rewrite B. apply I2. constructor.
    - intros m d. rewrite Cd. unfold succs at 1. simpl. tauto.
    - apply Dd. intros d. unfold succs. simpl. constructor. }
  destruct (Init g1 W1) as [p1 [d1 [R1 [A1 [N1 [B1 D1]]]]]].
  destruct (Init g2 W2) as [p2 [d2 [R2 [A2 [N2 [B2 D2]]]]]].
  rewrite R1, R2. cbn [bind].
  assert (Hd : forall m, dict_get d1 m = dict_get d2 m).
  { intros m. rewrite A1, A2.
    assert (E : set_mem m (dict_keys g1) = set_mem m (dict_keys g2)).
    { destruct (set_mem m (dict_keys g2)) eqn:E2.
      - apply set_mem_In. apply SK. now apply set_mem_In.
      - apply set_mem_false. intros H. apply SK in H.
        apply set_mem_false in E2. contradiction. }
    rewrite E. destruct (set_mem m (dict_keys g2)); [|reflexivity].
    f_equal. f_equal. apply Permutation_length. apply NoDup_Permutation.
    - now apply wf_succs_NoDup.
    - now apply wf_succs_NoDup.
    - apply SE. }
  assert (Hp : forall n, sorted (succs p1 n) = sorted (succs p2 n)).
  { intros n. apply same_members_sorted; auto.
    intros x. rewrite B1, B2. apply SE. }
  assert (Hh : heapify (map fst (filter (fun it => Z.eqb (snd it) 0) d1))
               = heapify (map fst (filter (fun it => Z.eqb (snd it) 0) d2))).
  { unfold heapify. apply same_members_sorted.
    - now apply NoDup_keys_filter.
    - now apply NoDup_keys_filter.
    - assert (M : forall (d : dict Z), NoDup (dict_keys d) -> forall x,
                In x (map fst (filter (fun it => Z.eqb (snd it) 0) d))
                <-> dict_get d x = Some 0%Z).
      { intros d Nd x. rewrite in_map_iff. split.
        - intros [[k v] [E Hi]]. simpl in E. subst k. apply filter_In in Hi.
          destruct Hi as [Hi Hz]. simpl in Hz. apply Z.eqb_eq in Hz. subst v.
          now apply In_dict_get.
        - intros H. exists (x, 0%Z). split; [reflexivity|]. apply filter_In.
          split; [now apply dict_get_In | reflexivity]. }
      intros x. rewrite (M d1 N1), (M d2 N2), Hd. reflexivity. }
  rewrite Hh, L.
  rewrite (drain_same p1 p2 Hp (S (List.length g2)) d1 d2 _ [] Hd).
  destruct (drain (S (List.length g2)) p2 d2 _ []) as [res|]; [|reflexivity].
  cbn [bind].
  destruct (negb (Nat.eqb (List.length res) (List.length g2))); [|reflexivity].
  f_equal. f_equal. apply filter_same_sorted; [apply W1 | apply W2 | exact SK].
Qed.

(** The whole orders, on graphs without cycles *)

Lemma dict_get_app (V : Type) (a b : dict V) k :
  dict_get (a ++ b) k
  = match dict_get a k with Some v => Some v | None => dict_get b k end.
Proof.
  induction a as [|[k' v'] a IH]; simpl; [reflexivity|].
  destruct (String.eqb k' k); [reflexivity | apply IH].
Qed.

Lemma succs_normalize (g : graph) n :
  wf_graph g -> succs (_normalize_graph g) n = succs g n.
Proof.
  intros W. destruct (normalize_shape g W) as [news [E _]].
  unfold succs. rewrite E, dict_get_app.
  destruct (dict_get g n) as [ds|]; [reflexivity|].
  destruct (dict_get (empty_items news) n) as [ds|] eqn:E2; [|reflexivity].
  apply dict_get_In in E2. unfold empty_items in E2. apply in_map_iff in E2.
  now destruct E2 as [x [[= _ <-] _]].
Qed.

Lemma keys_normalize (g : graph) x :
  wf_graph g ->
  (In x (dict_keys (_normalize_graph g))
   <-> In x (dict_keys g) \/ exists k, In x (succs g k)).
Proof.
  intros W. destruct (normalize_shape g W) as [news [E [_ [M _]]]]. split.
  - rewrite E, dict_keys_app, dict_keys_empty_items, in_app_iff.
    intros [H|H]; [now left|]. right. apply M in H.
    destruct H as [_ [k [ds [Hi Hd]]]]. exists k.
    apply (succs_In_items g k x (proj1 W)). eauto.
  - intros [H|[k H]].
    + rewrite E, dict_keys_app. apply in_or_app. now left.
    + apply (succs_In_items g k x (proj1 W)) in H. destruct H as [ds [Hi Hd]].
      apply (normalize_closed g k ds x); [|exact Hd].
      rewrite E. apply in_or_app. now left.
Qed.

Lemma normalize_same g1 g2 :
  wf_graph g1 -> wf_graph g2 -> same_graph g1 g2 ->
  same_graph (_normalize_graph g1) (_normalize_graph g2).
Proof.
  intros W1 W2 [K E]. split.
  - intros x. rewrite (keys_normalize g1 x W1), (keys_normalize g2 x W2), K.
    split; (intros [H|[k H]]; [now left | right; exists k; now apply E]).
  - intros n x. rewrite (succs_normalize g1 n W1), (succs_normalize g2 n W2).
    apply E.
Qed.

(** On graphs without cycles the two orders depend on the graph only, not
    on the order in which its dicts and sets are iterated: two dicts of
    sets with the same keys and the same dependencies get the same
    [topological_sort] and the same [dependency_first_dfs]. *)
Theorem orders_ignore_iteration_order (G1 G2 : graph) :
  wf_graph G1 -> wf_graph G2 -> same_graph G1 G2 ->
  acyclic (_normalize_graph G1) ->
  topological_sort G1 = topological_sort G2
  /\ dependency_first_dfs G1 = dependency_first_dfs G2.
Proof.
  intros W1 W2 HS A1.
  pose proof (normalize_same G1 G2 W1 W2 HS) as HN.
  assert (A2 : acyclic (_normalize_graph G2)).
  { destruct A1 as [rank Hr]. exists rank. intros a b Hab.
    apply Hr. now apply (proj2 HN). }
  pose proof (resolve_cycles_log_acyclic G1 A1) as R1.
  pose proof (resolve_cycles_log_acyclic G2 A2) as R2.
  unfold topological_sort, dependency_first_dfs, resolve_cycles.
  rewrite R1, R2. cbn [bind fst]. rewrite !normalize_idempotent_pure.
  split.
  - apply kahn_same; auto; split; auto using normalize_wf, normalize_closed.
  - apply postorder_same; auto using normalize_wf.
Qed.

Lemma orders_ignore_iteration_order_witness :
  topological_sort diamond = topological_sort diamond_shuffled
  /\ dependency_first_dfs diamond = dependency_first_dfs diamond_shuffled.
Proof.
  apply orders_ignore_iteration_order.
  - apply wf_graphb_sound. reflexivity.
  - apply wf_graphb_sound. reflexivity.
  - split.
    + intros x. simpl. tauto.
    + intros n x. unfold succs, diamond, diamond_shuffled. cbn [dict_get].
      destruct (String.eqb "A" n) eqn:EA; destruct (String.eqb "B" n) eqn:EB;
        destruct (String.eqb "C" n) eqn:EC; destruct (String.eqb "D" n) eqn:ED;
        try (simpl; tauto);
        repeat match goal with
               | H : String.eqb _ n = true |- _ => apply String.eqb_eq in H
               end; congruence.
  - apply detect_cycles_nil_acyclic. reflexivity.
Defined.

(** ** Resolving twice *)

(** A graph that [resolve_cycles] returned free of cycles is a fixed point:
    resolving it again returns it unchanged, and both orders computed from
    it are the orders computed from the original graph. *)
Theorem resolved_graph_is_fixed_point (G g' : graph) :
  resolve_cycles G = Some g' ->
  detect_cycles g' = Some [] ->
  resolve_cycles g' = Some g'
  /\ topological_sort g' = topological_sort G
  /\ dependency_first_dfs g' = dependency_first_dfs G.
Proof.
  intros R D.
  destruct (resolve_cycles_normal G g' R) as [N [E _]].
  assert (A : acyclic (_normalize_graph g')) by now apply detect_cycles_nil_acyclic.
  pose proof (resolve_cycles_log_acyclic g' A) as L.
  assert (R' : resolve_cycles g' = Some g').
  { unfold resolve_cycles. rewrite L. simpl. now rewrite E. }
  split; [exact R'|].
  unfold topological_sort, dependency_first_dfs. rewrite R, R'. auto.
Qed.

Lemma resolved_graph_is_fixed_point_witness :
  resolve_cycles [("a", ["a"; "b"]); ("b", [])] = Some [("a", ["b"]); ("b", [])]
  /\ resolve_cycles [("a", ["b"]); ("b", [])] = Some [("a", ["b"]); ("b", [])].
Proof.
  split; [reflexivity|].
  exact (proj1 (resolved_graph_is_fixed_point
                  [("a", ["a"; "b"]); ("b", [])] [("a", ["b"]); ("b", [])]
                  eq_refl eq_refl)).
Defined.

(** ** Every reported group is a cycle *)

Lemma reach_trans g x y z : reach g x y -> reach g y z -> reach g x z.
Proof.
  intros H. induction H as [x|x w y Hw H IH]; intros Hz; [assumption|].
  eapply reach_step; [exact Hw | now apply IH].
Qed.

Lemma reach_edge g x y : In y (succs g x) -> reach g x y.
Proof. intros H. eapply reach_step; [exact H | apply reach_refl]. Qed.

Section Reach.
Variable g : graph.
Hypothesis g_closed : closed g.

Lemma reach_set_lowlink st0 n st v z :
  reach_frame g st0 n st ->
  v <= index_counter st0 -> In z (stack st) ->
  dict_get (index st) z = Some v -> reach g n z ->
  reach_frame g st0 n (set_lowlink st n v).
Proof.
  intros [A B C D] Hv Hz Hi Hr. constructor; simpl; auto.
  exists v, z. split; [apply dict_get_set_same|]. auto.
Qed.

Lemma reach_min st0 n st a b :
  reach_frame g st0 n st ->
  dict_get (lowlink st) n = Some a ->
  (a <= b \/ exists z, In z (stack st) /\ dict_get (index st) z = Some b
                      /\ reach g n z) ->
  reach_frame g st0 n (set_lowlink st n (Nat.min a b)).
Proof.
  intros RF La Hb. pose proof RF as [A B [a' [z [L1 [L2 [L3 [L4 L5]]]]]] D].
  rewrite La in L1. injection L1 as <-.
  destruct (Nat.le_gt_cases a b) as [Hle|Hgt].
  - rewrite Nat.min_l by assumption.
    now apply (reach_set_lowlink st0 n st a z).
  - rewrite Nat.min_r by lia.
    destruct Hb as [Hb|[z' [Z1 [Z2 Z3]]]]; [lia|].
    apply (reach_set_lowlink st0 n st b z'); auto. lia.
Qed.

Lemma above_index st0 n st x i :
  frame g st0 n st -> In x (stack st) -> ~ In x (stack st0) ->
  dict_get (index st) x = Some i -> index_counter st0 <= i.
Proof.
  intros F Hx Hn Hi. pose proof (frame_index_n g _ _ _ F) as Hin.
  destruct (fr_stack F) as [ext [E1 [E2 _]]].
  rewrite E1 in Hx. apply in_app_or in Hx. destruct Hx as [Hx|[<-|Hx]].
  - destruct (grows_new (fr_grows F) x Hi) as [H|H].
    + exfalso. apply (E2 x Hx). apply indexed_get. eauto.
    + simpl in H. lia.
  - rewrite Hin in Hi. injection Hi as <-. lia.
  - contradiction.
Qed.

Lemma reach_finish st0 n st st' :
  frame g st0 n st -> reach_frame g st0 n st ->
  finish g n st = Some st' -> reach_post g n st0 st'.
Proof.
  intros F [A B [a [z [L1 [L2 [L3 [L4 L5]]]]]] D] R.
  pose proof (frame_index_n g _ _ _ F) as Hi.
  destruct (fr_stack F) as [ext [E1 _]].
  pose proof (fr_inv F) as I.
  unfold finish in R. rewrite L1, Hi in R. simpl in R.
  destruct (Nat.eqb_spec a (index_counter st0)) as [Ea|Ea].
  - destruct (finish_pop g st0 n st ext I E1) as [ons' [P1 _]].
    rewrite P1 in R. simpl in R. injection R as <-.
    constructor; simpl.
    + intros x Hx Hn. contradiction.
    + intros x Hx Hn. contradiction.
    + left. split; [reflexivity | congruence].
    + assert (M : mutual g (ext ++ [n])).
      { pose proof (inv_nodup I) as Hnd. rewrite E1 in Hnd.
        intros x y Hx Hy. apply reach_trans with (y := n).
        - apply A. rewrite E1. apply in_app_or in Hx. apply in_or_app.
          destruct Hx as [Hx|[<-|[]]]; [now left | right; now left].
        - apply B.
          + rewrite E1. apply in_app_or in Hy. apply in_or_app.
            destruct Hy as [Hy|[<-|[]]]; [now left | right; now left].
          + intros Hs. apply in_app_or in Hy. destruct Hy as [Hy|[<-|[]]].
            * apply (NoDup_app_disjoint _ _ _ y Hnd Hy). now right.
            * apply NoDup_app_remove_l in Hnd. inversion Hnd. contradiction. }
      destruct (report_cases g (ext ++ [n]) (result st)) as [-> | ->];
        [assumption|]. apply Forall_app. split; [assumption|].
      constructor; [exact M | constructor].
  - injection R as <-.
    assert (Hz : In z (stack st0)).
    { destruct (in_dec string_dec z (stack st0)) as [H|H]; [assumption|].
      pose proof (above_index st0 n st z a F L3 H L4). lia. }
    constructor.
    + exact B.
    + intros x Hx Hn. exists z. split; [assumption|].
      apply reach_trans with (y := n); [now apply A | assumption].
    + right. exists a, z. auto.
    + exact D.
Qed.

Section Loop.
Variable f : nat.
Hypothesis IH : forall w st st',
  tarjan_inv st -> ~ indexed st w -> In w (dict_keys g) ->
  unindexed g st < f ->
  (forall x, In x (stack st) -> reach g x w) ->
  Forall (mutual g) (result st) ->
  strongconnect f g w st = Some st' -> reach_post g w st st'.

Variables (st0 : tarjan) (n : node).
Hypothesis Hfuel : unindexed g (enter n st0) < f.

Lemma reach_loop : forall ws st st',
  (forall w, In w ws -> In w (succs g n)) ->
  frame g st0 n st -> reach_frame g st0 n st ->
  for_successors (strongconnect f g) n ws st = Some st' ->
  reach_frame g st0 n st'.
Proof.
  induction ws as [|w ws IHws]; intros st st' Hws F RF R.
  - simpl in R. now injection R as <-.
  - assert (Hw : In w (succs g n)) by (apply Hws; now left).
    assert (Hws' : forall w', In w' ws -> In w' (succs g n))
      by (intros w' H'; apply Hws; now right).
    pose proof (frame_indexed_n g _ _ _ F) as Hn.
    pose proof RF as [A B [a [z [L1 [L2 [L3 [L4 L5]]]]]] D].
    simpl in R. destruct (dict_mem (index st) w) eqn:Ew; simpl in R.
    + destruct (set_mem w (onstack st)) eqn:Eo; [|now apply (IHws st st')].
      rewrite L1 in R. simpl in R.
      destruct (dict_get (index st) w) as [b|] eqn:Eb; [|discriminate].
      simpl in R.
      apply set_mem_In in Eo. apply (inv_onstack (fr_inv F)) in Eo.
      apply (IHws (set_lowlink st n (Nat.min a b)) st'); auto.
      * now apply frame_set_lowlink.
      * apply (reach_min st0 n st a b RF L1). right. exists w.
        split; [assumption|]. split; [assumption | now apply reach_edge].
    + apply dict_mem_false in Ew.
      destruct (strongconnect f g w st) as [st1|] eqn:R1; [|discriminate].
      simpl in R.
      assert (Hf1 : unindexed g st < f).
      { pose proof (unindexed_le _ _ _ (fr_grows F)). lia. }
      pose proof (strongconnect_post g g_closed f w st st1 (fr_inv F) Ew
                    (succs_keys g g_closed _ _ Hw) Hf1 R1) as P.
      assert (RP : reach_post g w st st1).
      { apply (IH w st st1 (fr_inv F) Ew (succs_keys g g_closed _ _ Hw) Hf1);
          auto.
        intros x Hx. apply reach_trans with (y := n);
          [now apply A | now apply reach_edge]. }
      assert (F1 : frame g st0 n st1) by (eapply frame_call; eassumption).
      destruct (cp_stack P) as [extw [S1 _]].
      assert (Hsub : forall x, In x (stack st) -> In x (stack st1)).
      { intros x Hx. rewrite S1. apply in_or_app. now right. }
      assert (RF1 : reach_frame g st0 n st1).
      { constructor.
        - intros x Hx. destruct (in_dec string_dec x (stack st)) as [H|H].
          + now apply A.
          + destruct (rp_down RP x Hx H) as [y [Y1 Y2]].
            apply reach_trans with (y := y); [assumption | now apply A].
        - intros x Hx H0. destruct (in_dec string_dec x (stack st)) as [H|H].
          + now apply B.
          + apply reach_trans with (y := w); [now apply reach_edge|].
            now apply (rp_up RP).
        - exists a, z. split; [|split; [assumption|split; [|split]]].
          + rewrite (cp_lowlink P n Hn). exact L1.
          + now apply Hsub.
          + now apply (grows_index (cp_grows P)).
          + exact L5.
        - exact (rp_result RP). }
      assert (La1 : dict_get (lowlink st1) n = Some a).
      { rewrite (cp_lowlink P n Hn). exact L1. }
      rewrite La1 in R. simpl in R.
      destruct (dict_get (lowlink st1) w) as [b|] eqn:Eb; [|discriminate].
      simpl in R.
      apply (IHws (set_lowlink st1 n (Nat.min a b)) st'); auto.
      * now apply frame_set_lowlink.
      * apply (reach_min st0 n st1 a b RF1 La1).
        destruct (rp_low RP) as [[_ O]|[b' [y [O1 [O2 [O3 O4]]]]]].
        -- left. rewrite Eb in O. injection O as ->.
           pose proof (grows_counter (fr_grows F)) as H. simpl in H. lia.
        -- right. rewrite Eb in O1. injection O1 as <-. exists y.
           split; [now apply Hsub|]. split; [assumption|].
           apply reach_trans with (y := w); [now apply reach_edge | assumption].
Qed.
End Loop.

Lemma reach_strongconnect : forall fuel n st st',
  tarjan_inv st -> ~ indexed st n -> In n (dict_keys g) ->
  unindexed g st < fuel ->
  (forall x, In x (stack st) -> reach g x n) ->
  Forall (mutual g) (result st) ->
  strongconnect fuel g n st = Some st' -> reach_post g n st st'.
Proof.
  induction fuel as [|f IHf]; intros n st st' I Hn Hk Hf Hpre Hres R; [lia|].
  simpl in R.
  assert (Hlt : unindexed g (enter n st) < f).
  { assert (unindexed g (enter n st) < unindexed g st); [|lia].
    apply unindexed_lt with (n := n); auto.
    - now apply enter_grows.
    - apply indexed_get. eexists. apply enter_index. }
  destruct (for_successors (strongconnect f g) n (succs g n) (enter n st))
    as [stL|] eqn:RL; [|discriminate].
  simpl in R.
  pose proof (frame_enter g st n I Hn) as F0.
  destruct (loop_post g g_closed f st n (succs g n) _ stL Hlt (fun w H => H) F0 RL)
    as [FL _].
  apply (reach_finish st n stL st' FL); [|exact R].
  apply (reach_loop f IHf st n Hlt (succs g n) (enter n st) stL); auto.
  constructor; simpl.
  - intros x [<-|Hx]; [apply reach_refl | now apply Hpre].
  - intros x [<-|Hx] H0; [apply reach_refl | contradiction].
  - exists (index_counter st), n. split; [apply dict_get_set_same|].
    split; [lia|]. split; [now left|]. split; [apply dict_get_set_same|].
    apply reach_refl.
  - exact Hres.
Qed.

Lemma reach_visit_all fuel : List.length g < fuel -> forall ns st st',
  tarjan_inv st -> stack st = [] -> Forall (mutual g) (result st) ->
  (forall n, In n ns -> In n (dict_keys g)) ->
  visit_all fuel g ns st = Some st' ->
  stack st' = [] /\ Forall (mutual g) (result st').
Proof.
  intros Hf. induction ns as [|n ns IH]; intros st st' I Hs Hres Hk R.
  - simpl in R. injection R as <-. auto.
  - assert (Hk' : forall x, In x ns -> In x (dict_keys g))
      by (intros x Hx; apply Hk; now right).
    simpl in R. destruct (dict_mem (index st) n) eqn:E.
    + now apply (IH st st').
    + apply dict_mem_false in E.
      destruct (strongconnect fuel g n st) as [st1|] eqn:R1; [|discriminate].
      simpl in R.
      assert (Hf1 : unindexed g st < fuel).
      { pose proof (unindexed_bound g st). lia. }
      pose proof (strongconnect_post g g_closed fuel n st st1 I E
                    (Hk n (or_introl eq_refl)) Hf1 R1) as P.
      assert (RP : reach_post g n st st1).
      { apply (reach_strongconnect fuel n st st1 I E (Hk n (or_introl eq_refl)) Hf1);
          auto. rewrite Hs. intros x []. }
      apply (IH st1 st'); auto.
      * exact (cp_inv P).
      * destruct (rp_low RP) as [[O _]|[b [z [_ [Z _]]]]]; [congruence|].
        rewrite Hs in Z. destruct Z.
      * exact (rp_result RP).
Qed.
End Reach.

(** Every group that [detect_cycles] reports is a cycle of the normalised
    graph: any two of its members reach each other along edges, and every
    member lies on a cycle. *)
Theorem detect_cycles_groups_are_cycles (g0 : graph) :
  exists cycles,
    detect_cycles g0 = Some cycles
    /\ forall c, In c cycles ->
         (forall x y, In x c -> In y c -> reach (_normalize_graph g0) x y)
         /\ (forall x, In x c -> on_cycle (_normalize_graph g0) x).
Proof.
  destruct (detect_cycles_total g0) as [cycles [E Good]].
  exists cycles. split; [exact E|].
  unfold detect_cycles in E. set (g := _normalize_graph g0) in *.
  pose proof (normalize_closed g0) as C. fold g in C.
  destruct (visit_all (S (List.length g)) g (dict_keys g) tarjan_init)
    as [st|] eqn:R; [|discriminate].
  simpl in E. injection E as <-.
  destruct (reach_visit_all g C (S (List.length g)) (Nat.lt_succ_diag_r _)
              (dict_keys g) tarjan_init st tarjan_init_inv eq_refl) as [_ M];
    [constructor | auto | exact R |].
  intros c Hc. rewrite Forall_forall in M, Good.
  pose proof (M c Hc) as Mc. split; [exact Mc|].
  intros x Hx. destruct (Good c Hc) as [u [v [Hu [Hv He]]]].
  pose proof (Mc x u Hx Hu) as H1. pose proof (Mc v x Hv Hx) as H2.
  clear - H1 H2 He. destruct H1 as [x|x y u Hy H].
  - exists v. auto.
  - exists y. split; [assumption|].
    apply reach_trans with (y := u); [assumption|].
    eapply reach_step; [exact He | exact H2].
Qed.

(** ** A run of [main] with the default selection *)

Lemma ranking_returns (metrics : dict Metrics) (ids : list string) :
  (forall cid, In cid ids -> In cid (dict_keys metrics)) ->
  exists ranked, ranking metrics ids = Some ranked.
Proof.
  intros H. unfold ranking.
  destruct (mapM_returns _ _
              (fun cid => m <- dict_get metrics cid ;;
                          Some (PrimFloat.opp (score m), cid)) ids) as [keys E].
  { intros cid Hc. apply H, dict_get_keys in Hc. destruct Hc as [m Hm].
    rewrite Hm. cbn [bind]. eauto. }
  rewrite E. cbn [bind]. eauto.
Qed.

Lemma write_fold_keys (components : dict component) :
  forall (selected : list string) (acc : dict component),
  NoDup (dict_keys acc ++ selected) ->
  (forall cid, In cid selected -> In cid (dict_keys components)) ->
  dict_keys
    (fold_left (fun (out : dict component) c =>
                  match dict_get components c with
                  | Some v => dict_set out c v
                  | None => out
                  end) selected acc)
  = dict_keys acc ++ selected.
Proof.
  induction selected as [|c selected IH]; intros acc Hnd Hin; simpl.
  - now rewrite app_nil_r.
  - assert (Hc : In c (dict_keys components)) by (apply Hin; now left).
    apply dict_get_keys in Hc. destruct Hc as [v Hv]. rewrite Hv.
    assert (Hk : ~ In c (dict_keys acc)).
    { apply NoDup_remove_2 in Hnd. intros H. apply Hnd. apply in_or_app. now left. }
    rewrite IH.
    + rewrite dict_set_new by assumption. rewrite dict_keys_app. simpl.
      now rewrite <- app_assoc.
    + rewrite dict_set_new by assumption. rewrite dict_keys_app. simpl.
      rewrite <- app_assoc. exact Hnd.
    + intros cid H. apply Hin. now right.
Qed.

(** With [--top-percent] at [100] or more and no print option, [main]
    returns [0] on every loaded set of components; its only effect is to
    write the output file, which holds every component under its own
    identifier, the identifiers in ascending order. *)
Theorem main_keeps_everything_by_default
    (parse_args : list string -> parsed)
    (load : string -> option (dict component))
    (sample : Z -> nat -> nat -> list nat)
    (set_order : list string -> list string) (argv : list string)
    (args : arguments) (components : dict component) :
  parse_args argv = Namespace args ->
  set_iteration set_order ->
  load (arg_input args) = Some components ->
  NoDup (dict_keys components) ->
  PrimFloat.leb (arg_top_percent args) 0%float = false ->
  PrimFloat.leb 100%float (arg_top_percent args) = true ->
  arg_print_top args = None ->
  positive_percent (arg_print_top_percent args) = false ->
  exists content,
    main parse_args load sample set_order argv
    = ([WriteFile (arg_output args) content], Returned 0)
    /\ dict_keys content = sorted (dict_keys components)
    /\ forall cid, dict_get content cid = dict_get components cid.
Proof.
  intros Ha Ho Hl Hnd H0 H100 Hpt Hpp. unfold main. rewrite Ha, Hl.
  destruct (edges_of_components set_order components Ho Hnd)
    as [P [Ki [W [C _]]]].
  pose proof (compute_metrics_total sample) as T.
  destruct (build_in_out_edges_from_components set_order components) as [oe ie].
  cbn [fst snd] in P, Ki, W, C.
  destruct (Nat.eqb _ 0) eqn:En.
  - apply Nat.eqb_eq in En.
    assert (Ec : components = []).
    { rewrite <- (length_map fst) in En. change (map fst ?g) with (dict_keys g) in En.
      apply length_zero_iff_nil in En. rewrite En in P.
      apply Permutation_nil in P. destruct components; [reflexivity | discriminate]. }
    subst components. exists []. split; [reflexivity|]. split; reflexivity.
  - destruct (T oe ie (adapt_samples (arg_weights args) (List.length oe)) W C Ki)
      as [metrics [Em [Km _]]].
    rewrite Em.
    destruct (select_everything metrics (arg_top_percent args) H0 H100)
      as [selected [Es [Ss Ps]]].
    rewrite Es, Hpt. cbn [andb].
    assert (Pm : Permutation (dict_keys metrics) (dict_keys components))
      by now rewrite Km.
    assert (Esel : selected = sorted (dict_keys components)).
    { unfold select_top_percent in Es. rewrite H0, H100 in Es.
      injection Es as <-. apply sorted_of_permutation. exact Pm. }
    unfold print_report.
    destruct (ranking_returns metrics (dict_keys metrics)) as [ranked Er]; [auto|].
    rewrite Er, Hpp, Hpt. cbn [orb positive_count fst snd].
    unfold write_filtered_components. eexists. split; [reflexivity|].
    assert (Hs : forall cid, In cid selected -> In cid (dict_keys components)).
    { intros cid Hc. rewrite Esel, sorted_In in Hc. exact Hc. }
    split.
    + rewrite write_fold_keys; [exact Esel | | exact Hs].
      simpl. rewrite Esel. now apply sorted_NoDup.
    + intros cid. rewrite write_fold_get. simpl.
      destruct (set_mem cid selected) eqn:E.
      * destruct (dict_get components cid); reflexivity.
      * apply set_mem_false in E. symmetry. apply dict_get_None.
        intros Hk. apply E. rewrite Esel, sorted_In. exact Hk.
Qed.

Lemma main_keeps_everything_by_default_witness :
  exists content,
    main (parsed_as (command_line 0%float None)) (load_of three_components)
         all_sources reverse_order
         ["--input"; "graph.json"; "--output"; "out.json"]
    = ([WriteFile "out.json" content], Returned 0)
    /\ dict_keys content = sorted (dict_keys three_components)
    /\ forall cid, dict_get content cid = dict_get three_components cid.
Proof.
  apply (main_keeps_everything_by_default
           (parsed_as (command_line 0%float None)) (load_of three_components)
           all_sources reverse_order
           ["--input"; "graph.json"; "--output"; "out.json"]
           (command_line 0%float None) three_components).
  - reflexivity.
  - exact reverse_order_iteration.
  - reflexivity.
  - apply nodupb_NoDup. reflexivity.
  - reflexivity.
  - reflexivity.
  - reflexivity.
  - reflexivity.
Defined.
